(** * bookcoder: the digital book cipher of [bookcoder.c]

    A shallow embedding of the two streaming loops of the program,
    [mapOffsets] (encode) and [extractBytes] (decode), together with the part
    of [main] that fixes the buffer sizes they run with, and the properties
    of the specification checked against them.

    Conventions of the embedding:
    - [uoffset_t] (uint32_t) values are [Z] with the wrap-around written out
      ([to_u32]); [offset_t] (int32_t) likewise ([to_i32]); [size_t] values
      are [Z] and the two subtractions that could wrap are reduced modulo
      [2^64] ([to_size]);
    - a file is the list of its bytes, a [FILE*] is the read position in it;
      the medium does not fail, so the only read that comes back short is
      one that meets the end of the file; opening the files and allocating
      the buffers succeed, and what [bytesOfRamAvailable] answers is a
      parameter of a session;
    - an offset is written to and read from the book code in the byte order
      of the machine, taken little-endian here (x86-64 Linux, which the
      program targets through /proc/meminfo);
    - the loops are driven by fuel: one unit per execution of the body of the
      innermost loop, so a run that never leaves a loop is a run that is
      [Timeout] for every amount of fuel. *)

From Stdlib Require Import String ZArith List Lia Bool.
From coqutil Require Import Byte Word.LittleEndianList.
Import ListNotations.
Local Open Scope Z_scope.

(** ** C integer conversions *)

Definition to_u32 (z : Z) : Z := z mod 2 ^ 32.

Definition to_i32 (z : Z) : Z :=
  let u := z mod 2 ^ 32 in if u <? 2 ^ 31 then u else u - 2 ^ 32.

Definition to_size (z : Z) : Z := z mod 2 ^ 64.

(** [#define DEFAULT_BUFFER_SIZE 1024 * 1024] *)
Definition DEFAULT_BUFFER_SIZE : Z := 1024 * 1024.

(** [sizeof(oSetSt->byteOffset)], the width of one offset of the book code. *)
Definition sizeof_byteOffset : Z := 4.

(** ** Streams *)

(** [fread(ptr, 1, n, stream)] at read position [pos]: the bytes obtained,
    fewer than [n] only at the end of the file. *)
Definition fread (file : list byte) (pos n : Z) : list byte :=
  firstn (Z.to_nat n) (skipn (Z.to_nat pos) file).

(** [freadWErrCheck]: a short count at the end of the file is [EBADMSG]. *)
Definition freadWErrCheck (file : list byte) (pos n : Z) : option (list byte) :=
  let got := fread file pos n in
  if Z.of_nat (length got) =? n then Some got else None.

(** [fseek(f, pos, SEEK_SET); fgetc(f)]: the byte at [pos] as an [int], or
    [EOF] when [pos] is at or past the end of the file. *)
Definition EOF : Z := -1.

Definition fgetc (file : list byte) (pos : Z) : Z :=
  if pos <? 0 then EOF
  else match nth_error file (Z.to_nat pos) with
       | Some b => byte.unsigned b
       | None => EOF
       end.

(** [fwrite(&byteOffset, 1, sizeof(byteOffset), bkCd)] *)
Definition offset_bytes (byteOffset : Z) : list byte :=
  le_split 4 byteOffset.

(** ** Outcomes of a session *)

Inductive failure : Type :=
| InsufficientEntropy   (* "Not enough entropy in book file or book buffer" *)
| ShortRead             (* EBADMSG out of freadWErrCheck *)
| NotEnoughMemory       (* "Not enough available memory for specified buffer size" *)
| DivisionByZero        (* bkFilSize % bkFilBufSize with an empty buffer *)
| BufferOverrun.        (* a store past the end of extrFilBuffer *)

Inductive outcome (S : Type) : Type :=
| Done (s : S)                  (* the function returned 0 *)
| Failed (e : failure) (s : S)  (* exit(EXIT_FAILURE), or a crash *)
| Timeout (s : S).              (* still inside a loop when the fuel ran out *)

Arguments Done {S} s.
Arguments Failed {S} e s.
Arguments Timeout {S} s.

(** ** Options *)

(** The fields of [optionsStruct] the two loops and the sizing in [main]
    read.  A [...BufSizeGiven] flag and the size [parseOptions] stored with it
    are one [option]. *)
Record optionsStruct : Type := {
  allowDuplicates : bool;
  resetAtEndOfBuf : bool;
  readFromStdin : bool;
  bkFilBufSizeGiven : option Z;
  orgFilBufSizeGiven : option Z;
  bkCdBufSizeGiven : option Z;
  extrFilBufSizeGiven : option Z
}.

(** ** The encoder: [mapOffsets] *)

(** What [mapOffsets] mutates: the two input streams and their buffers and
    cursors, the digest, the repeat counter, and the book code written. *)
Record mapState : Type := {
  bkFil : Z;
  bkFilBuffer : list byte;
  bkFilPos : Z;
  bkFilBufPos : Z;
  orgFil : Z;
  orgFilBuffer : list byte;
  orgFilBufPos : Z;
  offsetDigest : byte -> Z;
  repeatsFound : Z;
  bkCd : list byte
}.

Definition set_bkFilBufPos (p : Z) (st : mapState) : mapState :=
  {| bkFil := bkFil st; bkFilBuffer := bkFilBuffer st; bkFilPos := bkFilPos st;
     bkFilBufPos := p;
     orgFil := orgFil st; orgFilBuffer := orgFilBuffer st;
     orgFilBufPos := orgFilBufPos st; offsetDigest := offsetDigest st;
     repeatsFound := repeatsFound st; bkCd := bkCd st |}.

Definition set_bkFilPos (p : Z) (st : mapState) : mapState :=
  {| bkFil := bkFil st; bkFilBuffer := bkFilBuffer st; bkFilPos := p;
     bkFilBufPos := bkFilBufPos st;
     orgFil := orgFil st; orgFilBuffer := orgFilBuffer st;
     orgFilBufPos := orgFilBufPos st; offsetDigest := offsetDigest st;
     repeatsFound := repeatsFound st; bkCd := bkCd st |}.

Definition set_bkFil (pos : Z) (buf : list byte) (st : mapState) : mapState :=
  {| bkFil := pos; bkFilBuffer := buf; bkFilPos := bkFilPos st;
     bkFilBufPos := bkFilBufPos st;
     orgFil := orgFil st; orgFilBuffer := orgFilBuffer st;
     orgFilBufPos := orgFilBufPos st; offsetDigest := offsetDigest st;
     repeatsFound := repeatsFound st; bkCd := bkCd st |}.

Definition set_orgFil (pos : Z) (buf : list byte) (st : mapState) : mapState :=
  {| bkFil := bkFil st; bkFilBuffer := bkFilBuffer st; bkFilPos := bkFilPos st;
     bkFilBufPos := bkFilBufPos st;
     orgFil := pos; orgFilBuffer := buf;
     orgFilBufPos := 0; offsetDigest := offsetDigest st;
     repeatsFound := repeatsFound st; bkCd := bkCd st |}.

Definition set_repeatsFound (r : Z) (st : mapState) : mapState :=
  {| bkFil := bkFil st; bkFilBuffer := bkFilBuffer st; bkFilPos := bkFilPos st;
     bkFilBufPos := bkFilBufPos st;
     orgFil := orgFil st; orgFilBuffer := orgFilBuffer st;
     orgFilBufPos := orgFilBufPos st; offsetDigest := offsetDigest st;
     repeatsFound := r; bkCd := bkCd st |}.

(** [offsetDigest[b] = v] *)
Definition digest_store (d : byte -> Z) (b : byte) (v : Z) : byte -> Z :=
  fun b' => if Byte.eqb b' b then v else d b'.

(** Lines 284-302: the offset is accepted.  The counter is cleared, the
    digest entry of the byte overwritten, the offset written to the book
    code and the cursor of the original file buffer advanced; the cursor of
    the book file buffer stays where the match was found. *)
Definition accept (bkFilByte : byte) (byteOffset : Z) (st : mapState) : mapState :=
  {| bkFil := bkFil st; bkFilBuffer := bkFilBuffer st; bkFilPos := bkFilPos st;
     bkFilBufPos := bkFilBufPos st;
     orgFil := orgFil st; orgFilBuffer := orgFilBuffer st;
     orgFilBufPos := to_u32 (orgFilBufPos st + 1);
     offsetDigest := digest_store (offsetDigest st) bkFilByte (to_i32 byteOffset);
     repeatsFound := 0;
     bkCd := bkCd st ++ offset_bytes byteOffset |}.

Section MapOffsets.

(** The book file, the part of it in use and the size of its buffer, as
    [main] hands them over. *)
Variable book : list byte.
Variable bkFilSize : Z.
Variable bkFilBufSize : Z.
Variable original : list byte.
Variable optSt : optionsStruct.

(** Lines 305-330, from the label [refillBuffer] to the end of the block.
    [orgFilByte] is the byte being mapped. *)
Definition refillBuffer (orgFilByte : byte) (st : mapState)
  : mapState + failure * mapState :=
  let st := set_bkFilPos (to_u32 (bkFilPos st + bkFilBufSize)) st in
  let st := set_bkFilBufPos 0 st in
  if (to_size (bkFilSize - 1) <=? bkFilPos st) || resetAtEndOfBuf optSt then
    if offsetDigest st orgFilByte =? -1 then inr (InsufficientEntropy, st)
    else
      let st := set_bkFilPos 0 st in
      match freadWErrCheck book 0 bkFilBufSize with
      | Some buf => inl (set_bkFil (0 + bkFilBufSize) buf st)
      | None => inr (ShortRead, st)
      end
  else
    match freadWErrCheck book (bkFil st) bkFilBufSize with
    | Some buf => inl (set_bkFil (bkFil st + bkFilBufSize) buf st)
    | None => inr (ShortRead, st)
    end.

(** The increment [bkFilBufPos++] of the [for] loop of line 251. *)
Definition next_bkFilBufPos (st : mapState) : mapState :=
  set_bkFilBufPos (to_u32 (bkFilBufPos st + 1)) st.

(** One execution of the body of the [for] loop (lines 253-331), followed
    by the increment of the loop unless the body left through
    [goto getNextOriginalFileByte]. *)
Definition forBody (st : mapState) : mapState + failure * mapState :=
  let orgFilByte := nth (Z.to_nat (orgFilBufPos st)) (orgFilBuffer st) Byte.x00 in
  let bkFilByte := nth (Z.to_nat (bkFilBufPos st)) (bkFilBuffer st) Byte.x00 in
  if Byte.eqb orgFilByte bkFilByte then
    let byteOffset := to_u32 (bkFilBufPos st + bkFilPos st) in
    if negb (allowDuplicates optSt)
       && (to_u32 (offsetDigest st bkFilByte) =? byteOffset) then
      if 2 <=? repeatsFound st then
        match refillBuffer orgFilByte st with
        | inl st' => inl (next_bkFilBufPos st')
        | inr f => inr f
        end
      else
        let st :=
          if bkFilBufPos st =? to_size (bkFilBufSize - 1)
          then set_bkFilBufPos 0 st else st in
        let st := set_repeatsFound (repeatsFound st + 1) st in
        inl (next_bkFilBufPos st)
    else
      inl (accept bkFilByte byteOffset st)
  else if bkFilBufPos st =? to_size (bkFilBufSize - 1) then
    match refillBuffer orgFilByte st with
    | inl st' => inl (next_bkFilBufPos st')
    | inr f => inr f
    end
  else inl (next_bkFilBufPos st).

(** The three nested loops of lines 245-334 under the label
    [getNextOriginalFileByte], for one chunk of the original file.  When
    the condition of the [for] or of the inner [while] is false the loops
    around it test again with nothing changed. *)
Fixpoint mapChunk (fuel : nat) (currentChunk : Z) (st : mapState)
  : outcome mapState :=
  match fuel with
  | O => Timeout st
  | S fuel' =>
    if orgFilBufPos st <? currentChunk then
      if bkFilPos st <? bkFilSize then
        if bkFilBufPos st <? bkFilBufSize then
          match forBody st with
          | inl st' => mapChunk fuel' currentChunk st'
          | inr (e, st') => Failed e st'
          end
        else mapChunk fuel' currentChunk st
      else mapChunk fuel' currentChunk st
    else Done st
  end.

(** The loop over the chunks of the original file, lines 225-335. *)
Fixpoint mapChunks (fuel : nat) (bytesRemaining currentChunk : Z)
         (st : mapState) : outcome mapState :=
  match fuel with
  | O => Timeout st
  | S fuel' =>
    if bytesRemaining =? 0 then Done st
    else
      let currentChunk :=
        if bytesRemaining <? currentChunk then bytesRemaining else currentChunk in
      match freadWErrCheck original (orgFil st) currentChunk with
      | None => Failed ShortRead st
      | Some buf =>
        match mapChunk fuel' currentChunk
                       (set_orgFil (orgFil st + currentChunk) buf st) with
        | Done st' => mapChunks fuel' (bytesRemaining - currentChunk) currentChunk st'
        | r => r
        end
      end
  end.

(** [mapOffsets], lines 205-338. *)
Definition mapOffsets (fuel : nat) (orgFilSize orgFilBufSize : Z)
           (st : mapState) : outcome mapState :=
  match freadWErrCheck book (bkFil st) bkFilBufSize with
  | None => Failed ShortRead st
  | Some buf =>
    mapChunks fuel orgFilSize orgFilBufSize
              (set_bkFil (bkFil st + bkFilBufSize) buf st)
  end.

End MapOffsets.

(** The state [main] starts [mapOffsets] from (lines 757-781): files just
    opened, cursors at zero, every digest entry [-1]. *)
Definition initialMapState : mapState :=
  {| bkFil := 0; bkFilBuffer := []; bkFilPos := 0; bkFilBufPos := 0;
     orgFil := 0; orgFilBuffer := []; orgFilBufPos := 0;
     offsetDigest := fun _ => -1; repeatsFound := 0; bkCd := [] |}.

(** Lines 813-830: the buffer sizes of a mapping session. *)
Definition map_bkFilBufSize (optSt : optionsStruct) (book : list byte) : Z :=
  let requested :=
    match bkFilBufSizeGiven optSt with Some n => n | None => DEFAULT_BUFFER_SIZE end in
  let size := Z.of_nat (length book) in
  if size <? requested then size else requested.

Definition map_orgFilBufSize (optSt : optionsStruct) (original : list byte) : Z :=
  let requested :=
    match orgFilBufSizeGiven optSt with Some n => n | None => DEFAULT_BUFFER_SIZE end in
  let size := Z.of_nat (length original) in
  if size <? requested then size else requested.

(** Line 860: [bkFilSize -= bkFilSize % bkFilBufSize]. *)
Definition map_bkFilSize (optSt : optionsStruct) (book : list byte) : Z :=
  let size := Z.of_nat (length book) in
  size - size mod map_bkFilBufSize optSt book.

(** The mapping branch of [main] (lines 783-883) on a book file and an
    original file already opened, with [ram] what [bytesOfRamAvailable]
    answers. *)
Definition runEncode (ram : Z) (optSt : optionsStruct)
           (book original : list byte) (fuel : nat) : outcome mapState :=
  let bkFilBufSize := map_bkFilBufSize optSt book in
  let orgFilBufSize := map_orgFilBufSize optSt original in
  if ram <? orgFilBufSize + bkFilBufSize then Failed NotEnoughMemory initialMapState
  else if bkFilBufSize =? 0 then Failed DivisionByZero initialMapState
  else
    mapOffsets book (map_bkFilSize optSt book) bkFilBufSize original optSt fuel
               (Z.of_nat (length original)) orgFilBufSize initialMapState.

(** ** The decoder: [extractBytes] *)

(** What [extractBytes] mutates: the read position in the book code, the
    buffer of the extracted file (an array, of which only the entries stored
    in the current pass are ever written out) and the extracted file. *)
Record extractState : Type := {
  bkCdRead : Z;
  extrFilBuffer : Z -> byte;
  extrFil : list byte
}.

(** [extrFilBuffer[i] = b] *)
Definition buffer_store (buf : Z -> byte) (i : Z) (b : byte) : Z -> byte :=
  fun j => if j =? i then b else buf j.

(** The first [n] entries of the buffer, as [fwrite] sends them out. *)
Definition buffer_prefix (buf : Z -> byte) (n : Z) : list byte :=
  map (fun i => buf (Z.of_nat i)) (seq 0 (Z.to_nat n)).

(** [bkCdBuffer[i]]: the chunk read as an array of [uoffset_t]. *)
Definition bkCdBuffer_at (chunk : list byte) (i : Z) : Z :=
  le_combine (firstn 4 (skipn (Z.to_nat (sizeof_byteOffset * i)) chunk)).

Section ExtractBytes.

Variable book : list byte.
Variable bookCode : list byte.
Variable bkCdBufSize : Z.
Variable extrFilBufSize : Z.

(** The [for] loop of lines 369-380 over one chunk of [currentChunk]
    bytes.  The result of [fgetc] is stored into a [byte_t].  The buffer was
    allocated with [extrFilBufSize] bytes and the code does not compare the
    cursor with that size: a store past the end is undefined in C, and a
    failure here. *)
Fixpoint extractChunk (fuel : nat) (chunk : list byte) (extrFilBufPos : Z)
         (buf : Z -> byte) : outcome (Z -> byte) :=
  match fuel with
  | O => Timeout buf
  | S fuel' =>
    if extrFilBufPos <? Z.of_nat (length chunk) / sizeof_byteOffset then
      if extrFilBufPos <? extrFilBufSize then
        let c := fgetc book (bkCdBuffer_at chunk extrFilBufPos) in
        extractChunk fuel' chunk (to_u32 (extrFilBufPos + 1))
                     (buffer_store buf extrFilBufPos (byte.of_Z c))
      else Failed BufferOverrun buf
    else Done buf
  end.

(** The [while (1)] loop of lines 352-398. *)
Fixpoint extractLoop (fuel : nat) (st : extractState) : outcome extractState :=
  match fuel with
  | O => Timeout st
  | S fuel' =>
    let chunk := fread bookCode (bkCdRead st) bkCdBufSize in
    let currentChunk := Z.of_nat (length chunk) in
    let read := bkCdRead st + currentChunk in
    match extractChunk fuel' chunk 0 (extrFilBuffer st) with
    | Done buf =>
      let st' :=
        {| bkCdRead := read; extrFilBuffer := buf;
           extrFil := extrFil st
                      ++ buffer_prefix buf (currentChunk / sizeof_byteOffset) |} in
      if currentChunk <? bkCdBufSize then Done st' else extractLoop fuel' st'
    | Failed e buf =>
      Failed e {| bkCdRead := read; extrFilBuffer := buf; extrFil := extrFil st |}
    | Timeout buf =>
      Timeout {| bkCdRead := read; extrFilBuffer := buf; extrFil := extrFil st |}
    end
  end.

(** [extractBytes], lines 340-401. *)
Definition extractBytes (fuel : nat) (st : extractState) : outcome extractState :=
  extractLoop fuel st.

End ExtractBytes.

Definition initialExtractState : extractState :=
  {| bkCdRead := 0; extrFilBuffer := fun _ => Byte.x00; extrFil := [] |}.

(** Lines 911-932: the buffer sizes of an extraction.  [bkCdSize] is taken
    from the book file ([getFileSize(bkFilSt.bkFilName)]); the size given on
    the command line was already divided by the offset width when it was
    parsed, and is multiplied back only when the book code is not piped in. *)
Definition extract_extrFilBufSize (optSt : optionsStruct) : Z :=
  match extrFilBufSizeGiven optSt with Some n => n | None => DEFAULT_BUFFER_SIZE end.

Definition extract_bkCdBufSize (optSt : optionsStruct) (book : list byte) : Z :=
  let requested :=
    match bkCdBufSizeGiven optSt with Some n => n | None => DEFAULT_BUFFER_SIZE end in
  if readFromStdin optSt then requested
  else
    let bkCdSize := Z.of_nat (length book) in
    (if bkCdSize <? requested then bkCdSize else requested) * sizeof_byteOffset.

(** The extraction branch of [main] (lines 885-978). *)
Definition runDecode (ram : Z) (optSt : optionsStruct)
           (book bookCode : list byte) (fuel : nat) : outcome extractState :=
  let extrFilBufSize := extract_extrFilBufSize optSt in
  let bkCdBufSize := extract_bkCdBufSize optSt book in
  if ram <? bkCdBufSize + extrFilBufSize then Failed NotEnoughMemory initialExtractState
  else extractBytes book bookCode bkCdBufSize extrFilBufSize fuel initialExtractState.

(** ** The unit of a buffer size: [getBufSizeMultiple] *)

(** [isdigit] and [isalpha] of [<ctype.h>] in the "C" locale. *)
Definition isdigit (c : byte) : bool :=
  let n := byte.unsigned c in (48 <=? n) && (n <=? 57).

Definition isalpha (c : byte) : bool :=
  let n := byte.unsigned c in
  ((65 <=? n) && (n <=? 90)) || ((97 <=? n) && (n <=? 122)).

(** [#define MAX_DIGITS 13] *)
Definition MAX_DIGITS : nat := 13.

(** The [for] loop of lines 183-193, with [todo] the turns left before
    [valueLength] reaches [MAX_DIGITS].  [value] is the memory from the
    pointer on: the characters of the value, the terminator [getsubopt] or
    the command line put after them, and what follows; a read past what
    [value] describes has no result here.  A digit is copied and the loop
    goes on; a letter is copied and ends the loop, [valueLength] standing
    after it; any other character is passed over. *)
Fixpoint getBufSizeMultiple_loop (todo : nat) (value : list byte)
         (valueLength : Z) (valString : Z -> byte) : option (Z * (Z -> byte)) :=
  match todo with
  | O => Some (valueLength, valString)
  | S todo' =>
    match nth_error value (Z.to_nat valueLength) with
    | None => None
    | Some c =>
      if isdigit c then
        getBufSizeMultiple_loop todo' value (valueLength + 1)
                                (buffer_store valString valueLength c)
      else if isalpha c then
        Some (valueLength + 1, buffer_store valString valueLength c)
      else getBufSizeMultiple_loop todo' value (valueLength + 1) valString
    end
  end.

(** [getBufSizeMultiple], lines 170-203: [valString] starts as zeros and
    the three tests of lines 195-200 look at [valString[valueLength-1]]. *)
Definition getBufSizeMultiple (value : list byte) : option Z :=
  match getBufSizeMultiple_loop MAX_DIGITS value 0 (fun _ => Byte.x00) with
  | None => None
  | Some (valueLength, valString) =>
    let last := valString (valueLength - 1) in
    let multiple := 1 in
    let multiple :=
      if Byte.eqb last "b" || Byte.eqb last "B" then 1 else multiple in
    let multiple :=
      if Byte.eqb last "k" || Byte.eqb last "K" then 1024 else multiple in
    let multiple :=
      if Byte.eqb last "m" || Byte.eqb last "M" then 1024 * 1024 else multiple in
    Some multiple
  end.

(** ** The command line: [parseOptions] *)

Module Cli.

(** The [bool] fields of [struct optionsStruct], the file names and the
    buffer sizes [parseOptions] stores into the four other structures. *)
Inductive flag : Type :=
| mapOffsets | extractBytes | bkFilGiven | bkCdGiven | orgFilGiven
| outputFileGiven | orgFilBufSizeGiven | bkCdBufSizeGiven | bkFilBufSizeGiven
| extrFilBufSizeGiven | allowDuplicates | writeToStdout | readFromStdin
| resetAtEndOfBuf.

Inductive name : Type := bkFilName | bkCdFilName | orgFilName | extrFilName.

Inductive size : Type := orgFilBufSize | bkFilBufSize | bkCdBufSize | extrFilBufSize.

Definition flag_eq_dec (a b : flag) : {a = b} + {a <> b}.
Proof. decide equality. Defined.

Definition name_eq_dec (a b : name) : {a = b} + {a <> b}.
Proof. decide equality. Defined.

Definition size_eq_dec (a b : size) : {a = b} + {a <> b}.
Proof. decide equality. Defined.

(** What [parseOptions] writes to.  [main] zeroes the flags and the
    verbosity ([optSt = {0}]) and leaves the names and the sizes as they
    come: [None] until they are stored. *)
Record state : Type := {
  optSt : flag -> bool;
  verbosityLevel : Z;
  names : name -> option (list byte);
  sizes : size -> option Z;
  errflg : Z
}.

Definition initial : state :=
  {| optSt := fun _ => false; verbosityLevel := 0;
     names := fun _ => None; sizes := fun _ => None; errflg := 0 |}.

(** [optSt->f = true] *)
Definition set_flag (f : flag) (st : state) : state :=
  {| optSt := fun g => if flag_eq_dec g f then true else optSt st g;
     verbosityLevel := verbosityLevel st; names := names st;
     sizes := sizes st; errflg := errflg st |}.

(** [#define NAME_MAX 255] of [<linux/limits.h>];
    [snprintf(n, NAME_MAX, "%s", optarg)] *)
Definition NAME_MAX : nat := 255.

Definition set_name (n : name) (optarg : list byte) (st : state) : state :=
  {| optSt := optSt st; verbosityLevel := verbosityLevel st;
     names := fun m => if name_eq_dec m n then Some (firstn (NAME_MAX - 1) optarg)
                       else names st m;
     sizes := sizes st; errflg := errflg st |}.

Definition set_size (z : size) (v : Z) (st : state) : state :=
  {| optSt := optSt st; verbosityLevel := verbosityLevel st; names := names st;
     sizes := fun y => if size_eq_dec y z then Some v else sizes st y;
     errflg := errflg st |}.

Definition set_verbosityLevel (v : Z) (st : state) : state :=
  {| optSt := optSt st; verbosityLevel := v; names := names st;
     sizes := sizes st; errflg := errflg st |}.

Definition set_errflg (e : Z) (st : state) : state :=
  {| optSt := optSt st; verbosityLevel := verbosityLevel st; names := names st;
     sizes := sizes st; errflg := e |}.

(** What [getopt_long] handed back, one call after the other: the option
    found, with [optarg] for an option that takes an argument, and for [-s]
    what the calls of [getsubopt] on that argument give in turn, the index
    of the token matched ([-1] for none) and the memory at [value] ([None]
    for [NULL]).  [opt_unknown] is ['?'] and [opt_colon] is [':'], which
    [getopt_long] does not return for this option string. *)
Inductive getopt_result : Type :=
| opt_m | opt_e
| opt_b (optarg : list byte) | opt_c (optarg : list byte)
| opt_o (optarg : list byte) | opt_f (optarg : list byte)
| opt_s (optarg : list byte) (subopts : list (Z * option (list byte)))
| opt_v (optarg : list byte)
| opt_h | opt_d | opt_p | opt_r | opt_colon | opt_unknown.

(** [optarg[0] == '-' && strlen(optarg) == 2] *)
Definition looks_like_option (optarg : list byte) : bool :=
  match optarg with
  | [c0; _] => Byte.eqb c0 "-"
  | _ => false
  end.

(** How a call of [parseOptions] ends: it returns, leaving what it stored;
    or the process exits, with [EXIT_SUCCESS] after [-h]; or
    [getBufSizeMultiple] has read past the memory the results describe. *)
Inductive result : Type :=
| Parsed (st : state)
| Exit (status : Z)
| ReadPastValue.

Definition EXIT_SUCCESS : Z := 0.
Definition EXIT_FAILURE : Z := 1.

Section ParseOptions.

(** [atol] and [atoi] of the C library, on the string at their argument. *)
Variable atol : list byte -> Z.
Variable atoi : list byte -> Z.

(** The loop of lines 563-630 over the suboptions of one [-s]. *)
Fixpoint subopts_loop (subopts : list (Z * option (list byte))) (st : state)
  : option state :=
  match subopts with
  | [] => Some st
  | (index, value) :: rest =>
    if errflg st =? 0 then
      match index, value with
      | 0, Some v =>
        match getBufSizeMultiple v with
        | Some multiple =>
          subopts_loop rest
            (set_size orgFilBufSize (to_size (atol v * 1 * multiple))
                      (set_flag orgFilBufSizeGiven st))
        | None => None
        end
      | 1, Some v =>
        match getBufSizeMultiple v with
        | Some multiple =>
          subopts_loop rest
            (set_size bkFilBufSize (to_size (atol v * 1 * multiple))
                      (set_flag bkFilBufSizeGiven st))
        | None => None
        end
      | 2, Some v =>
        match getBufSizeMultiple v with
        | Some multiple =>
          subopts_loop rest
            (set_size bkCdBufSize (to_size (atol v * multiple) / sizeof_byteOffset)
                      (set_flag bkCdBufSizeGiven st))
        | None => None
        end
      | 3, Some v =>
        match getBufSizeMultiple v with
        | Some multiple =>
          subopts_loop rest
            (set_size extrFilBufSize (to_size (atol v * 1 * multiple))
                      (set_flag extrFilBufSizeGiven st))
        | None => None
        end
      | _, _ => subopts_loop rest (set_errflg 1 st)
      end
    else Some st
  end.

(** One turn of the [while (1)] loop of lines 461-668 on what [getopt_long]
    returned: the state to go on with, or the way the call ends. *)
Definition handle (r : getopt_result) (st : state) : state + result :=
  let missing := inl (set_errflg (errflg st + 1) st) in
  match r with
  | opt_m => inl (set_flag mapOffsets st)
  | opt_e => inl (set_flag extractBytes st)
  | opt_b optarg =>
    if looks_like_option optarg then missing
    else inl (set_name bkFilName optarg (set_flag bkFilGiven st))
  | opt_c optarg =>
    if looks_like_option optarg then missing
    else inl (set_name bkCdFilName optarg (set_flag bkCdGiven st))
  | opt_o optarg =>
    if looks_like_option optarg then missing
    else inl (set_name orgFilName optarg (set_flag orgFilGiven st))
  | opt_f optarg =>
    if looks_like_option optarg then missing
    else if optSt st mapOffsets then
      inl (set_name bkCdFilName optarg (set_flag outputFileGiven st))
    else if optSt st extractBytes then
      inl (set_name extrFilName optarg (set_flag outputFileGiven st))
    else inl st
  | opt_s optarg subopts =>
    if looks_like_option optarg then missing
    else match subopts_loop subopts st with
         | Some st' => inl st'
         | None => inr ReadPastValue
         end
  | opt_v optarg =>
    if looks_like_option optarg then inl (set_verbosityLevel 1 st)
    else inl (set_verbosityLevel (atoi optarg) st)
  | opt_h => inr (Exit EXIT_SUCCESS)
  | opt_d => inl (set_flag allowDuplicates st)
  | opt_p =>
    if optSt st mapOffsets then
      inl (set_flag outputFileGiven (set_flag writeToStdout st))
    else if optSt st extractBytes then
      inl (set_flag bkCdGiven (set_flag readFromStdin st))
    else inl st
  | opt_r => inl (set_flag resetAtEndOfBuf st)
  | opt_colon => missing
  | opt_unknown => missing
  end.

Fixpoint options_loop (results : list getopt_result) (st : state) : state + result :=
  match results with
  | [] => inl st
  | r :: rest =>
    match handle r st with
    | inl st' => options_loop rest st'
    | inr stop => inr stop
    end
  end.

(** The six tests of lines 670-693, each [errflg++]. *)
Definition count (failed : bool) (st : state) : state :=
  if failed then set_errflg (errflg st + 1) st else st.

Definition checks (st : state) : state :=
  let st := count (optSt st mapOffsets && optSt st extractBytes) st in
  let st := count (negb (optSt st mapOffsets) && negb (optSt st extractBytes)) st in
  let st := count (optSt st mapOffsets && negb (optSt st orgFilGiven)) st in
  let st := count (optSt st extractBytes && negb (optSt st bkCdGiven)) st in
  let st := count (negb (optSt st bkFilGiven)) st in
  count (negb (optSt st outputFileGiven)) st.

(** [parseOptions], lines 445-700, on the results of [getopt_long] up to the
    [-1] that ends them. *)
Definition parseOptions (results : list getopt_result) : result :=
  match options_loop results initial with
  | inr stop => stop
  | inl st =>
    let st := checks st in
    if errflg st =? 0 then Parsed st else Exit EXIT_FAILURE
  end.

End ParseOptions.

End Cli.

(** The flags other than the four [...BufSizeGiven]. *)
Definition plain_flag (f : Cli.flag) : bool :=
  match f with
  | Cli.orgFilBufSizeGiven | Cli.bkCdBufSizeGiven | Cli.bkFilBufSizeGiven
  | Cli.extrFilBufSizeGiven => false
  | _ => true
  end.

(** The options [-m], [-e], [-d] and [-r] among the results. *)
Definition is_opt_m (r : Cli.getopt_result) : bool :=
  match r with Cli.opt_m => true | _ => false end.

Definition is_opt_e (r : Cli.getopt_result) : bool :=
  match r with Cli.opt_e => true | _ => false end.

Definition is_opt_d (r : Cli.getopt_result) : bool :=
  match r with Cli.opt_d => true | _ => false end.

Definition is_opt_r (r : Cli.getopt_result) : bool :=
  match r with Cli.opt_r => true | _ => false end.


(** The options of a session, out of what [parseOptions] left. *)
Definition options_of (st : Cli.state) : optionsStruct :=
  {| allowDuplicates := Cli.optSt st Cli.allowDuplicates;
     resetAtEndOfBuf := Cli.optSt st Cli.resetAtEndOfBuf;
     readFromStdin := Cli.optSt st Cli.readFromStdin;
     bkFilBufSizeGiven :=
       if Cli.optSt st Cli.bkFilBufSizeGiven then Cli.sizes st Cli.bkFilBufSize
       else None;
     orgFilBufSizeGiven :=
       if Cli.optSt st Cli.orgFilBufSizeGiven then Cli.sizes st Cli.orgFilBufSize
       else None;
     bkCdBufSizeGiven :=
       if Cli.optSt st Cli.bkCdBufSizeGiven then Cli.sizes st Cli.bkCdBufSize
       else None;
     extrFilBufSizeGiven :=
       if Cli.optSt st Cli.extrFilBufSizeGiven then Cli.sizes st Cli.extrFilBufSize
       else None |}.

(** ** Reading a run *)

(** The state a run stopped in, whatever the reason. *)
Definition outcome_state {S : Type} (r : outcome S) : S :=
  match r with Done s | Failed _ s | Timeout s => s end.

(** A run is stuck in a loop when no amount of fuel brings it out. *)
Definition diverges {S : Type} (run : nat -> outcome S) : Prop :=
  forall fuel, exists s, run fuel = Timeout s.

(** The offsets held by a book code: whole units of four bytes, a trailing
    partial unit left out. *)
Fixpoint offsets_of (code : list byte) : list Z :=
  match code with
  | b0 :: b1 :: b2 :: b3 :: rest => le_combine [b0; b1; b2; b3] :: offsets_of rest
  | _ => []
  end.

(** What the decoder stores for one offset: the byte read there, [EOF]
    cut down to a [byte_t] past the end of the book. *)
Definition extracted_byte (book : list byte) (offset : Z) : byte :=
  byte.of_Z (fgetc book offset).

(** The accepted (byte, offset) pairs of a run, latest first, and the entry
    the digest keeps of them. *)
Fixpoint last_offset (b : byte) (log : list (byte * Z)) : option Z :=
  match log with
  | [] => None
  | (b', o) :: log' => if Byte.eqb b b' then Some o else last_offset b log'
  end.

Fixpoint no_repeat (log : list (byte * Z)) : Prop :=
  match log with
  | [] => True
  | (b, o) :: log' => last_offset b log' <> Some o /\ no_repeat log'
  end.

(** ** Invariants of the encoder *)

Section Invariants.

Variable book : list byte.
Variable bkFilSize : Z.
Variable bkFilBufSize : Z.
Variable original : list byte.
Variable optSt : optionsStruct.

(** The sizes [main] hands to [mapOffsets] for a book below [2^32] bytes:
    a buffer that is not empty and a book file size cut down to a whole
    number of buffers, one at least. *)
Definition book_ok : Prop :=
  0 < bkFilBufSize
  /\ (exists k, bkFilSize = k * bkFilBufSize)
  /\ bkFilBufSize <= bkFilSize
  /\ bkFilSize <= Z.of_nat (length book)
  /\ Z.of_nat (length book) < 2 ^ 32.

(** The buffer holds the window of the book that starts at [bkFilPos], a
    whole window inside the part of the book in use, and the stream stands
    right after it; the cursor stays inside a buffer of two bytes or
    more. *)
Record window_ok (st : mapState) : Prop := {
  w_mult : exists k, bkFilPos st = k * bkFilBufSize;
  w_lo : 0 <= bkFilPos st;
  w_hi : bkFilPos st + bkFilBufSize <= bkFilSize;
  w_stream : bkFil st = bkFilPos st + bkFilBufSize;
  w_buffer : bkFilBuffer st = fread book (bkFilPos st) bkFilBufSize;
  w_cursor : 2 <= bkFilBufSize -> bkFilBufPos st < bkFilBufSize
}.

(** A log entry is sound: the offset lies in the part of the book in use
    and the book holds the byte there. *)
Definition entry_ok (p : byte * Z) : Prop :=
  0 <= snd p < bkFilSize /\ nth_error book (Z.to_nat (snd p)) = Some (fst p).

(** The state of the encoder inside a chunk of [currentChunk] bytes, with
    [log] the pairs accepted since the start of the session. *)
Record Inv (currentChunk : Z) (st : mapState) (log : list (byte * Z)) : Prop := {
  i_bkCd : bkCd st = flat_map offset_bytes (rev (map snd log));
  i_range : Forall (fun p => 0 <= snd p < 2 ^ 32) log;
  i_input : map fst (rev log)
            = firstn (Z.to_nat (orgFil st - currentChunk + orgFilBufPos st)) original;
  i_chunk : orgFilBuffer st = fread original (orgFil st - currentChunk) currentChunk;
  i_base : 0 <= orgFil st - currentChunk;
  i_end : orgFil st <= Z.of_nat (length original);
  i_cursor : 0 <= orgFilBufPos st <= currentChunk;
  i_bufpos : 0 <= bkFilBufPos st;
  i_digest : forall b,
      offsetDigest st b
      = match last_offset b log with Some o => to_i32 o | None => -1 end;
  i_norepeat : allowDuplicates optSt = false -> no_repeat log;
  i_book : book_ok -> window_ok st /\ Forall entry_ok log
}.

(** What a book code written so far says about the session, whatever state
    the encoder stopped in. *)
Record logged (code : list byte) (log : list (byte * Z)) : Prop := {
  l_code : code = flat_map offset_bytes (rev (map snd log));
  l_range : Forall (fun p => 0 <= snd p < 2 ^ 32) log;
  l_input : exists n, map fst (rev log) = firstn n original;
  l_norepeat : allowDuplicates optSt = false -> no_repeat log;
  l_book : book_ok -> Forall entry_ok log
}.

(** What holds when the loops over a chunk stop: the invariant in the state
  reached, the chunk used up when they return, and after a failure the
  book code of a state that had the invariant. *)
Definition chunk_post (cc : Z) (r : outcome mapState) : Prop :=
match r with
| Done st => exists log, Inv cc st log /\ orgFilBufPos st = cc
| Timeout st => exists log, Inv cc st log
| Failed _ st => exists st0 log, Inv cc st0 log /\ bkCd st = bkCd st0
end.

(** What holds of a whole session when it stops: the book code written is
  accounted for by a log, which covers the whole original file when the
  session returns. *)
Definition session_post (r : outcome mapState) : Prop :=
exists log,
  logged (bkCd (outcome_state r)) log
  /\ (forall st, r = Done st -> map fst (rev log) = original)
  /\ match r with
     | Failed _ _ => True
     | Done st | Timeout st => book_ok -> window_ok st
     end.

End Invariants.

(** The buffer sizes of an extraction are usable: the chunk of the book code
    is a whole number of offsets, one at least, no more of them than the
    buffer of the extracted file holds and its [uoffset_t] cursor counts, and
    the two buffers fit in memory. *)
Definition extract_sizes_ok (ram : Z) (optSt : optionsStruct) (book : list byte) : Prop :=
  let bkCdBufSize := extract_bkCdBufSize optSt book in
  let extrFilBufSize := extract_extrFilBufSize optSt in
  0 < bkCdBufSize
  /\ bkCdBufSize mod sizeof_byteOffset = 0
  /\ bkCdBufSize / sizeof_byteOffset <= extrFilBufSize
  /\ bkCdBufSize / sizeof_byteOffset < 2 ^ 32
  /\ bkCdBufSize + extrFilBufSize <= ram.

(** ** The original file byte by byte *)

Section MapBytes.

Variable book : list byte.
Variable bkFilSize : Z.
Variable bkFilBufSize : Z.
Variable optSt : optionsStruct.

(** The loops of [mapChunk] handed the bytes to map as a list instead of
    the buffer of a chunk: each turn runs the same [forBody], on a buffer
    that holds the byte being mapped alone, and the list moves on when the
    cursor of that buffer has moved.  The chunks of the original file are
    gone, everything else is as in [mapChunk]; the lemmas on it say that
    [mapChunks] does to the book, the digest and the book code what
    [mapBytes] does on the bytes of the original file. *)
Fixpoint mapBytes (fuel : nat) (bs : list byte) (st : mapState)
  : outcome mapState :=
  match fuel with
  | O => Timeout st
  | S fuel' =>
    match bs with
    | [] => Done st
    | b :: rest =>
      if bkFilPos st <? bkFilSize then
        if bkFilBufPos st <? bkFilBufSize then
          match forBody book bkFilSize bkFilBufSize optSt (set_orgFil 0 [b] st) with
          | inl st' =>
            if orgFilBufPos st' =? 0 then mapBytes fuel' bs st'
            else mapBytes fuel' rest st'
          | inr (e, st') => Failed e st'
          end
        else mapBytes fuel' bs st
      else mapBytes fuel' bs st
    end
  end.

(** The run over the bytes, standing on the byte [b] in the state [t],
    comes to stand on it in the state [t'], or comes to the state [t'] with
    [b] mapped, whatever follows [b]. *)
Definition reaches (b : byte) (t t' : mapState) : Prop :=
  exists k, forall g rest, mapBytes (k + g) (b :: rest) t = mapBytes g (b :: rest) t'.

Definition maps (b : byte) (t t' : mapState) : Prop :=
  exists k, forall g rest, mapBytes (k + g) (b :: rest) t = mapBytes g rest t'.

End MapBytes.

(** Two states that differ in nothing but the original file, its buffer and
    the cursor in it. *)
Record same_book (s t : mapState) : Prop := {
  sb_bkFil : bkFil s = bkFil t;
  sb_bkFilBuffer : bkFilBuffer s = bkFilBuffer t;
  sb_bkFilPos : bkFilPos s = bkFilPos t;
  sb_bkFilBufPos : bkFilBufPos s = bkFilBufPos t;
  sb_offsetDigest : offsetDigest s = offsetDigest t;
  sb_repeatsFound : repeatsFound s = repeatsFound t;
  sb_bkCd : bkCd s = bkCd t
}.

(** Two runs that stopped the same way, in states that differ in nothing
    but the original file. *)
Definition same_outcome (r r' : outcome mapState) : Prop :=
  match r, r' with
  | Done s, Done t => same_book s t
  | Failed e s, Failed e' t => e = e' /\ same_book s t
  | Timeout s, Timeout t => same_book s t
  | _, _ => False
  end.

(** The state [mapOffsets] enters its loops in: the first window of the
    book in the buffer (line 217). *)
Definition primed (optSt : optionsStruct) (book : list byte) : mapState :=
  set_bkFil (0 + map_bkFilBufSize optSt book)
            (fread book 0 (map_bkFilBufSize optSt book)) initialMapState.

(** ** Where the scan of the book can stop *)

Section Cursor.

Variable book : list byte.
Variable bkFilSize : Z.
Variable bkFilBufSize : Z.
Variable optSt : optionsStruct.

(** The offsets the cursor of the book can stand on when a byte is
    compared: inside the part of the book in use; not the first byte of a
    window past the first one, since the increment of the [for] loop runs
    after every [bkFilBufPos = 0]; and inside the first window when every
    reload goes back to the start of the book. *)
Definition scannable (o : Z) : Prop :=
  0 <= o < bkFilSize
  /\ (o < bkFilBufSize
      \/ (o mod bkFilBufSize <> 0 /\ resetAtEndOfBuf optSt = false)).

(** The bytes [bs] can be read off the book in order: [ps] gives for each
    of them an offset the scan can stop at where the book holds it, none
    before [from] and none before the one of the byte that precedes. *)
Fixpoint found_in_order (from : Z) (bs : list byte) (ps : list Z) : Prop :=
  match bs, ps with
  | [], [] => True
  | b :: bs', p :: ps' =>
    from <= p /\ scannable p /\ nth_error book (Z.to_nat p) = Some b
    /\ found_in_order p bs' ps'
  | _, _ => False
  end.

(** The same with offsets that go up from each byte to the next. *)
Fixpoint found_in_strict_order (from : Z) (bs : list byte) (ps : list Z) : Prop :=
  match bs, ps with
  | [], [] => True
  | b :: bs', p :: ps' =>
    from <= p /\ scannable p /\ nth_error book (Z.to_nat p) = Some b
    /\ found_in_strict_order (p + 1) bs' ps'
  | _, _ => False
  end.

(** Every entry of the digest that is set holds an offset the scan can stop
    at, below [bound]. *)
Definition digest_below (bound : Z) (st : mapState) : Prop :=
  forall x, offsetDigest st x = -1
            \/ (scannable (to_u32 (offsetDigest st x))
                /\ to_u32 (offsetDigest st x) < bound).

(** The cursor of the book between two turns of the innermost loop, and the
    offsets written so far. *)
Record cursor_ok (st : mapState) : Prop := {
  c_window : window_ok book bkFilSize bkFilBufSize st;
  c_lo : 0 <= bkFilBufPos st;
  c_head : bkFilPos st = 0 \/ 1 <= bkFilBufPos st;
  c_reset : resetAtEndOfBuf optSt = true -> bkFilPos st = 0;
  c_code : exists os, bkCd st = flat_map offset_bytes os /\ Forall scannable os
}.

(** What a run keeps of the cursor, whatever way it stops. *)
Definition cursor_post (r : outcome mapState) : Prop :=
  match r with
  | Done st | Timeout st => cursor_ok st
  | Failed _ st => exists st0, cursor_ok st0 /\ bkCd st = bkCd st0
  end.

End Cursor.

(** ** Sample sessions *)

(** [struct optionsStruct optSt = {0}]: nothing set on the command line. *)
Definition defaultOptions : optionsStruct :=
  {| allowDuplicates := false; resetAtEndOfBuf := false; readFromStdin := false;
     bkFilBufSizeGiven := None; orgFilBufSizeGiven := None;
     bkCdBufSizeGiven := None; extrFilBufSizeGiven := None |}.

(** [-s book_file_buffer=n] *)
Definition withBookBuffer (n : Z) (optSt : optionsStruct) : optionsStruct :=
  {| allowDuplicates := allowDuplicates optSt;
     resetAtEndOfBuf := resetAtEndOfBuf optSt;
     readFromStdin := readFromStdin optSt;
     bkFilBufSizeGiven := Some n;
     orgFilBufSizeGiven := orgFilBufSizeGiven optSt;
     bkCdBufSizeGiven := bkCdBufSizeGiven optSt;
     extrFilBufSizeGiven := extrFilBufSizeGiven optSt |}.

(** [-e -p -s book_code_buffer=n]: the book code piped in, [bkCdBufSize]
    left at [n / 4] by [parseOptions]. *)
Definition withPipedBookCode (bkCdBufSize : Z) (optSt : optionsStruct)
  : optionsStruct :=
  {| allowDuplicates := allowDuplicates optSt;
     resetAtEndOfBuf := resetAtEndOfBuf optSt;
     readFromStdin := true;
     bkFilBufSizeGiven := bkFilBufSizeGiven optSt;
     orgFilBufSizeGiven := orgFilBufSizeGiven optSt;
     bkCdBufSizeGiven := Some bkCdBufSize;
     extrFilBufSizeGiven := extrFilBufSizeGiven optSt |}.

(** [-d], [-r], [-s original_file_buffer=n], [-s extracted_file_buffer=n]
    and [-s book_code_buffer=4n] with the book code in a file. *)
Definition withDuplicates (optSt : optionsStruct) : optionsStruct :=
  {| allowDuplicates := true;
     resetAtEndOfBuf := resetAtEndOfBuf optSt;
     readFromStdin := readFromStdin optSt;
     bkFilBufSizeGiven := bkFilBufSizeGiven optSt;
     orgFilBufSizeGiven := orgFilBufSizeGiven optSt;
     bkCdBufSizeGiven := bkCdBufSizeGiven optSt;
     extrFilBufSizeGiven := extrFilBufSizeGiven optSt |}.

Definition withReset (optSt : optionsStruct) : optionsStruct :=
  {| allowDuplicates := allowDuplicates optSt;
     resetAtEndOfBuf := true;
     readFromStdin := readFromStdin optSt;
     bkFilBufSizeGiven := bkFilBufSizeGiven optSt;
     orgFilBufSizeGiven := orgFilBufSizeGiven optSt;
     bkCdBufSizeGiven := bkCdBufSizeGiven optSt;
     extrFilBufSizeGiven := extrFilBufSizeGiven optSt |}.

Definition withOriginalBuffer (n : Z) (optSt : optionsStruct) : optionsStruct :=
  {| allowDuplicates := allowDuplicates optSt;
     resetAtEndOfBuf := resetAtEndOfBuf optSt;
     readFromStdin := readFromStdin optSt;
     bkFilBufSizeGiven := bkFilBufSizeGiven optSt;
     orgFilBufSizeGiven := Some n;
     bkCdBufSizeGiven := bkCdBufSizeGiven optSt;
     extrFilBufSizeGiven := extrFilBufSizeGiven optSt |}.

Definition withExtractedBuffer (n : Z) (optSt : optionsStruct) : optionsStruct :=
  {| allowDuplicates := allowDuplicates optSt;
     resetAtEndOfBuf := resetAtEndOfBuf optSt;
     readFromStdin := readFromStdin optSt;
     bkFilBufSizeGiven := bkFilBufSizeGiven optSt;
     orgFilBufSizeGiven := orgFilBufSizeGiven optSt;
     bkCdBufSizeGiven := bkCdBufSizeGiven optSt;
     extrFilBufSizeGiven := Some n |}.

Definition withBookCodeBuffer (n : Z) (optSt : optionsStruct) : optionsStruct :=
  {| allowDuplicates := allowDuplicates optSt;
     resetAtEndOfBuf := resetAtEndOfBuf optSt;
     readFromStdin := readFromStdin optSt;
     bkFilBufSizeGiven := bkFilBufSizeGiven optSt;
     orgFilBufSizeGiven := orgFilBufSizeGiven optSt;
     bkCdBufSizeGiven := Some n;
     extrFilBufSizeGiven := extrFilBufSizeGiven optSt |}.

(** One gigabyte of free memory, more than any sample session asks for. *)
Definition sample_ram : Z := 2 ^ 30.

Definition bytes (s : string) : list byte := list_byte_of_string s.

(** Closed facts about sample sessions are settled by running them. *)
Ltac by_running := vm_compute; first [reflexivity | congruence].

(** A conjunction is split into its parts, the records among them left
    whole. *)
Ltac split_conj := repeat match goal with |- _ /\ _ => split end.

Arguments to_u32 : simpl never.
Arguments to_i32 : simpl never.
Arguments to_size : simpl never.
Arguments fread : simpl never.
Arguments freadWErrCheck : simpl never.
Arguments offset_bytes : simpl never.

(** * Integer conversions and streams *)

Lemma to_u32_range z : 0 <= to_u32 z < 2 ^ 32.
Proof. unfold to_u32. apply Z.mod_pos_bound. lia. Qed.

Lemma to_u32_small z : 0 <= z < 2 ^ 32 -> to_u32 z = z.
Proof. intros H. unfold to_u32. now apply Z.mod_small. Qed.

Lemma to_size_small z : 0 <= z < 2 ^ 64 -> to_size z = z.
Proof. intros H. unfold to_size. now apply Z.mod_small. Qed.

Lemma to_u32_to_i32 o : 0 <= o < 2 ^ 32 -> to_u32 (to_i32 o) = o.
Proof.
  intros H. unfold to_i32. rewrite (Z.mod_small o) by lia.
  destruct (o <? 2 ^ 31) eqn:E.
  - now apply to_u32_small.
  - unfold to_u32.
    replace (o - 2 ^ 32) with (o + (-1) * 2 ^ 32) by lia.
    rewrite Z.mod_add by lia. now apply Z.mod_small.
Qed.

Lemma byte_eqb_refl (b : byte) : Byte.eqb b b = true.
Proof. now apply Byte.byte_dec_lb. Qed.

Lemma byte_eqb_true (b b' : byte) : Byte.eqb b b' = true -> b = b'.
Proof. apply Byte.byte_dec_bl. Qed.

Lemma byte_eqb_neq (b b' : byte) : b <> b' -> Byte.eqb b b' = false.
Proof.
  intros H. destruct (Byte.eqb b b') eqn:E; [|reflexivity].
  now apply byte_eqb_true in E.
Qed.

Lemma fread_length file pos n :
  0 <= pos -> 0 <= n -> pos + n <= Z.of_nat (length file) ->
  Z.of_nat (length (fread file pos n)) = n.
Proof.
  intros Hp Hn Hl. unfold fread.
  rewrite length_firstn, length_skipn. lia.
Qed.

Lemma fread_length_le file pos n :
  0 <= n -> Z.of_nat (length (fread file pos n)) <= n.
Proof. intros Hn. unfold fread. rewrite length_firstn. lia. Qed.

Lemma freadWErrCheck_full file pos n :
  0 <= pos -> 0 <= n -> pos + n <= Z.of_nat (length file) ->
  freadWErrCheck file pos n = Some (fread file pos n).
Proof.
  intros Hp Hn Hl. unfold freadWErrCheck.
  rewrite fread_length by assumption. now rewrite Z.eqb_refl.
Qed.

Lemma freadWErrCheck_Some file pos n buf :
  freadWErrCheck file pos n = Some buf ->
  buf = fread file pos n /\ Z.of_nat (length buf) = n.
Proof.
  unfold freadWErrCheck. destruct (_ =? n) eqn:E; [|discriminate].
  intros [= <-]. split; [reflexivity|]. now apply Z.eqb_eq.
Qed.

Lemma fread_nth file pos n i d :
  0 <= pos -> 0 <= i < n -> pos + n <= Z.of_nat (length file) ->
  nth_error file (Z.to_nat (pos + i)) = Some (nth (Z.to_nat i) (fread file pos n) d).
Proof.
  intros Hp Hi Hl. unfold fread.
  rewrite <- (firstn_skipn (Z.to_nat pos) file) at 1.
  rewrite nth_error_app2 by (rewrite length_firstn; lia).
  rewrite length_firstn.
  replace (Z.to_nat (pos + i) - Nat.min (Z.to_nat pos) (length file))%nat
    with (Z.to_nat i) by lia.
  set (rest := skipn (Z.to_nat pos) file).
  assert (Hr : (Z.to_nat n <= length rest)%nat)
    by (unfold rest; rewrite length_skipn; lia).
  rewrite <- (firstn_skipn (Z.to_nat n) rest) at 1.
  rewrite nth_error_app1 by (rewrite length_firstn; lia).
  apply nth_error_nth'. rewrite length_firstn. lia.
Qed.

Lemma firstn_succ_nth {A} (l : list A) n x :
  nth_error l n = Some x -> firstn (S n) l = firstn n l ++ [x].
Proof.
  revert n. induction l as [|a l IH]; intros [|n] H; simpl in *; try discriminate.
  - now inversion H.
  - f_equal. now apply IH.
Qed.

(** * Offsets in the book code *)

Lemma offset_bytes_length o : length (offset_bytes o) = 4%nat.
Proof. unfold offset_bytes. apply length_le_split. Qed.

Lemma offset_bytes_shape o :
  exists b0 b1 b2 b3, offset_bytes o = [b0; b1; b2; b3].
Proof.
  unfold offset_bytes. cbn [le_split]. now repeat eexists.
Qed.

Lemma le_combine_offset_bytes o :
  0 <= o < 2 ^ 32 -> le_combine (offset_bytes o) = o.
Proof.
  intros H. unfold offset_bytes. rewrite le_combine_split.
  apply Z.mod_small. simpl. lia.
Qed.

Lemma offsets_of_cons o rest :
  0 <= o < 2 ^ 32 -> offsets_of (offset_bytes o ++ rest) = o :: offsets_of rest.
Proof.
  intros H. pose proof (le_combine_offset_bytes o H) as Hc.
  destruct (offset_bytes_shape o) as (b0 & b1 & b2 & b3 & E).
  rewrite E in *. cbn [app offsets_of]. now rewrite Hc.
Qed.

Lemma offsets_of_flat_map os :
  Forall (fun o => 0 <= o < 2 ^ 32) os ->
  offsets_of (flat_map offset_bytes os) = os.
Proof.
  induction 1 as [|o os Ho _ IH]; [reflexivity|].
  cbn [flat_map]. rewrite offsets_of_cons by assumption. now rewrite IH.
Qed.

Lemma flat_map_offset_bytes_length os :
  length (flat_map offset_bytes os) = (4 * length os)%nat.
Proof.
  induction os as [|o os IH]; [reflexivity|].
  cbn [flat_map length]. rewrite length_app, offset_bytes_length, IH. lia.
Qed.

(** * The encoder keeps its invariants *)

Lemma last_offset_range b log o :
  Forall (fun p => 0 <= snd p < 2 ^ 32) log ->
  last_offset b log = Some o -> 0 <= o < 2 ^ 32.
Proof.
  induction 1 as [|[b' o'] log Hp _ IH]; cbn [last_offset]; [discriminate|].
  destruct (Byte.eqb b b'); [intros [= <-]; exact Hp | exact IH].
Qed.

Section Preservation.

Variable book : list byte.
Variable bkFilSize : Z.
Variable bkFilBufSize : Z.
Variable original : list byte.
Variable optSt : optionsStruct.

Local Abbreviation Inv := (Inv book bkFilSize bkFilBufSize original optSt).
Local Abbreviation book_ok := (book_ok book bkFilSize bkFilBufSize).
Local Abbreviation window_ok := (window_ok book bkFilSize bkFilBufSize).
Local Abbreviation entry_ok := (entry_ok book bkFilSize).
Local Abbreviation logged := (logged book bkFilSize bkFilBufSize original optSt).
Local Abbreviation session_post := (session_post book bkFilSize bkFilBufSize original optSt).
Local Abbreviation mapChunks := (mapChunks book bkFilSize bkFilBufSize original optSt).
Local Abbreviation mapOffsets := (mapOffsets book bkFilSize bkFilBufSize original optSt).
Local Abbreviation chunk_post := (chunk_post book bkFilSize bkFilBufSize original optSt).
Local Abbreviation refillBuffer := (refillBuffer book bkFilSize bkFilBufSize optSt).
Local Abbreviation forBody := (forBody book bkFilSize bkFilBufSize optSt).
Local Abbreviation mapChunk := (mapChunk book bkFilSize bkFilBufSize optSt).

  (** Moving the cursor of the book buffer touches nothing the log speaks of. *)
Lemma Inv_set_bkFilBufPos cc st log p :
  0 <= p -> (book_ok -> 2 <= bkFilBufSize -> p < bkFilBufSize) ->
  Inv cc st log -> Inv cc (set_bkFilBufPos p st) log.
Proof.
  intros Hp Hin [? ? ? ? ? ? ? ? ? ? Hb]. constructor; cbn; try assumption.
  intros B. destruct (Hb B) as [[? ? ? ? ? ?] ?].
  split; [constructor; cbn; auto|]; assumption.
Qed.

Lemma Inv_set_repeatsFound cc st log r :
  Inv cc st log -> Inv cc (set_repeatsFound r st) log.
Proof.
  intros [? ? ? ? ? ? ? ? ? ? Hb]. constructor; cbn; try assumption.
  intros B. destruct (Hb B) as [[? ? ? ? ? ?] ?]. split; [constructor|]; assumption.
Qed.

Lemma Inv_next_bkFilBufPos cc st log :
  Inv cc st log ->
  (book_ok -> 2 <= bkFilBufSize -> bkFilBufPos st + 1 < bkFilBufSize) ->
  Inv cc (next_bkFilBufPos st) log.
Proof.
  intros H Hin. apply Inv_set_bkFilBufPos; [apply to_u32_range| |assumption].
  intros B H2. pose proof (i_bufpos _ _ _ _ _ _ _ _ H).
  specialize (Hin B H2). destruct B as (_ & _ & ? & ? & ?).
  rewrite to_u32_small; lia.
Qed.

Lemma book_ok_bounds :
  book_ok -> 0 < bkFilBufSize < 2 ^ 32 /\ 0 < bkFilSize < 2 ^ 32.
Proof. intros (? & _ & ? & ? & ?). lia. Qed.

(** A reload that succeeds leaves a whole window in the buffer; one that
    fails has written nothing. *)
Lemma refillBuffer_inv cc st log b :
  Inv cc st log ->
  match refillBuffer b st with
  | inl st' => Inv cc st' log /\ bkFilBufPos st' = 0
  | inr (_, st') => bkCd st' = bkCd st
  end.
Proof.
  intros [? ? ? ? ? ? ? ? ? ? Hb]. unfold refillBuffer.
  cbn [bkFilPos set_bkFilBufPos set_bkFilPos offsetDigest bkFil].
  destruct (_ || _) eqn:Ewrap.
  - destruct (_ =? -1); [reflexivity|].
    destruct (freadWErrCheck book 0 bkFilBufSize) as [buf|] eqn:Er; [|reflexivity].
    split; [|reflexivity].
    constructor; cbn; try assumption; try lia.
    intros B. destruct (Hb B) as [[[k Hk] ? ? ? ?] ?].
    destruct B as (HW & [k' Hk'] & Hone & Hfit & H32).
    apply freadWErrCheck_Some in Er as [-> _].
    split; [constructor; cbn|]; try assumption; try lia; try reflexivity.
    exists 0. lia.
  - destruct (freadWErrCheck book (bkFil st) bkFilBufSize) as [buf|] eqn:Er;
      [|reflexivity].
    split; [|reflexivity].
    constructor; cbn; try assumption; try lia.
    intros B. destruct (Hb B) as [[[k Hk] ? ? Hs ?] ?].
    destruct B as (HW & [k' Hk'] & Hone & Hfit & H32).
    apply freadWErrCheck_Some in Er as [-> _].
    apply orb_false_iff in Ewrap as [Ewrap _].
    apply Z.leb_gt in Ewrap.
    rewrite to_size_small in Ewrap by lia.
    rewrite to_u32_small in * by lia.
    assert (k + 2 <= k') by nia.
    split; [constructor; cbn|]; try assumption; try lia; try nia.
    + exists (k + 1). lia.
    + now rewrite Hs.
Qed.

(** An acceptance extends the log with the byte being mapped and the offset
    written. *)
Lemma accept_inv cc st log :
  Inv cc st log -> cc < 2 ^ 32 ->
  orgFilBufPos st < cc -> bkFilBufPos st < bkFilBufSize ->
  let orgFilByte := nth (Z.to_nat (orgFilBufPos st)) (orgFilBuffer st) Byte.x00 in
  let bkFilByte := nth (Z.to_nat (bkFilBufPos st)) (bkFilBuffer st) Byte.x00 in
  let byteOffset := to_u32 (bkFilBufPos st + bkFilPos st) in
  orgFilByte = bkFilByte ->
  negb (allowDuplicates optSt)
  && (to_u32 (offsetDigest st bkFilByte) =? byteOffset) = false ->
  Inv cc (accept bkFilByte byteOffset st) ((orgFilByte, byteOffset) :: log).
Proof.
  intros [Hcd Hrg Hin Hch Hba Hen Hcu Hbp Hdg Hnr Hb] Hcc Hpos Hbuf.
  intros orgFilByte bkFilByte byteOffset Heq Hacc.
  assert (Hnext : to_u32 (orgFilBufPos st + 1) = orgFilBufPos st + 1)
    by (apply to_u32_small; lia).
  assert (Hbyte : nth_error original
                    (Z.to_nat (orgFil st - cc + orgFilBufPos st)) = Some orgFilByte).
  { unfold orgFilByte. rewrite Hch. apply fread_nth; lia. }
  constructor; cbn [accept bkCd orgFil orgFilBufPos orgFilBuffer bkFilBufPos
                    offsetDigest map rev snd fst]; try assumption.
  - rewrite Hcd, flat_map_app. cbn [flat_map]. now rewrite app_nil_r.
  - constructor; [apply to_u32_range | assumption].
  - rewrite map_app, Hin, Hnext. cbn [map fst].
    replace (Z.to_nat (orgFil st - cc + (orgFilBufPos st + 1)))
      with (S (Z.to_nat (orgFil st - cc + orgFilBufPos st))) by lia.
    symmetry. now apply firstn_succ_nth.
  - rewrite Hnext. lia.
  - intros b'. unfold digest_store. cbn [last_offset].
    rewrite <- Heq. destruct (Byte.eqb b' orgFilByte); [reflexivity | apply Hdg].
  - intros Hdup. cbn [no_repeat]. split; [|now apply Hnr].
    rewrite Hdup in Hacc. cbn [negb andb] in Hacc. apply Z.eqb_neq in Hacc.
    intros Hlast. apply Hacc. rewrite <- Heq, Hdg, Hlast.
    apply to_u32_to_i32, to_u32_range.
  - intros B. destruct (Hb B) as [Hw Hlog]. split.
    + destruct Hw. constructor; assumption.
    + constructor; [|assumption].
      destruct Hw as [_ Hlo Hhi _ Hwb].
      destruct B as (HW & _ & _ & Hfit & H32).
      unfold entry_ok, byteOffset. cbn [fst snd].
      rewrite to_u32_small by lia. split; [lia|].
      rewrite Heq. unfold bkFilByte. rewrite Hwb, Z.add_comm.
      apply fread_nth; lia.
Qed.

(** One turn of the innermost loop keeps the invariant, the log growing by
    at most the pair accepted; a failing turn writes nothing. *)
Lemma forBody_inv cc st log :
  Inv cc st log -> cc < 2 ^ 32 ->
  orgFilBufPos st < cc -> bkFilBufPos st < bkFilBufSize ->
  match forBody st with
  | inl st' => exists log', Inv cc st' log'
  | inr (_, st') => bkCd st' = bkCd st
  end.
Proof.
  intros HI Hcc Hpos Hbuf. unfold forBody.
  assert (Hreload :
            match refillBuffer
                    (nth (Z.to_nat (orgFilBufPos st)) (orgFilBuffer st) Byte.x00) st with
            | inl st' => exists log', Inv cc (next_bkFilBufPos st') log'
            | inr (_, st') => bkCd st' = bkCd st
            end).
  { pose proof (refillBuffer_inv cc st log
                  (nth (Z.to_nat (orgFilBufPos st)) (orgFilBuffer st) Byte.x00) HI) as Hr.
    destruct (refillBuffer _ st) as [st'|[e st']]; [|exact Hr].
    exists log. apply Inv_next_bkFilBufPos; [apply Hr|].
    intros _ H2. destruct Hr as [_ ->]. lia. }
  destruct (Byte.eqb _ _) eqn:Eb.
  - apply byte_eqb_true in Eb.
    destruct (negb _ && _) eqn:Erep.
    + destruct (2 <=? repeatsFound st).
      * destruct (refillBuffer _ st) as [st'|[e st']]; exact Hreload.
      * exists log.
        destruct (bkFilBufPos st =? to_size (bkFilBufSize - 1)) eqn:Elast.
        -- apply Inv_next_bkFilBufPos.
           ++ apply Inv_set_repeatsFound, Inv_set_bkFilBufPos; [lia|lia|assumption].
           ++ cbn. lia.
        -- apply Inv_next_bkFilBufPos; [now apply Inv_set_repeatsFound|].
           cbn. intros B H2. apply Z.eqb_neq in Elast.
           rewrite to_size_small in Elast by (destruct (book_ok_bounds B); lia). lia.
    + eexists. apply (accept_inv cc st log); assumption.
  - destruct (bkFilBufPos st =? to_size (bkFilBufSize - 1)) eqn:Elast.
    + destruct (refillBuffer _ st) as [st'|[e st']]; exact Hreload.
    + exists log. apply Inv_next_bkFilBufPos; [assumption|].
      intros B H2. apply Z.eqb_neq in Elast.
      rewrite to_size_small in Elast by (destruct (book_ok_bounds B); lia). lia.
Qed.

Lemma mapChunk_post fuel cc : forall st log,
  Inv cc st log -> cc < 2 ^ 32 -> chunk_post cc (mapChunk fuel cc st).
Proof.
  induction fuel as [|fuel IH]; intros st log HI Hcc; cbn [mapChunk].
  - now exists log.
  - destruct (orgFilBufPos st <? cc) eqn:Epos.
    + apply Z.ltb_lt in Epos.
      destruct (bkFilPos st <? bkFilSize); [|now apply (IH st log)].
      destruct (bkFilBufPos st <? bkFilBufSize) eqn:Ebuf; [|now apply (IH st log)].
      apply Z.ltb_lt in Ebuf.
      pose proof (forBody_inv cc st log HI Hcc Epos Ebuf) as Hstep.
      destruct (forBody st) as [st'|[e st']].
      * destruct Hstep as [log' HI']. now apply (IH st' log').
      * now exists st, log.
    + apply Z.ltb_ge in Epos. exists log. split; [assumption|].
      pose proof (i_cursor _ _ _ _ _ _ _ _ HI). lia.
Qed.

(** The cursor of the original file buffer is a [uoffset_t]: a chunk of
    [2^32] bytes or more is never finished. *)
Lemma forBody_cursor st st' :
  forBody st = inl st' ->
  orgFil st' = orgFil st
  /\ (orgFilBufPos st' = orgFilBufPos st
      \/ orgFilBufPos st' = to_u32 (orgFilBufPos st + 1)).
Proof.
  unfold forBody, refillBuffer.
  repeat match goal with
         | |- context [if ?c then _ else _] => destruct c
         | |- context [match freadWErrCheck ?f ?p ?n with _ => _ end] =>
           destruct (freadWErrCheck f p n)
         end;
    intros [= <-]; cbn; auto.
Qed.

Lemma mapChunk_Done_cursor fuel cc : forall st st',
  mapChunk fuel cc st = Done st' ->
  orgFilBufPos st < 2 ^ 32 -> cc < 2 ^ 32.
Proof.
  induction fuel as [|fuel IH]; intros st st'; cbn [mapChunk]; [discriminate|].
  destruct (orgFilBufPos st <? cc) eqn:Epos.
  - destruct (bkFilPos st <? bkFilSize); [|apply IH].
    destruct (bkFilBufPos st <? bkFilBufSize); [|apply IH].
    destruct (forBody st) as [st1|[e st1]] eqn:Ef; [|discriminate].
    intros Hd Hlt. apply (IH _ _ Hd).
    destruct (forBody_cursor _ _ Ef) as [_ [-> | ->]]; [assumption|].
    apply to_u32_range.
  - apply Z.ltb_ge in Epos. intros _ Hlt. lia.
Qed.

Lemma mapChunk_orgFil fuel cc : forall st st',
  mapChunk fuel cc st = Done st' -> orgFil st' = orgFil st.
Proof.
  induction fuel as [|fuel IH]; intros st st'; cbn [mapChunk]; [discriminate|].
  destruct (orgFilBufPos st <? cc).
  - destruct (bkFilPos st <? bkFilSize); [|apply IH].
    destruct (bkFilBufPos st <? bkFilBufSize); [|apply IH].
    destruct (forBody st) as [st1|[e st1]] eqn:Ef; [|discriminate].
    intros Hd. rewrite (IH _ _ Hd). apply (forBody_cursor _ _ Ef).
  - now intros [= <-].
Qed.

Lemma Inv_logged cc st log : Inv cc st log -> logged (bkCd st) log.
Proof.
  intros [? ? Hin ? ? ? ? ? ? ? Hb]. constructor; try assumption.
  - eexists. exact Hin.
  - intros B. apply (Hb B).
Qed.

Lemma session_post_Timeout cc st log :
  Inv cc st log -> session_post (Timeout st).
Proof.
  intros HI. exists log. split; [now apply (Inv_logged cc)|].
  split; [discriminate|]. intros B. apply (i_book _ _ _ _ _ _ _ _ HI B).
Qed.

Lemma session_post_Failed cc st0 log e st :
  Inv cc st0 log -> bkCd st = bkCd st0 -> session_post (Failed e st).
Proof.
  intros HI Hcd. exists log. cbn [outcome_state]. rewrite Hcd.
  split; [now apply (Inv_logged cc)|]. split; [discriminate|exact I].
Qed.

Lemma session_post_Done cc st log :
  Inv cc st log -> orgFilBufPos st = cc ->
  orgFil st = Z.of_nat (length original) ->
  session_post (Done st).
Proof.
  intros HI Hpos Hall. exists log. split; [now apply (Inv_logged cc)|]. split.
  - intros _ _. rewrite (i_input _ _ _ _ _ _ _ _ HI). apply firstn_all2. lia.
  - intros B. apply (i_book _ _ _ _ _ _ _ _ HI B).
Qed.

(** Reading the next chunk re-bases the invariant on it. *)
Lemma Inv_next_chunk cc st log cc' buf :
  Inv cc st log -> orgFilBufPos st = cc ->
  freadWErrCheck original (orgFil st) cc' = Some buf ->
  orgFil st + cc' <= Z.of_nat (length original) ->
  Inv cc' (set_orgFil (orgFil st + cc') buf st) log.
Proof.
  intros [? ? Hin ? ? ? ? ? ? ? Hb] Hpos Hr Hfit.
  apply freadWErrCheck_Some in Hr as [-> Hlen].
  pose proof (fread_length_le original (orgFil st) cc') as Hle.
  assert (0 <= cc') by lia.
  constructor; cbn; try assumption; try lia.
  - rewrite Hin. f_equal. lia.
  - f_equal. lia.
  - intros B. destruct (Hb B) as [[? ? ? ? ? ?] ?]. split; [constructor|]; assumption.
Qed.

Lemma mapChunks_post fuel : forall bytesRemaining currentChunk st log cc,
  Inv cc st log -> orgFilBufPos st = cc ->
  bytesRemaining = Z.of_nat (length original) - orgFil st ->
  currentChunk < 2 ^ 32 ->
  session_post (mapChunks fuel bytesRemaining currentChunk st).
Proof.
  induction fuel as [|fuel IH]; intros R ccmax st log cc HI Hpos HR Hmax;
    cbn [mapChunks].
  - now apply (session_post_Timeout cc st log).
  - destruct (R =? 0) eqn:ER.
    + apply Z.eqb_eq in ER. apply (session_post_Done cc st log); try assumption. lia.
    + apply Z.eqb_neq in ER.
      set (cc' := if R <? ccmax then R else ccmax).
      assert (Hcc' : cc' <= R /\ cc' < 2 ^ 32)
        by (unfold cc'; destruct (R <? ccmax) eqn:E;
            [apply Z.ltb_lt in E | apply Z.ltb_ge in E]; lia).
      destruct (freadWErrCheck original (orgFil st) cc') as [buf|] eqn:Er.
      * assert (HI1 : Inv cc' (set_orgFil (orgFil st + cc') buf st) log)
          by (apply (Inv_next_chunk cc); try assumption; lia).
        pose proof (mapChunk_post fuel cc' _ _ HI1 (proj2 Hcc')) as Hpost.
        destruct (mapChunk fuel cc' _) as [st1|e st1|st1] eqn:Em.
        -- destruct Hpost as (log1 & HI1' & Hpos1).
           apply (IH _ _ _ log1 cc'); try assumption; try lia.
           rewrite (mapChunk_orgFil _ _ _ _ Em). cbn. lia.
        -- destruct Hpost as (st0 & log1 & HI0 & Hcd).
           now apply (session_post_Failed cc' st0 log1).
        -- destruct Hpost as (log1 & HI1').
           now apply (session_post_Timeout cc' st1 log1).
      * now apply (session_post_Failed cc st log).
Qed.

(** A session that returns went through chunks its cursor could count, so
    the bound on the chunk size comes for free. *)
Lemma mapChunks_Done_post fuel bytesRemaining currentChunk st log cc st' :
  Inv cc st log -> orgFilBufPos st = cc ->
  bytesRemaining = Z.of_nat (length original) - orgFil st ->
  mapChunks fuel bytesRemaining currentChunk st = Done st' ->
  session_post (mapChunks fuel bytesRemaining currentChunk st).
Proof.
  intros HI Hpos HR. destruct fuel as [|fuel]; cbn [mapChunks]; [discriminate|].
  destruct (bytesRemaining =? 0) eqn:ER.
  - intros _. apply Z.eqb_eq in ER.
    apply (session_post_Done cc st log); try assumption. lia.
  - apply Z.eqb_neq in ER.
    set (cc' := if bytesRemaining <? currentChunk then bytesRemaining else currentChunk).
    assert (Hcc' : cc' <= bytesRemaining)
      by (unfold cc'; destruct (bytesRemaining <? currentChunk) eqn:E;
          [apply Z.ltb_lt in E | apply Z.ltb_ge in E]; lia).
    destruct (freadWErrCheck original (orgFil st) cc') as [buf|] eqn:Er; [|discriminate].
    destruct (mapChunk fuel cc' _) as [st1|e st1|st1] eqn:Em; try discriminate.
    intros _.
    assert (Hlt : cc' < 2 ^ 32)
      by (apply (mapChunk_Done_cursor _ _ _ _ Em); cbn; lia).
    assert (HI1 : Inv cc' (set_orgFil (orgFil st + cc') buf st) log)
      by (apply (Inv_next_chunk cc); try assumption; lia).
    pose proof (mapChunk_post fuel cc' _ _ HI1 Hlt) as Hpost.
    rewrite Em in Hpost. destruct Hpost as (log1 & HI1' & Hpos1).
    apply (mapChunks_post fuel _ _ _ log1 cc'); try assumption; try lia.
    rewrite (mapChunk_orgFil _ _ _ _ Em). cbn. lia.
Qed.

End Preservation.

(** * The sizes [main] sets and the start of a session *)

Lemma map_bkFilBufSize_le optSt book :
  map_bkFilBufSize optSt book <= Z.of_nat (length book).
Proof.
  unfold map_bkFilBufSize.
  destruct (_ <? _) eqn:E; [apply Z.ltb_lt in E | apply Z.ltb_ge in E]; lia.
Qed.

Lemma map_orgFilBufSize_le optSt original :
  map_orgFilBufSize optSt original <= Z.of_nat (length original).
Proof.
  unfold map_orgFilBufSize.
  destruct (_ <? _) eqn:E; [apply Z.ltb_lt in E | apply Z.ltb_ge in E]; lia.
Qed.

Lemma map_bkFilSize_multiple optSt book :
  0 < map_bkFilBufSize optSt book ->
  map_bkFilSize optSt book
  = map_bkFilBufSize optSt book
    * (Z.of_nat (length book) / map_bkFilBufSize optSt book).
Proof.
  intros HW. unfold map_bkFilSize.
  pose proof (Z.div_mod (Z.of_nat (length book)) (map_bkFilBufSize optSt book)).
  lia.
Qed.

Lemma map_sizes_book_ok optSt book :
  0 < map_bkFilBufSize optSt book ->
  Z.of_nat (length book) < 2 ^ 32 ->
  book_ok book (map_bkFilSize optSt book) (map_bkFilBufSize optSt book).
Proof.
  intros HW H32. pose proof (map_bkFilBufSize_le optSt book) as Hle.
  pose proof (map_bkFilSize_multiple optSt book HW) as Hm.
  set (W := map_bkFilBufSize optSt book) in *.
  set (n := Z.of_nat (length book)) in *.
  assert (1 <= n / W) by (apply Z.div_le_lower_bound; lia).
  pose proof (Z.mul_div_le n W HW).
  repeat split; try lia.
  - exists (n / W). lia.
  - nia.
Qed.

Lemma Inv_start book bkFilSize bkFilBufSize original optSt buf :
  freadWErrCheck book 0 bkFilBufSize = Some buf ->
  Inv book bkFilSize bkFilBufSize original optSt 0
      (set_bkFil (0 + bkFilBufSize) buf initialMapState) [].
Proof.
  intros Hr. apply freadWErrCheck_Some in Hr as [-> _].
  constructor; cbn; try reflexivity; try lia; try (constructor; fail).
  intros (HW & _ & Hone & _). split; [|constructor].
  constructor; cbn; try reflexivity; try lia. exists 0. lia.
Qed.

(** Every way a session of [main] stops leaves a book code accounted for
    by a log, provided the chunk cursor can count the chunk, which a session
    that returns has shown. *)
Lemma runEncode_post ram optSt book original fuel :
  map_orgFilBufSize optSt original < 2 ^ 32
  \/ (exists st, runEncode ram optSt book original fuel = Done st) ->
  session_post book (map_bkFilSize optSt book) (map_bkFilBufSize optSt book)
               original optSt (runEncode ram optSt book original fuel).
Proof.
  assert (Hnone : forall e,
             session_post book (map_bkFilSize optSt book)
                          (map_bkFilBufSize optSt book) original optSt
                          (Failed e initialMapState)).
  { intros e. exists []. split; [|split; [discriminate|exact I]].
    constructor; cbn; try reflexivity; try (constructor; fail).
    now exists 0%nat. }
  unfold runEncode, mapOffsets. intros Hcase.
  destruct (ram <? _); [apply Hnone|].
  destruct (_ =? 0); [apply Hnone|].
  cbn [bkFil initialMapState] in *.
  destruct (freadWErrCheck book 0 _) as [buf|] eqn:Er; [|apply Hnone].
  pose proof (Inv_start book (map_bkFilSize optSt book) _ original optSt buf Er) as HI.
  destruct Hcase as [Hlt | [st Hd]].
  - eapply mapChunks_post; [exact HI | reflexivity | cbn; lia | assumption].
  - eapply mapChunks_Done_post; [exact HI | reflexivity | cbn; lia | exact Hd].
Qed.

Lemma runEncode_no_window ram optSt book original fuel :
  map_bkFilBufSize optSt book <= 0 ->
  bkCd (outcome_state (runEncode ram optSt book original fuel)) = [].
Proof.
  intros HW. unfold runEncode, mapOffsets.
  destruct (ram <? _); [reflexivity|].
  destruct (_ =? 0) eqn:E0; [reflexivity|]. apply Z.eqb_neq in E0.
  unfold freadWErrCheck.
  destruct (_ =? map_bkFilBufSize optSt book) eqn:E; [|reflexivity].
  apply Z.eqb_eq in E. lia.
Qed.

(** * Reading the log back from the book code *)

Lemma combine_fst_snd {A B} (l : list (A * B)) :
  combine (map fst l) (map snd l) = l.
Proof.
  induction l as [|[a b] l IH]; [reflexivity|]. cbn. now rewrite IH.
Qed.

Section Logs.

Variable book : list byte.
Variable bkFilSize : Z.
Variable bkFilBufSize : Z.
Variable original : list byte.
Variable optSt : optionsStruct.

Local Abbreviation logged := (logged book bkFilSize bkFilBufSize original optSt).

Lemma logged_offsets code log :
  logged code log -> offsets_of code = map snd (rev log).
Proof.
  intros [-> Hrg _ _ _]. rewrite map_rev. apply offsets_of_flat_map.
  apply Forall_rev. apply Forall_map. exact Hrg.
Qed.

Lemma logged_length code log :
  logged code log -> length code = (4 * length log)%nat.
Proof.
  intros [-> _ _ _ _].
  now rewrite flat_map_offset_bytes_length, length_rev, length_map.
Qed.

Lemma logged_combine code log :
  logged code log -> combine original (offsets_of code) = rev log.
Proof.
  intros H. rewrite (logged_offsets _ _ H).
  destruct H as [_ _ [n Hin] _ _].
  rewrite combine_firstn_r, length_map.
  replace (firstn (length (rev log)) original) with (map fst (rev log)).
  - apply combine_fst_snd.
  - rewrite Hin at 1. rewrite <- (length_map fst (rev log)), Hin.
    rewrite length_firstn.
    destruct (Nat.le_ge_cases n (length original)) as [Hle|Hge].
    + now rewrite Nat.min_l.
    + rewrite Nat.min_r by assumption.
      now rewrite !firstn_all2 by lia.
Qed.

Lemma logged_length_le code log :
  logged code log -> (length log <= length original)%nat.
Proof.
  intros [_ _ [n Hin] _ _].
  rewrite <- (length_rev log), <- (length_map fst), Hin, length_firstn. lia.
Qed.

End Logs.

Lemma last_offset_app b l r :
  ~ In b (map fst l) -> last_offset b (l ++ r) = last_offset b r.
Proof.
  induction l as [|[b' o] l IH]; intros Hn; [reflexivity|].
  cbn [app last_offset]. cbn in Hn.
  rewrite byte_eqb_neq by (intros ->; apply Hn; now left).
  apply IH. intros Hin. apply Hn. now right.
Qed.

Lemma no_repeat_app_r l r : no_repeat (l ++ r) -> no_repeat r.
Proof.
  induction l as [|[b o] l IH]; [trivial|]. cbn. intros [_ H]. now apply IH.
Qed.

(** Two entries of the log for one byte value with no entry for that value
    between them hold different offsets. *)
Lemma no_repeat_consecutive log l1 b o1 l2 o2 l3 :
  no_repeat log ->
  rev log = l1 ++ (b, o1) :: l2 ++ (b, o2) :: l3 ->
  ~ In b (map fst l2) ->
  o1 <> o2.
Proof.
  intros Hnr Hrev Hnot.
  assert (Hlog : log = rev l3 ++ (b, o2) :: rev l2 ++ (b, o1) :: rev l1).
  { rewrite <- (rev_involutive log), Hrev.
    rewrite rev_app_distr. cbn [rev]. rewrite rev_app_distr. cbn [rev].
    now rewrite <- !app_assoc. }
  rewrite Hlog in Hnr. apply no_repeat_app_r in Hnr. destruct Hnr as [Hne _].
  rewrite last_offset_app in Hne.
  - cbn [last_offset] in Hne. rewrite byte_eqb_refl in Hne. congruence.
  - rewrite map_rev. intros Hin. apply Hnot. now apply in_rev.
Qed.

(** * The decoder *)

Lemma offsets_of_app l1 l2 n :
  length l1 = (4 * n)%nat ->
  offsets_of (l1 ++ l2) = offsets_of l1 ++ offsets_of l2.
Proof.
  revert l1. induction n as [|n IH]; intros l1 Hl.
  - destruct l1; [reflexivity|discriminate].
  - destruct l1 as [|b0 [|b1 [|b2 [|b3 l1]]]]; try (cbn in Hl; lia).
    cbn [app offsets_of]. rewrite IH by (cbn in Hl; lia). reflexivity.
Qed.

Lemma offsets_of_length code :
  Z.of_nat (length (offsets_of code)) = Z.of_nat (length code) / 4.
Proof.
  remember (length code) as n eqn:Hn. revert code Hn.
  induction n as [n IH] using lt_wf_ind. intros code Hn.
  destruct code as [|b0 [|b1 [|b2 [|b3 rest]]]]; cbn in Hn; subst n;
    try reflexivity.
  cbn [offsets_of length].
  pose proof (IH (length rest) ltac:(lia) rest eq_refl) as Hrest.
  replace (Z.of_nat (S (S (S (S (length rest))))))
    with (Z.of_nat (length rest) + 1 * 4) by lia.
  rewrite Z.div_add by lia. lia.
Qed.

Lemma offsets_of_partial whole partial n :
  length whole = (4 * n)%nat -> (length partial < 4)%nat ->
  offsets_of (whole ++ partial) = offsets_of whole.
Proof.
  intros Hw Hp. rewrite (offsets_of_app _ _ n Hw).
  destruct partial as [|b0 [|b1 [|b2 [|b3 rest]]]]; cbn in Hp; try lia;
    cbn [offsets_of]; apply app_nil_r.
Qed.

(** The [i]-th [uoffset_t] of a chunk is the [i]-th offset it holds. *)
Lemma bkCdBuffer_at_nth chunk : forall i o,
  nth_error (offsets_of chunk) i = Some o ->
  bkCdBuffer_at chunk (Z.of_nat i) = o.
Proof.
  remember (length chunk) as n eqn:Hn. revert chunk Hn.
  induction n as [n IH] using lt_wf_ind. intros chunk Hn i o.
  destruct chunk as [|b0 [|b1 [|b2 [|b3 rest]]]];
    try (destruct i; discriminate).
  cbn [offsets_of]. destruct i as [|i]; cbn [nth_error].
  - intros [= <-]. reflexivity.
  - intros Hi. rewrite <- (IH (length rest)) with (chunk := rest) (i := i) (o := o);
      [|subst n; cbn; lia|reflexivity|assumption].
    unfold bkCdBuffer_at, sizeof_byteOffset.
    replace (Z.to_nat (4 * Z.of_nat (S i))) with (4 + Z.to_nat (4 * Z.of_nat i))%nat by lia.
    reflexivity.
Qed.

Lemma fgetc_in book o b :
  0 <= o -> nth_error book (Z.to_nat o) = Some b -> fgetc book o = byte.unsigned b.
Proof.
  intros Ho Hn. unfold fgetc.
  destruct (o <? 0) eqn:E; [apply Z.ltb_lt in E; lia|]. now rewrite Hn.
Qed.

Lemma fgetc_past book o :
  Z.of_nat (length book) <= o -> fgetc book o = EOF.
Proof.
  intros Ho. unfold fgetc. destruct (o <? 0); [reflexivity|].
  destruct (nth_error book (Z.to_nat o)) eqn:E; [|reflexivity].
  assert (nth_error book (Z.to_nat o) <> None) as Hn by congruence.
  apply nth_error_Some in Hn. lia.
Qed.

Lemma extracted_byte_in book o b :
  0 <= o -> nth_error book (Z.to_nat o) = Some b -> extracted_byte book o = b.
Proof.
  intros Ho Hn. unfold extracted_byte. rewrite (fgetc_in _ _ _ Ho Hn).
  apply byte.of_Z_unsigned.
Qed.

Lemma extracted_byte_past book o :
  Z.of_nat (length book) <= o -> extracted_byte book o = Byte.xff.
Proof.
  intros Ho. unfold extracted_byte. now rewrite fgetc_past.
Qed.

Section Extraction.

Variable book : list byte.
Variable bookCode : list byte.
Variable bkCdBufSize : Z.
Variable extrFilBufSize : Z.

Local Abbreviation chunk_loop := (extractChunk book extrFilBufSize).
Local Abbreviation code_loop := (extractLoop book bookCode bkCdBufSize extrFilBufSize).

(** The loop over a chunk fills the buffer from its cursor on with the byte
    of each offset, as long as the buffer has room for them and the cursor
    can count them. *)
Lemma extractChunk_fill chunk (units : nat) : forall todo fuel pos buf,
  Z.of_nat (length chunk) / sizeof_byteOffset = Z.of_nat units ->
  Z.of_nat units <= extrFilBufSize -> Z.of_nat units < 2 ^ 32 ->
  (pos + todo = units)%nat -> (todo < fuel)%nat ->
  exists buf',
    chunk_loop fuel chunk (Z.of_nat pos) buf = Done buf'
    /\ (forall j, (j < pos)%nat -> buf' (Z.of_nat j) = buf (Z.of_nat j))
    /\ (forall j, (pos <= j < units)%nat ->
                  buf' (Z.of_nat j)
                  = extracted_byte book (bkCdBuffer_at chunk (Z.of_nat j))).
Proof.
  induction todo as [|todo IH]; intros fuel pos buf Hu Hroom H32 Hpos Hfuel;
    (destruct fuel as [|fuel]; [lia|]); cbn [extractChunk]; rewrite Hu.
  - destruct (Z.of_nat pos <? Z.of_nat units) eqn:E; [apply Z.ltb_lt in E; lia|].
    exists buf. split; [reflexivity|]. split; [auto | intros; lia].
  - destruct (Z.of_nat pos <? Z.of_nat units) eqn:E; [|apply Z.ltb_ge in E; lia].
    destruct (Z.of_nat pos <? extrFilBufSize) eqn:E'; [|apply Z.ltb_ge in E'; lia].
    rewrite to_u32_small by lia.
    replace (Z.of_nat pos + 1) with (Z.of_nat (S pos)) by lia.
    destruct (IH fuel (S pos)
                 (buffer_store buf (Z.of_nat pos)
                    (byte.of_Z (fgetc book (bkCdBuffer_at chunk (Z.of_nat pos)))))
                 Hu Hroom H32 ltac:(lia) ltac:(lia))
      as (buf' & Hrun & Hold & Hnew).
    exists buf'. split; [exact Hrun|]. split.
    + intros j Hj. rewrite Hold by lia. unfold buffer_store.
      destruct (Z.of_nat j =? Z.of_nat pos) eqn:Ej; [apply Z.eqb_eq in Ej; lia|reflexivity].
    + intros j Hj. destruct (Nat.eq_dec j pos) as [->|Hne].
      * rewrite Hold by lia. unfold buffer_store. now rewrite Z.eqb_refl.
      * apply Hnew. lia.
Qed.

Lemma buffer_prefix_extracted chunk buf' (units : nat) :
  Z.of_nat (length chunk) / sizeof_byteOffset = Z.of_nat units ->
  (forall j, (0 <= j < units)%nat ->
             buf' (Z.of_nat j)
             = extracted_byte book (bkCdBuffer_at chunk (Z.of_nat j))) ->
  buffer_prefix buf' (Z.of_nat (length chunk) / sizeof_byteOffset)
  = map (extracted_byte book) (offsets_of chunk).
Proof.
  intros Hu Hbuf. unfold buffer_prefix. rewrite Hu, Nat2Z.id.
  assert (Hlen : length (offsets_of chunk) = units).
  { apply Nat2Z.inj. rewrite offsets_of_length. exact Hu. }
  apply nth_error_ext. intros i.
  destruct (Nat.lt_ge_cases i units) as [Hlt|Hge].
  - rewrite nth_error_map.
    rewrite (nth_error_nth' (seq 0 units) 0%nat) by (now rewrite length_seq).
    rewrite seq_nth by assumption. cbn [option_map Nat.add].
    rewrite nth_error_map.
    destruct (nth_error (offsets_of chunk) i) as [o|] eqn:Eo.
    + cbn [option_map]. rewrite Hbuf by lia.
      now rewrite (bkCdBuffer_at_nth _ _ _ Eo).
    + apply nth_error_None in Eo. lia.
  - rewrite (proj2 (nth_error_None _ _)) by (now rewrite length_map, length_seq).
    symmetry. apply nth_error_None. now rewrite length_map, Hlen.
Qed.

(** With chunks of a whole number of offsets the loop over the book code
    returns, having extracted the byte of every whole offset left in the
    stream, in order. *)
Lemma extractLoop_total (k : nat) :
  bkCdBufSize = 4 * Z.of_nat k -> (0 < k)%nat ->
  Z.of_nat k <= extrFilBufSize -> Z.of_nat k < 2 ^ 32 ->
  forall (n : nat) st fuel,
    0 <= bkCdRead st ->
    Z.of_nat (length (skipn (Z.to_nat (bkCdRead st)) bookCode)) < Z.of_nat n * bkCdBufSize ->
    (n + k + 1 <= fuel)%nat ->
    exists st',
      code_loop fuel st = Done st'
      /\ extrFil st'
         = extrFil st
           ++ map (extracted_byte book)
                  (offsets_of (skipn (Z.to_nat (bkCdRead st)) bookCode)).
Proof.
  intros HB Hk Hroom H32.
  induction n as [|n IH]; intros st fuel Hpos Hrest Hfuel; [lia|].
  destruct fuel as [|fuel]; [lia|]. cbn [extractLoop].
  set (rest := skipn (Z.to_nat (bkCdRead st)) bookCode) in *.
  set (chunk := fread bookCode (bkCdRead st) bkCdBufSize).
  assert (Hchunk : chunk = firstn (Z.to_nat bkCdBufSize) rest) by reflexivity.
  set (units := Z.to_nat (Z.of_nat (length chunk) / sizeof_byteOffset)).
  assert (Hlen : Z.of_nat (length chunk) <= bkCdBufSize)
    by (rewrite Hchunk, length_firstn; lia).
  assert (Hu : Z.of_nat (length chunk) / sizeof_byteOffset = Z.of_nat units).
  { unfold units. rewrite Z2Nat.id; [reflexivity|].
    apply Z.div_pos; unfold sizeof_byteOffset; lia. }
  assert (Huk : (units <= k)%nat).
  { apply Nat2Z.inj_le. rewrite <- Hu. unfold sizeof_byteOffset.
    apply Z.div_le_upper_bound; lia. }
  destruct (extractChunk_fill chunk units units fuel 0%nat (extrFilBuffer st)
              Hu ltac:(lia) ltac:(lia) ltac:(lia) ltac:(lia))
    as (buf' & Hrun & _ & Hnew).
  change (Z.of_nat 0) with 0 in Hrun. rewrite Hrun.
  rewrite (buffer_prefix_extracted chunk buf' units Hu Hnew).
  destruct (Z.of_nat (length chunk) <? bkCdBufSize) eqn:Eshort.
  - apply Z.ltb_lt in Eshort. eexists. split; [reflexivity|]. cbn [extrFil].
    assert (chunk = rest) as ->; [|reflexivity].
    rewrite Hchunk. apply firstn_all2.
    rewrite Hchunk, length_firstn in Eshort. lia.
  - apply Z.ltb_ge in Eshort.
    assert (Hfull : length chunk = (4 * k)%nat) by lia.
    assert (Hsplit : rest = chunk ++ skipn (Z.to_nat bkCdBufSize) rest)
      by (rewrite Hchunk; symmetry; apply firstn_skipn).
    assert (Hnext : skipn (Z.to_nat (bkCdRead st + Z.of_nat (length chunk))) bookCode
                    = skipn (Z.to_nat bkCdBufSize) rest).
    { unfold rest. rewrite skipn_skipn. f_equal. lia. }
    edestruct (IH {| bkCdRead := bkCdRead st + Z.of_nat (length chunk);
                     extrFilBuffer := buf';
                     extrFil := extrFil st
                                ++ map (extracted_byte book) (offsets_of chunk) |}
                  fuel) as (st' & Hloop & Hout).
    + cbn. lia.
    + cbn [bkCdRead]. rewrite Hnext, length_skipn.
      rewrite Hchunk, length_firstn in Eshort.
      rewrite Nat2Z.inj_succ, Z.mul_succ_l in Hrest. lia.
    + lia.
    + exists st'. split; [exact Hloop|]. rewrite Hout. cbn [extrFil bkCdRead].
      rewrite Hnext, <- app_assoc, <- map_app. f_equal. f_equal.
      rewrite Hsplit at 2. symmetry. now apply (offsets_of_app _ _ k).
Qed.

End Extraction.

Lemma runDecode_total ram optSt book bookCode :
  extract_sizes_ok ram optSt book ->
  exists N, forall fuel, (N <= fuel)%nat ->
    exists st,
      runDecode ram optSt book bookCode fuel = Done st
      /\ extrFil st = map (extracted_byte book) (offsets_of bookCode).
Proof.
  unfold extract_sizes_ok, runDecode, extractBytes, sizeof_byteOffset.
  set (B := extract_bkCdBufSize optSt book).
  set (E := extract_extrFilBufSize optSt).
  intros (HB & Hmod & Hroom & H32 & Hram).
  set (k := Z.to_nat (B / 4)).
  assert (HBk : B = 4 * Z.of_nat k).
  { unfold k. rewrite Z2Nat.id by (apply Z.div_pos; lia).
    pose proof (Z.div_mod B 4). lia. }
  exists (S (length bookCode) + k + 1)%nat. intros fuel Hfuel.
  destruct (ram <? B + E) eqn:Eram; [apply Z.ltb_lt in Eram; lia|].
  destruct (extractLoop_total book bookCode B E k HBk ltac:(lia) ltac:(lia) ltac:(lia)
              (S (length bookCode)) initialExtractState fuel)
    as (st & Hrun & Hout); cbn [bkCdRead initialExtractState]; try lia.
  - cbn [Z.to_nat skipn]. nia.
  - exists st. split; [exact Hrun|]. rewrite Hout. reflexivity.
Qed.

(** When the book code is read from a file the chunk [main] sets is a
    whole number of offsets; the sizes are usable as soon as the book and the
    size asked for are not empty, the buffer of the extracted file holds as
    many bytes as the chunk holds offsets, and memory allows. *)
Lemma extract_sizes_ok_from_file ram optSt book :
  readFromStdin optSt = false ->
  0 < Z.of_nat (length book) < 2 ^ 32 ->
  let requested :=
    match bkCdBufSizeGiven optSt with Some n => n | None => DEFAULT_BUFFER_SIZE end in
  0 < requested ->
  Z.min requested (Z.of_nat (length book)) <= extract_extrFilBufSize optSt ->
  4 * Z.min requested (Z.of_nat (length book)) + extract_extrFilBufSize optSt <= ram ->
  extract_sizes_ok ram optSt book.
Proof.
  intros Hfile Hbook requested Hreq Hroom Hram.
  unfold extract_sizes_ok, extract_bkCdBufSize, sizeof_byteOffset.
  rewrite Hfile. fold requested.
  assert (Hmin : (if Z.of_nat (length book) <? requested
                  then Z.of_nat (length book) else requested)
                 = Z.min requested (Z.of_nat (length book))).
  { destruct (_ <? _) eqn:E; [apply Z.ltb_lt in E | apply Z.ltb_ge in E]; lia. }
  rewrite Hmin. set (m := Z.min requested (Z.of_nat (length book))) in *.
  rewrite Z.mod_mul, Z.div_mul by lia. lia.
Qed.

(** * Fuel *)

Section Fuel.

Variable book : list byte.
Variable bkFilSize : Z.
Variable bkFilBufSize : Z.
Variable original : list byte.
Variable optSt : optionsStruct.

Local Abbreviation chunk_run := (mapChunk book bkFilSize bkFilBufSize optSt).
Local Abbreviation session_run := (mapChunks book bkFilSize bkFilBufSize original optSt).

(** A run out of fuel resumes from the state it stopped in. *)
Lemma mapChunk_split n m cc : forall st,
  chunk_run (n + m) cc st
  = match chunk_run n cc st with
    | Timeout st' => chunk_run m cc st'
    | r => r
    end.
Proof.
  induction n as [|n IH]; intros st; [reflexivity|].
  cbn [Nat.add mapChunk].
  destruct (orgFilBufPos st <? cc); [|reflexivity].
  destruct (bkFilPos st <? bkFilSize); [|apply IH].
  destruct (bkFilBufPos st <? bkFilBufSize); [|apply IH].
  destruct (forBody _ _ _ _ st) as [st'|[e st']]; [apply IH|reflexivity].
Qed.

Lemma mapChunk_mono n m cc st r :
  chunk_run n cc st = r -> (forall s, r <> Timeout s) -> (n <= m)%nat ->
  chunk_run m cc st = r.
Proof.
  intros Hr Hnt Hle. replace m with (n + (m - n))%nat by lia.
  rewrite mapChunk_split, Hr. destruct r; try reflexivity. now contradiction (Hnt s).
Qed.

Lemma mapChunks_mono n : forall m R cc st r,
  session_run n R cc st = r -> (forall s, r <> Timeout s) -> (n <= m)%nat ->
  session_run m R cc st = r.
Proof.
  induction n as [|n IH]; intros m R cc st r; cbn [mapChunks].
  - intros <- Hnt. now contradiction (Hnt st).
  - intros Hr Hnt Hle. destruct m as [|m]; [lia|]. cbn [mapChunks].
    destruct (R =? 0); [assumption|].
    destruct (freadWErrCheck _ _ _) as [buf|]; [|assumption].
    destruct (mapChunk _ _ _ _ n _ _) as [s1|e s1|s1] eqn:Ec.
    + rewrite (mapChunk_mono n m _ _ _ Ec) by (discriminate || lia).
      apply (IH m _ _ _ _ Hr Hnt). lia.
    + rewrite (mapChunk_mono n m _ _ _ Ec) by (discriminate || lia). assumption.
    + subst r. now contradiction (Hnt s1).
Qed.

(** A run that comes back to a state it was in with the fuel used up never
    leaves the loops. *)
Lemma mapChunk_lasso n k cc st s :
  chunk_run n cc st = Timeout s ->
  chunk_run (S k) cc s = Timeout s ->
  diverges (fun fuel => chunk_run fuel cc st).
Proof.
  intros Hstem Hloop.
  assert (Hcycle : forall fuel, exists s', chunk_run fuel cc s = Timeout s').
  { induction fuel as [fuel IH] using lt_wf_ind.
    destruct (Nat.le_gt_cases fuel (S k)) as [Hle|Hgt].
    - destruct (chunk_run fuel cc s) as [s'|e s'|s'] eqn:E; [| |now exists s'].
      + rewrite (mapChunk_mono fuel (S k) _ _ _ E) in Hloop by (discriminate || lia).
        discriminate.
      + rewrite (mapChunk_mono fuel (S k) _ _ _ E) in Hloop by (discriminate || lia).
        discriminate.
    - replace fuel with (S k + (fuel - S k))%nat by lia.
      rewrite mapChunk_split, Hloop. apply IH. lia. }
  intros fuel. destruct (Nat.le_gt_cases fuel n) as [Hle|Hgt].
  - destruct (chunk_run fuel cc st) as [s'|e s'|s'] eqn:E; [| |now exists s'].
    + rewrite (mapChunk_mono fuel n _ _ _ E) in Hstem by (discriminate || lia).
      discriminate.
    + rewrite (mapChunk_mono fuel n _ _ _ E) in Hstem by (discriminate || lia).
      discriminate.
  - replace fuel with (n + (fuel - n))%nat by lia.
    rewrite mapChunk_split, Hstem. apply Hcycle.
Qed.

End Fuel.

Lemma runEncode_mono ram optSt book original n m r :
  runEncode ram optSt book original n = r -> (forall s, r <> Timeout s) ->
  (n <= m)%nat ->
  runEncode ram optSt book original m = r.
Proof.
  unfold runEncode, mapOffsets.
  destruct (ram <? _); [trivial|]. destruct (_ =? 0); [trivial|].
  destruct (freadWErrCheck book _ _); [|trivial].
  apply mapChunks_mono.
Qed.

(** A session that fails with some fuel never returns, whatever the fuel. *)
Lemma runEncode_Failed_never_Done ram optSt book original n e s :
  runEncode ram optSt book original n = Failed e s ->
  forall fuel st, runEncode ram optSt book original fuel <> Done st.
Proof.
  intros Hf fuel st Hd.
  destruct (Nat.le_ge_cases fuel n) as [Hle|Hge].
  - rewrite (runEncode_mono _ _ _ _ fuel n _ Hd) in Hf by (discriminate || lia).
    discriminate.
  - rewrite (runEncode_mono _ _ _ _ n fuel _ Hf) in Hd by (discriminate || lia).
    discriminate.
Qed.

(** The state in which the loops over the first chunk start: the first
    window of the book and the first chunk of the original file read. *)
Lemma runEncode_first_chunk ram optSt book original fuel :
  let W := map_bkFilBufSize optSt book in
  let cc := map_orgFilBufSize optSt original in
  cc + W <= ram -> 0 < W -> 0 < cc ->
  runEncode ram optSt book original (S fuel)
  = match mapChunk book (map_bkFilSize optSt book) W optSt fuel cc
            (set_orgFil (0 + cc) (fread original 0 cc)
               (set_bkFil (0 + W) (fread book 0 W) initialMapState)) with
    | Done st' =>
      mapChunks book (map_bkFilSize optSt book) W original optSt fuel
                (Z.of_nat (length original) - cc) cc st'
    | r => r
    end.
Proof.
  intros W cc Hram HW Hcc.
  assert (HWle : W <= Z.of_nat (length book)) by apply map_bkFilBufSize_le.
  assert (Hcle : cc <= Z.of_nat (length original)) by apply map_orgFilBufSize_le.
  unfold runEncode, mapOffsets.
  change (map_bkFilBufSize optSt book) with W.
  change (map_orgFilBufSize optSt original) with cc.
  destruct (ram <? cc + W) eqn:E; [apply Z.ltb_lt in E; lia|].
  destruct (W =? 0) eqn:E0; [apply Z.eqb_eq in E0; lia|].
  cbn [bkFil initialMapState].
  rewrite freadWErrCheck_full by lia.
  cbn [mapChunks].
  destruct (Z.of_nat (length original) =? 0) eqn:EX; [apply Z.eqb_eq in EX; lia|].
  destruct (Z.of_nat (length original) <? cc) eqn:Elt; [apply Z.ltb_lt in Elt; lia|].
  cbn [orgFil set_bkFil initialMapState].
  rewrite freadWErrCheck_full by lia.
  reflexivity.
Qed.

(** A session stuck in the loops over its first chunk is stuck. *)
Lemma runEncode_diverges_first_chunk ram optSt book original :
  let W := map_bkFilBufSize optSt book in
  let cc := map_orgFilBufSize optSt original in
  cc + W <= ram -> 0 < W -> 0 < cc ->
  diverges (fun fuel =>
              mapChunk book (map_bkFilSize optSt book) W optSt fuel cc
                (set_orgFil (0 + cc) (fread original 0 cc)
                   (set_bkFil (0 + W) (fread book 0 W) initialMapState))) ->
  diverges (runEncode ram optSt book original).
Proof.
  intros W cc Hram HW Hcc Hdiv [|fuel].
  - assert (HWle : W <= Z.of_nat (length book)) by apply map_bkFilBufSize_le.
    unfold runEncode, mapOffsets.
    change (map_bkFilBufSize optSt book) with W.
    change (map_orgFilBufSize optSt original) with cc.
    destruct (ram <? cc + W) eqn:E; [apply Z.ltb_lt in E; lia|].
    destruct (W =? 0) eqn:E0; [apply Z.eqb_eq in E0; lia|].
    cbn [bkFil initialMapState].
    rewrite freadWErrCheck_full by lia. cbn [mapChunks]. now eexists.
  - rewrite runEncode_first_chunk by assumption.
    destruct (Hdiv fuel) as [s Hs]. fold W cc. rewrite Hs. now exists s.
Qed.

Lemma runEncode_Done_window ram optSt book original fuel st :
  runEncode ram optSt book original fuel = Done st ->
  0 < map_bkFilBufSize optSt book.
Proof.
  intros Hd. destruct (Z.lt_ge_cases 0 (map_bkFilBufSize optSt book)) as [|Hle];
    [assumption|exfalso].
  revert Hd. unfold runEncode, mapOffsets.
  destruct (ram <? _); [discriminate|].
  destruct (_ =? 0) eqn:E0; [discriminate|]. apply Z.eqb_neq in E0.
  unfold freadWErrCheck.
  destruct (_ =? map_bkFilBufSize optSt book) eqn:E; [|discriminate].
  apply Z.eqb_eq in E. lia.
Qed.

(** A sample session whose first chunk comes back, with the fuel used up, to
    a state it was in, is stuck for good. *)
Lemma runEncode_lasso ram optSt book original n k :
  let W := map_bkFilBufSize optSt book in
  let cc := map_orgFilBufSize optSt original in
  let run fuel st := mapChunk book (map_bkFilSize optSt book) W optSt fuel cc st in
  let start := set_orgFil (0 + cc) (fread original 0 cc)
                          (set_bkFil (0 + W) (fread book 0 W) initialMapState) in
  cc + W <= ram -> 0 < W -> 0 < cc ->
  run n start = Timeout (outcome_state (run n start)) ->
  run (S k) (outcome_state (run n start)) = Timeout (outcome_state (run n start)) ->
  diverges (runEncode ram optSt book original).
Proof.
  intros W cc run start Hram HW Hcc Hstem Hloop.
  apply runEncode_diverges_first_chunk; try assumption.
  exact (mapChunk_lasso _ _ _ _ n k cc start _ Hstem Hloop).
Qed.

(** * A byte the used part of the book does not hold *)

Lemma last_offset_In b log o : last_offset b log = Some o -> In (b, o) log.
Proof.
  induction log as [|[b' o'] log IH]; cbn [last_offset]; [discriminate|].
  destruct (Byte.eqb b b') eqn:E.
  - apply byte_eqb_true in E. intros [= <-]. subst. now left.
  - intros H. right. now apply IH.
Qed.

Section Absent.

Variable book : list byte.
Variable bkFilSize : Z.
Variable bkFilBufSize : Z.
Variable original : list byte.
Variable optSt : optionsStruct.
Variable b : byte.

Hypothesis B : book_ok book bkFilSize bkFilBufSize.
Hypothesis H2 : 2 <= bkFilBufSize.
Hypothesis Habsent :
  forall o, 0 <= o < bkFilSize -> nth_error book (Z.to_nat o) <> Some b.

Local Abbreviation Inv' := (Inv book bkFilSize bkFilBufSize original optSt).
Local Abbreviation chunk_run := (mapChunk book bkFilSize bkFilBufSize optSt).
Local Abbreviation session_run := (mapChunks book bkFilSize bkFilBufSize original optSt).

Lemma digest_unset cc st log : Inv' cc st log -> offsetDigest st b = -1.
Proof.
  intros HI. rewrite (i_digest _ _ _ _ _ _ _ _ HI).
  destruct (last_offset b log) as [o|] eqn:E; [exfalso|reflexivity].
  apply last_offset_In in E.
  destruct (i_book _ _ _ _ _ _ _ _ HI B) as [_ Hentries].
  rewrite Forall_forall in Hentries. destruct (Hentries _ E) as [Hr Hn].
  exact (Habsent _ Hr Hn).
Qed.

(** Looking for such a byte, the loops walk to the end of the used part of
    the book and fail there for want of entropy, having written nothing
    more. *)
Lemma mapChunk_absent cc : cc < 2 ^ 32 -> forall m st log,
  Inv' cc st log -> orgFilBufPos st < cc ->
  nth (Z.to_nat (orgFilBufPos st)) (orgFilBuffer st) Byte.x00 = b ->
  (Z.to_nat (bkFilSize - bkFilPos st - bkFilBufPos st) <= m)%nat ->
  exists st',
    chunk_run m cc st = Failed InsufficientEntropy st' /\ bkCd st' = bkCd st.
Proof.
  intros Hcc. induction m as [|m IH]; intros st log HI Hpos Hbyte Hm;
    destruct (i_book _ _ _ _ _ _ _ _ HI B) as [[[k Hk] Hlo Hhi Hs Hwb Hcur] _];
    specialize (Hcur H2); pose proof (i_bufpos _ _ _ _ _ _ _ _ HI) as Hbp;
    destruct (book_ok_bounds _ _ _ B) as [HW HS]; [lia|].
  cbn [mapChunk].
  destruct (orgFilBufPos st <? cc) eqn:E1; [|apply Z.ltb_ge in E1; lia].
  destruct (bkFilPos st <? bkFilSize) eqn:E2; [|apply Z.ltb_ge in E2; lia].
  destruct (bkFilBufPos st <? bkFilBufSize) eqn:E3; [|apply Z.ltb_ge in E3; lia].
  pose proof (forBody_inv _ _ _ _ _ cc st log HI Hcc Hpos Hcur) as Hstep.
  revert Hstep. unfold forBody. rewrite Hbyte.
  assert (Hne : Byte.eqb b (nth (Z.to_nat (bkFilBufPos st)) (bkFilBuffer st) Byte.x00)
                = false).
  { apply byte_eqb_neq. intros Heq.
    apply (Habsent (bkFilPos st + bkFilBufPos st)); [lia|].
    rewrite Heq, Hwb. destruct B as (_ & _ & _ & Hfit & _). apply fread_nth; lia. }
  rewrite Hne. rewrite to_size_small by lia.
  destruct (bkFilBufPos st =? bkFilBufSize - 1) eqn:Elast.
  - apply Z.eqb_eq in Elast. unfold refillBuffer.
    cbn [bkFilPos set_bkFilBufPos set_bkFilPos offsetDigest bkFil].
    rewrite (digest_unset cc st log HI), Z.eqb_refl.
    rewrite to_size_small by lia. rewrite to_u32_small by lia.
    destruct (_ || _) eqn:Ewrap.
    + intros _. eexists. split; reflexivity.
    + apply orb_false_iff in Ewrap as [Ewrap _]. apply Z.leb_gt in Ewrap.
      destruct B as (_ & [k' Hk'] & _ & Hfit & _).
      assert (k + 2 <= k') by nia.
      rewrite freadWErrCheck_full by nia.
      intros [log' HI'].
      apply (IH _ log' HI'); cbn; try assumption.
      rewrite to_u32_small by lia. lia.
  - apply Z.eqb_neq in Elast. intros [log' HI'].
    apply (IH _ log' HI'); cbn; try assumption.
    rewrite to_u32_small by lia. lia.
Qed.

Variables prefix suffix : list byte.
Hypothesis Hsplit : original = prefix ++ b :: suffix.

Lemma split_byte : nth_error original (length prefix) = Some b.
Proof.
  rewrite Hsplit, nth_error_app2, Nat.sub_diag by lia. reflexivity.
Qed.

Lemma Inv_consumed cc st log :
  Inv' cc st log ->
  Z.of_nat (length log) = orgFil st - cc + orgFilBufPos st
  /\ length (bkCd st) = (4 * length log)%nat.
Proof.
  intros HI. split.
  - pose proof (f_equal (@length byte) (i_input _ _ _ _ _ _ _ _ HI)) as Hlen.
    rewrite length_map, length_rev, length_firstn in Hlen.
    pose proof (i_cursor _ _ _ _ _ _ _ _ HI). pose proof (i_end _ _ _ _ _ _ _ _ HI).
    pose proof (i_base _ _ _ _ _ _ _ _ HI). lia.
  - rewrite (i_bkCd _ _ _ _ _ _ _ _ HI), flat_map_offset_bytes_length.
    now rewrite length_rev, length_map.
Qed.

(** At the head of the chunk that starts with the byte, the session fails. *)
Lemma mapChunks_head_absent bytesRemaining currentChunk st log cc :
  Inv' cc st log -> orgFilBufPos st = cc ->
  bytesRemaining = Z.of_nat (length original) - orgFil st ->
  0 < currentChunk < 2 ^ 32 ->
  length log = length prefix ->
  exists n st',
    session_run n bytesRemaining currentChunk st = Failed InsufficientEntropy st'
    /\ bkCd st' = bkCd st.
Proof.
  intros HI Hpos HR Hcc Hlen.
  destruct (Inv_consumed cc st log HI) as [Hcons _].
  assert (Hat : orgFil st = Z.of_nat (length prefix)) by lia.
  assert (HX : Z.of_nat (length original)
               = Z.of_nat (length prefix) + 1 + Z.of_nat (length suffix))
    by (rewrite Hsplit, length_app; cbn [length]; lia).
  set (cc' := if bytesRemaining <? currentChunk then bytesRemaining else currentChunk).
  assert (Hcc' : 0 < cc' <= bytesRemaining /\ cc' < 2 ^ 32)
    by (unfold cc'; destruct (bytesRemaining <? currentChunk) eqn:E;
        [apply Z.ltb_lt in E | apply Z.ltb_ge in E]; lia).
  assert (Hr : freadWErrCheck original (orgFil st) cc'
               = Some (fread original (orgFil st) cc'))
    by (apply freadWErrCheck_full; lia).
  pose proof (Inv_next_chunk _ _ _ _ _ cc st log cc' _ HI Hpos Hr ltac:(lia)) as HI1.
  set (s1 := set_orgFil (orgFil st + cc') (fread original (orgFil st) cc') st) in *.
  destruct (mapChunk_absent cc' (proj2 Hcc')
              (Z.to_nat (bkFilSize - bkFilPos s1 - bkFilBufPos s1)) s1 log HI1)
    as (st' & Hfail & Hcd); [cbn; lia| |lia|].
  - cbn [s1 set_orgFil orgFilBufPos orgFilBuffer Z.to_nat].
    assert (Hn : nth_error original (Z.to_nat (orgFil st + 0))
                 = Some (nth (Z.to_nat 0) (fread original (orgFil st) cc') Byte.x00))
      by (apply fread_nth; lia).
    replace (Z.to_nat (orgFil st + 0)) with (length prefix) in Hn by lia.
    rewrite split_byte in Hn. now injection Hn.
  - exists (S (Z.to_nat (bkFilSize - bkFilPos s1 - bkFilBufPos s1))), st'.
    cbn [mapChunks].
    destruct (bytesRemaining =? 0) eqn:E0; [apply Z.eqb_eq in E0; lia|].
    fold cc'. rewrite Hr. fold s1. rewrite Hfail. split; [reflexivity|exact Hcd].
Qed.

Lemma mapChunk_orgFil_any fuel cc : forall st,
  match chunk_run fuel cc st with
  | Done st' | Timeout st' => orgFil st' = orgFil st
  | Failed _ _ => True
  end.
Proof.
  induction fuel as [|fuel IH]; intros st; cbn [mapChunk]; [reflexivity|].
  destruct (orgFilBufPos st <? cc); [|reflexivity].
  destruct (bkFilPos st <? bkFilSize); [|apply IH].
  destruct (bkFilBufPos st <? bkFilBufSize); [|apply IH].
  destruct (forBody _ _ _ _ st) as [st1|[e st1]] eqn:Ef; [|exact I].
  specialize (IH st1). destruct (forBody_cursor _ _ _ _ _ _ Ef) as [<- _].
  exact IH.
Qed.

(** A session that has written the offsets of the bytes before the byte and
    is out of fuel fails for want of entropy with more fuel. *)
Lemma mapChunks_reach_absent fuel : forall bytesRemaining currentChunk st log cc st0,
  Inv' cc st log -> orgFilBufPos st = cc ->
  bytesRemaining = Z.of_nat (length original) - orgFil st ->
  0 < currentChunk < 2 ^ 32 ->
  session_run fuel bytesRemaining currentChunk st = Timeout st0 ->
  length (bkCd st0) = (4 * length prefix)%nat ->
  exists n st',
    session_run n bytesRemaining currentChunk st = Failed InsufficientEntropy st'
    /\ bkCd st' = bkCd st0.
Proof.
  induction fuel as [|fuel IH]; intros R ccmax st log cc st0 HI Hpos HR Hcc;
    cbn [mapChunks].
  - intros [= <-] Hlen.
    apply (mapChunks_head_absent R ccmax st log cc); try assumption.
    destruct (Inv_consumed cc st log HI) as [_ Hcd]. lia.
  - destruct (R =? 0) eqn:ER; [discriminate|]. apply Z.eqb_neq in ER.
    set (cc' := if R <? ccmax then R else ccmax).
    assert (Hcc' : 0 < cc' <= R /\ cc' < 2 ^ 32).
    { pose proof (i_end _ _ _ _ _ _ _ _ HI).
      unfold cc'; destruct (R <? ccmax) eqn:E;
        [apply Z.ltb_lt in E | apply Z.ltb_ge in E]; lia. }
    destruct (freadWErrCheck original (orgFil st) cc') as [buf|] eqn:Er; [|discriminate].
    assert (HI1 : Inv' cc' (set_orgFil (orgFil st + cc') buf st) log)
      by (apply (Inv_next_chunk _ _ _ _ _ cc); try assumption; lia).
    set (s1 := set_orgFil (orgFil st + cc') buf st) in *.
    pose proof (mapChunk_post _ _ _ _ _ fuel cc' s1 log HI1 (proj2 Hcc')) as Hpost.
    pose proof (mapChunk_orgFil_any fuel cc' s1) as Horg.
    destruct (chunk_run fuel cc' s1) as [s2|e s2|s2] eqn:Em; [| discriminate |].
    + (* the chunk was finished: the byte is further on *)
      destruct Hpost as (log2 & HI2 & Hpos2). intros Hrest Hlen.
      assert (Hleft : R - cc' = Z.of_nat (length original) - orgFil s2)
        by (rewrite Horg; unfold s1; cbn; lia).
      destruct (IH (R - cc') cc' s2 log2 cc' st0 HI2 Hpos2 Hleft
                   ltac:(lia) Hrest Hlen) as (n & st' & Hfail & Hcd).
      exists (S (Nat.max fuel n)), st'. split; [|exact Hcd].
      cbn [mapChunks]. rewrite (proj2 (Z.eqb_neq _ _) ER). fold cc'. rewrite Er. fold s1.
      rewrite (mapChunk_mono _ _ _ _ fuel (Nat.max fuel n) _ _ _ Em)
        by (discriminate || lia).
      apply (mapChunks_mono _ _ _ _ _ n); [exact Hfail|discriminate|lia].
    + (* out of fuel inside the chunk *)
      destruct Hpost as (log2 & HI2). intros [= <-] Hlen.
      destruct (Inv_consumed cc' s2 log2 HI2) as [Hcons Hcd2].
      pose proof (i_cursor _ _ _ _ _ _ _ _ HI2) as Hcur.
      destruct (Z.eq_dec (orgFilBufPos s2) cc') as [Hdone|Hmid].
      * (* at the end of the chunk: the byte opens the next one *)
        assert (Hleft : R - cc' = Z.of_nat (length original) - orgFil s2)
          by (rewrite Horg; unfold s1; cbn; lia).
        destruct (mapChunks_head_absent (R - cc') cc' s2 log2 cc' HI2 Hdone
                    Hleft ltac:(lia) ltac:(lia))
          as (n & st' & Hfail & Hcd).
        exists (S (Nat.max (fuel + 1) n)), st'. split; [|exact Hcd].
        cbn [mapChunks]. rewrite (proj2 (Z.eqb_neq _ _) ER). fold cc'. rewrite Er.
        fold s1.
        assert (Hone : chunk_run (fuel + 1) cc' s1 = Done s2).
        { rewrite mapChunk_split, Em. cbn [mapChunk].
          destruct (orgFilBufPos s2 <? cc') eqn:E; [apply Z.ltb_lt in E; lia|].
          reflexivity. }
        rewrite (mapChunk_mono _ _ _ _ (fuel + 1) (Nat.max (fuel + 1) n) _ _ _ Hone)
          by (discriminate || lia).
        apply (mapChunks_mono _ _ _ _ _ n); [exact Hfail|discriminate|lia].
      * (* in the middle of the chunk: the byte is the one being mapped *)
        assert (Hat : orgFil s2 - cc' + orgFilBufPos s2 = Z.of_nat (length prefix))
          by lia.
        assert (HX : Z.of_nat (length original)
                     = Z.of_nat (length prefix) + 1 + Z.of_nat (length suffix))
          by (rewrite Hsplit, length_app; cbn [length]; lia).
        pose proof (i_end _ _ _ _ _ _ _ _ HI2). pose proof (i_base _ _ _ _ _ _ _ _ HI2).
        destruct (mapChunk_absent cc' (proj2 Hcc')
                    (Z.to_nat (bkFilSize - bkFilPos s2 - bkFilBufPos s2)) s2 log2 HI2)
          as (st' & Hfail & Hcd); [lia| |lia|].
        -- assert (Hn : nth_error original
                          (Z.to_nat (orgFil s2 - cc' + orgFilBufPos s2))
                        = Some (nth (Z.to_nat (orgFilBufPos s2))
                                    (fread original (orgFil s2 - cc') cc') Byte.x00))
             by (apply fread_nth; lia).
           rewrite Hat, Nat2Z.id, split_byte in Hn.
           rewrite (i_chunk _ _ _ _ _ _ _ _ HI2). now injection Hn.
        -- exists (S (fuel + Z.to_nat (bkFilSize - bkFilPos s2 - bkFilBufPos s2))), st'.
           split; [|exact Hcd].
           cbn [mapChunks]. rewrite (proj2 (Z.eqb_neq _ _) ER). fold cc'. rewrite Er.
           fold s1. now rewrite mapChunk_split, Em, Hfail.
Qed.

End Absent.



(** Once a session has written the offsets of the bytes before a byte that
    the used part of the book does not hold, it fails for want of entropy,
    provided the buffer of the book has two bytes or more and the chunk of
    the original file is not empty. *)
Lemma runEncode_reach_absent ram optSt book original b prefix suffix :
  Z.of_nat (length book) < 2 ^ 32 ->
  2 <= map_bkFilBufSize optSt book ->
  0 < map_orgFilBufSize optSt original < 2 ^ 32 ->
  original = prefix ++ b :: suffix ->
  (forall o, 0 <= o < map_bkFilSize optSt book ->
             nth_error book (Z.to_nat o) <> Some b) ->
  forall fuel st,
    runEncode ram optSt book original fuel = Timeout st ->
    length (bkCd st) = (4 * length prefix)%nat ->
    exists fuel' st',
      runEncode ram optSt book original fuel' = Failed InsufficientEntropy st'
      /\ bkCd st' = bkCd st.
Proof.
  intros H32 H2 Hcc Hsplit Habsent fuel st.
  pose proof (map_sizes_book_ok optSt book ltac:(lia) H32) as B.
  unfold runEncode, mapOffsets.
  destruct (ram <? _); [discriminate|].
  destruct (map_bkFilBufSize optSt book =? 0); [discriminate|].
  cbn [bkFil initialMapState].
  destruct (freadWErrCheck book 0 _) as [buf|] eqn:Er; [|discriminate].
  intros Hrun Hlen.
  apply (mapChunks_reach_absent book _ _ original optSt b B H2 Habsent
           prefix suffix Hsplit fuel _ _ _ [] 0 st
           (Inv_start book _ _ original optSt buf Er) eq_refl);
    [cbn; lia | lia | exact Hrun | exact Hlen].
Qed.

(** In particular a byte that is nowhere in the book is reported when the
    session gets to it, under the same provisos. *)
Lemma absent_byte_reported ram optSt book original b prefix suffix :
  Z.of_nat (length book) < 2 ^ 32 ->
  2 <= map_bkFilBufSize optSt book ->
  0 < map_orgFilBufSize optSt original < 2 ^ 32 ->
  original = prefix ++ b :: suffix ->
  ~ In b book ->
  forall fuel st,
    runEncode ram optSt book original fuel = Timeout st ->
    length (bkCd st) = (4 * length prefix)%nat ->
    exists fuel' st',
      runEncode ram optSt book original fuel' = Failed InsufficientEntropy st'
      /\ bkCd st' = bkCd st.
Proof.
  intros H32 H2 Hcc Hsplit Hnot.
  apply (runEncode_reach_absent ram optSt book original b prefix suffix);
    try assumption.
  intros o _ Hn. apply Hnot. now apply nth_error_In in Hn.
Qed.

(** * The two scenarios of the specification, and one more *)

(** Book "abcabc", original file "aa", duplicates disallowed: the offsets
    written are 0 and 3. *)
Example scenario_abcabc :
  exists st,
    runEncode sample_ram defaultOptions (bytes "abcabc") (bytes "aa") 8 = Done st
    /\ offsets_of (bkCd st) = [0; 3].
Proof. eexists. split; by_running. Qed.

(** Book "abc", book code 0, 1, 2: the file extracted is "abc". *)
Example scenario_abc :
  exists st,
    runDecode sample_ram defaultOptions (bytes "abc")
              (flat_map offset_bytes [0; 1; 2]) 8 = Done st
    /\ extrFil st = bytes "abc".
Proof. eexists. split; by_running. Qed.

(** The chunk of the book code has to be a whole number of offsets for the
    extraction to see them all.  When the book code is piped in, [main]
    leaves the size given on the command line divided by four: with
    [book_code_buffer=24] the chunk is six bytes, the second offset of a
    book code of nine bytes is cut in two, and one byte is extracted where
    the book code holds two whole offsets. *)
Example piped_chunk_cuts_offsets :
  let bookCode := offset_bytes 0 ++ offset_bytes 1 ++ [Byte.x02] in
  exists st,
    runDecode sample_ram (withPipedBookCode 6 defaultOptions) (bytes "abc")
              bookCode 8 = Done st
    /\ extrFil st = bytes "a"
    /\ offsets_of bookCode = [0; 1].
Proof. eexists. repeat split; by_running. Qed.

(** * The claims of the specification *)

(** C1, at failing inputs.  The book "abcd" holds every byte of the
    original file "cad" and, with the default buffers, is one window with
    nothing cut off.  "c" is written as offset 2 and leaves the cursor of
    the book past the only "a": the scan runs to the end of the book, finds
    the digest entry of "a" unset and the session stops for want of entropy,
    though the "a" at offset 0 was never compared.  No amount of fuel makes
    the session return, so no book code exists for an extraction to start
    from.  With the book "abcabc" and the original file "aaa" the session
    writes the offsets 0 and 3 and never returns: every reload resumes at
    the second byte of the buffer, and the only "a" from there on is the
    digest entry. *)
Theorem C1_covered_input_not_encoded :
  let book := bytes "abcd" in
  let original := bytes "cad" in
  let book' := bytes "abcabc" in
  let original' := bytes "aaa" in
  (forall b, In b original -> In b book)
  /\ map_bkFilBufSize defaultOptions book = Z.of_nat (length book)
  /\ map_bkFilSize defaultOptions book = Z.of_nat (length book)
  /\ (exists st, runEncode sample_ram defaultOptions book original 6
                 = Failed InsufficientEntropy st
                 /\ bkCd st = offset_bytes 2)
  /\ (forall fuel st, runEncode sample_ram defaultOptions book original fuel <> Done st)
  /\ (forall b, In b original' -> In b book')
  /\ map_bkFilSize defaultOptions book' = Z.of_nat (length book')
  /\ (exists st, runEncode sample_ram defaultOptions book' original' 14 = Timeout st
                 /\ bkCd st = offset_bytes 0 ++ offset_bytes 3)
  /\ diverges (runEncode sample_ram defaultOptions book' original').
Proof.
  cbv zeta. split_conj.
  - intros b [<- | [<- | [<- | []]]]; cbn; tauto.
  - reflexivity.
  - reflexivity.
  - eexists. split; by_running.
  - apply (runEncode_Failed_never_Done _ _ _ _ 6 InsufficientEntropy
             (outcome_state (runEncode sample_ram defaultOptions
                                       (bytes "abcd") (bytes "cad") 6))).
    by_running.
  - intros b [<- | [<- | [<- | []]]]; now left.
  - reflexivity.
  - eexists. split; by_running.
  - apply (runEncode_lasso _ _ _ _ 13 2); by_running.
Qed.

(** By design [main] cuts the book to whole windows (lines 857-860).  The
    book "abc" read through a window of two bytes holds every byte of the
    original file "c", yet the session fails for want of entropy: the third
    byte of the book is past the last whole window. *)
Lemma tail_byte_not_encoded :
  let book := bytes "abc" in
  let original := bytes "c" in
  let optSt := withBookBuffer 2 defaultOptions in
  (forall b, In b original -> In b book)
  /\ map_bkFilSize optSt book = 2
  /\ (exists st, runEncode sample_ram optSt book original 3
                 = Failed InsufficientEntropy st)
  /\ (forall fuel st, runEncode sample_ram optSt book original fuel <> Done st).
Proof.
  cbv zeta. split; [|split; [|split]].
  - intros b [<- | []]. right. right. now left.
  - reflexivity.
  - eexists. by_running.
  - apply (runEncode_Failed_never_Done _ _ _ _ 3 InsufficientEntropy
             (outcome_state (runEncode sample_ram (withBookBuffer 2 defaultOptions)
                                       (bytes "abc") (bytes "c") 3))).
    by_running.
Qed.

(** C2 (offset validity).  Whatever way a session over a book below [2^32]
    bytes stops, the book code written so far is a sequence of whole offsets,
    one for each of the first bytes of the original file in order, and every
    offset lies inside the book and the book holds there the byte the offset
    was written for. *)
Theorem C2_offset_validity ram optSt book original fuel :
  Z.of_nat (length book) < 2 ^ 32 ->
  map_orgFilBufSize optSt original < 2 ^ 32 ->
  let code := bkCd (outcome_state (runEncode ram optSt book original fuel)) in
  code = flat_map offset_bytes (offsets_of code)
  /\ (length (offsets_of code) <= length original)%nat
  /\ Forall (fun p => 0 <= snd p < Z.of_nat (length book)
                      /\ nth_error book (Z.to_nat (snd p)) = Some (fst p))
            (combine original (offsets_of code)).
Proof.
  intros H32 Hcc code.
  destruct (Z.lt_ge_cases 0 (map_bkFilBufSize optSt book)) as [HW|HW].
  - destruct (runEncode_post ram optSt book original fuel (or_introl Hcc))
      as (log & Hlog & _).
    fold code in Hlog.
    pose proof (map_sizes_book_ok optSt book HW H32) as B.
    rewrite (logged_combine _ _ _ _ _ _ _ Hlog).
    rewrite (logged_offsets _ _ _ _ _ _ _ Hlog).
    repeat split.
    + rewrite map_rev. apply (l_code _ _ _ _ _ _ _ Hlog).
    + rewrite length_map, length_rev. apply (logged_length_le _ _ _ _ _ _ _ Hlog).
    + apply Forall_rev. pose proof (l_book _ _ _ _ _ _ _ Hlog B) as Hentries.
      eapply Forall_impl; [|exact Hentries].
      intros p [Hr Hn]. destruct B as (_ & _ & _ & Hfit & _). split; [lia|exact Hn].
  - unfold code. rewrite runEncode_no_window by assumption.
    cbn. repeat split; [lia|]. destruct original; constructor.
Qed.

Lemma C2_offset_validity_witness :
  let book := bytes "abcabc" in
  let original := bytes "aa" in
  let code := bkCd (outcome_state
                      (runEncode sample_ram defaultOptions book original 8)) in
  Z.of_nat (length book) < 2 ^ 32
  /\ map_orgFilBufSize defaultOptions original < 2 ^ 32
  /\ code = flat_map offset_bytes (offsets_of code)
  /\ (length (offsets_of code) <= length original)%nat
  /\ Forall (fun p => 0 <= snd p < Z.of_nat (length book)
                      /\ nth_error book (Z.to_nat (snd p)) = Some (fst p))
            (combine original (offsets_of code)).
Proof.
  cbv zeta.
  assert (Hbook : Z.of_nat (length (bytes "abcabc")) < 2 ^ 32) by reflexivity.
  assert (Hchunk : map_orgFilBufSize defaultOptions (bytes "aa") < 2 ^ 32)
    by reflexivity.
  split; [exact Hbook|]. split; [exact Hchunk|].
  exact (C2_offset_validity sample_ram defaultOptions (bytes "abcabc") (bytes "aa") 8
                            Hbook Hchunk).
Defined.

(** C3 (size law).  When a session returns, the book code is four bytes for
    each byte of the original file: as many whole offsets as the file has
    bytes, and nothing else. *)
Theorem C3_size_law ram optSt book original fuel st :
  runEncode ram optSt book original fuel = Done st ->
  length (bkCd st) = (4 * length original)%nat
  /\ length (offsets_of (bkCd st)) = length original
  /\ bkCd st = flat_map offset_bytes (offsets_of (bkCd st)).
Proof.
  intros Hd.
  destruct (runEncode_post ram optSt book original fuel
              (or_intror (ex_intro _ st Hd))) as (log & Hlog & Hall & _).
  rewrite Hd in Hlog, Hall. cbn [outcome_state] in Hlog.
  specialize (Hall st eq_refl).
  assert (Hlen : length log = length original)
    by (rewrite <- Hall, length_map, length_rev; reflexivity).
  rewrite (logged_offsets _ _ _ _ _ _ _ Hlog).
  repeat split.
  - rewrite (logged_length _ _ _ _ _ _ _ Hlog). lia.
  - now rewrite length_map, length_rev.
  - rewrite map_rev. apply (l_code _ _ _ _ _ _ _ Hlog).
Qed.

Lemma C3_size_law_witness :
  let book := bytes "abcabc" in
  let original := bytes "aa" in
  let st := outcome_state (runEncode sample_ram defaultOptions book original 8) in
  runEncode sample_ram defaultOptions book original 8 = Done st
  /\ length (bkCd st) = (4 * length original)%nat
  /\ length (offsets_of (bkCd st)) = length original
  /\ bkCd st = flat_map offset_bytes (offsets_of (bkCd st)).
Proof.
  cbv zeta.
  assert (Hdone : runEncode sample_ram defaultOptions (bytes "abcabc") (bytes "aa") 8
                  = Done (outcome_state
                            (runEncode sample_ram defaultOptions
                                       (bytes "abcabc") (bytes "aa") 8)))
    by by_running.
  split; [exact Hdone|].
  exact (C3_size_law _ _ _ _ _ _ Hdone).
Defined.

(** C4, at a failing input.  The byte "d" is nowhere in the book "abc".
    Read through a window of one byte, the session never reports it: after
    the first reload the buffer cursor stands past the only entry of the
    buffer, and the loops turn without reading a byte again. *)
Theorem C4_absent_byte_livelock :
  ~ In Byte.x64 (bytes "abc")
  /\ diverges (runEncode sample_ram (withBookBuffer 1 defaultOptions)
                         (bytes "abc") (bytes "d")).
Proof.
  split.
  - intros [H|[H|[H|[]]]]; discriminate H.
  - apply (runEncode_lasso _ _ _ _ 1 0); by_running.
Qed.

(** The same session is lost before it reaches an absent byte when an
    earlier byte sits at the head of the window: with the book "ab" and the
    default buffers, the second "a" of "abac" is looked for after a reload,
    which resumes at the second byte of the buffer. *)
Lemma livelock_before_absent_byte :
  diverges (runEncode sample_ram defaultOptions (bytes "ab") (bytes "abac")).
Proof.
  apply (runEncode_lasso _ _ _ _ 4 0); by_running.
Qed.

(** C5, counterexample.  Book "xa", original file "aa", duplicates
    disallowed, default buffers.  The first "a" is written as offset 1.  For
    the second, offset 1 is found and passed over twice; the counter stands
    at two.  Offset 1 is found a third time and is not accepted: the turn of
    the loop reloads the window and leaves the encoder in the very state it
    was in, so the session never writes a second offset. *)
Lemma C5_force_accept_counterexample :
  let book := bytes "xa" in
  let original := bytes "aa" in
  let st := outcome_state (runEncode sample_ram defaultOptions book original 5) in
  runEncode sample_ram defaultOptions book original 5 = Timeout st
  /\ bkCd st = offset_bytes 1
  /\ repeatsFound st = 2
  /\ nth (Z.to_nat (orgFilBufPos st)) (orgFilBuffer st) Byte.x00 = Byte.x61
  /\ nth (Z.to_nat (bkFilBufPos st)) (bkFilBuffer st) Byte.x00 = Byte.x61
  /\ forBody book (map_bkFilSize defaultOptions book)
             (map_bkFilBufSize defaultOptions book) defaultOptions st = inl st
  /\ diverges (runEncode sample_ram defaultOptions book original).
Proof.
  cbv zeta. do 6 (split; [by_running|]).
  apply (runEncode_lasso _ _ _ _ 4 0); by_running.
Qed.

(** C5, as amended (soft repeats).  With duplicates disallowed, a turn of
    the loop at a candidate (the buffer of the book holds the byte looked
    for at its cursor) never fails, and what it does depends on the digest
    entry of the byte.  A candidate that is not the entry is accepted: its
    offset is appended to the book code, becomes the entry, the counter is
    cleared and the next byte of the original file is looked for from the
    same place.  A candidate that is the entry is never accepted: nothing is
    written and the same byte is looked for.  While the counter is below two
    it is counted and the scan goes on in the same window, at the second
    byte of the buffer when the candidate was the last one.  Once the
    counter has reached two the window is reloaded, with the next window of
    the book, or with the first one at the end of the book or under [-r];
    the scan resumes at the second byte of the buffer and the counter is
    left as it is. *)
Theorem C5_soft_repeat_policy book bkFilSize bkFilBufSize optSt st :
  allowDuplicates optSt = false ->
  book_ok book bkFilSize bkFilBufSize ->
  window_ok book bkFilSize bkFilBufSize st ->
  0 <= bkFilBufPos st < bkFilBufSize ->
  let orgFilByte := nth (Z.to_nat (orgFilBufPos st)) (orgFilBuffer st) Byte.x00 in
  let byteOffset := bkFilPos st + bkFilBufPos st in
  nth (Z.to_nat (bkFilBufPos st)) (bkFilBuffer st) Byte.x00 = orgFilByte ->
  exists st',
    forBody book bkFilSize bkFilBufSize optSt st = inl st'
    /\ (to_u32 (offsetDigest st orgFilByte) <> byteOffset ->
        bkCd st' = bkCd st ++ offset_bytes byteOffset
        /\ orgFilBufPos st' = to_u32 (orgFilBufPos st + 1)
        /\ to_u32 (offsetDigest st' orgFilByte) = byteOffset
        /\ repeatsFound st' = 0
        /\ bkFilPos st' = bkFilPos st
        /\ bkFilBufPos st' = bkFilBufPos st
        /\ bkFilBuffer st' = bkFilBuffer st)
    /\ (to_u32 (offsetDigest st orgFilByte) = byteOffset ->
        bkCd st' = bkCd st
        /\ orgFilBufPos st' = orgFilBufPos st
        /\ offsetDigest st' = offsetDigest st
        /\ (repeatsFound st < 2 ->
            repeatsFound st' = repeatsFound st + 1
            /\ bkFilPos st' = bkFilPos st
            /\ bkFilBuffer st' = bkFilBuffer st
            /\ bkFilBufPos st'
               = if bkFilBufPos st =? bkFilBufSize - 1 then 1 else bkFilBufPos st + 1)
        /\ (2 <= repeatsFound st ->
            repeatsFound st' = repeatsFound st
            /\ bkFilPos st'
               = (if (bkFilSize - 1 <=? bkFilPos st + bkFilBufSize)
                     || resetAtEndOfBuf optSt
                  then 0 else bkFilPos st + bkFilBufSize)
            /\ bkFilBuffer st' = fread book (bkFilPos st') bkFilBufSize
            /\ bkFilBufPos st' = 1)).
Proof.
  intros Hdup B Hw Hpos orgFilByte byteOffset Hfound.
  destruct B as (HW & [K HK] & HWS & HSL & H32).
  destruct Hw as [[k Hk] Hlo Hhi Hstream Hbuf _].
  assert (Ho : to_u32 (bkFilBufPos st + bkFilPos st) = byteOffset)
    by (unfold byteOffset; rewrite to_u32_small; lia).
  assert (HW1 : to_size (bkFilBufSize - 1) = bkFilBufSize - 1)
    by (apply to_size_small; lia).
  assert (HS1 : to_size (bkFilSize - 1) = bkFilSize - 1)
    by (apply to_size_small; lia).
  assert (Hnext : to_u32 (bkFilPos st + bkFilBufSize) = bkFilPos st + bkFilBufSize)
    by (apply to_u32_small; lia).
  assert (H1 : to_u32 1 = 1) by reflexivity.
  unfold forBody. fold orgFilByte. rewrite Hfound, byte_eqb_refl, Hdup, Ho.
  cbn [negb andb].
  destruct (to_u32 (offsetDigest st orgFilByte) =? byteOffset) eqn:E.
  - apply Z.eqb_eq in E.
    destruct (2 <=? repeatsFound st) eqn:E2.
    + apply Z.leb_le in E2.
      assert (Hset : (offsetDigest st orgFilByte =? -1) = false).
      { apply Z.eqb_neq. intros Hu. rewrite Hu in E.
        change (to_u32 (-1)) with (2 ^ 32 - 1) in E. unfold byteOffset in E. lia. }
      unfold refillBuffer.
      cbn [bkFilPos set_bkFilBufPos set_bkFilPos offsetDigest bkFil].
      rewrite Hnext, HS1, Hset, Hstream.
      destruct ((bkFilSize - 1 <=? bkFilPos st + bkFilBufSize)
                || resetAtEndOfBuf optSt) eqn:Ewrap.
      * rewrite freadWErrCheck_full by lia.
        eexists. split; [reflexivity|]. split; [intros Hne; contradiction|].
        intros _. cbn. rewrite ?Ewrap, ?H1.
        do 3 (split; [reflexivity|]).
        split; [intros; lia | intros _; split_conj; reflexivity].
      * apply orb_false_elim in Ewrap. destruct Ewrap as [Eend _].
        apply Z.leb_gt in Eend.
        assert (k + 2 <= K) by nia.
        assert (bkFilPos st + bkFilBufSize + bkFilBufSize <= bkFilSize) by nia.
        rewrite freadWErrCheck_full by lia.
        eexists. split; [reflexivity|]. split; [intros Hne; contradiction|].
        intros _. cbn. rewrite ?Ewrap, ?H1.
        do 3 (split; [reflexivity|]).
        split; [intros; lia | intros _; split_conj; reflexivity].
    + apply Z.leb_gt in E2. rewrite HW1.
      eexists. split; [reflexivity|]. split; [intros Hne; contradiction|].
      intros _.
      destruct (bkFilBufPos st =? bkFilBufSize - 1) eqn:Elast; cbn;
        (do 3 (split; [reflexivity|]));
        (split; [intros _ | intros; lia]);
        split_conj; try reflexivity.
      apply to_u32_small. lia.
  - apply Z.eqb_neq in E.
    eexists. split; [reflexivity|]. split; [|intros He; contradiction].
    intros _. cbn. unfold digest_store. rewrite byte_eqb_refl.
    split_conj; try reflexivity.
    apply to_u32_to_i32. unfold byteOffset. lia.
Qed.

Lemma C5_soft_repeat_policy_witness :
  let book := bytes "xaya" in
  let optSt := withBookBuffer 2 defaultOptions in
  let size := map_bkFilSize optSt book in
  let W := map_bkFilBufSize optSt book in
  let turn n := outcome_state (runEncode sample_ram optSt book (bytes "aa") n) in
  let orgFilByte st := nth (Z.to_nat (orgFilBufPos st)) (orgFilBuffer st) Byte.x00 in
  let candidate st :=
    window_ok book size W st
    /\ 0 <= bkFilBufPos st < W
    /\ nth (Z.to_nat (bkFilBufPos st)) (bkFilBuffer st) Byte.x00 = orgFilByte st in
  let entry st := to_u32 (offsetDigest st (orgFilByte st)) in
  allowDuplicates optSt = false
  /\ book_ok book size W
  /\ (candidate (turn 3%nat)
      /\ entry (turn 3%nat) = bkFilPos (turn 3%nat) + bkFilBufPos (turn 3%nat)
      /\ repeatsFound (turn 3%nat) < 2
      /\ exists st',
           forBody book size W optSt (turn 3%nat) = inl st'
           /\ offsets_of (bkCd st') = [1]
           /\ repeatsFound st' = 1
           /\ bkFilPos st' = 0 /\ bkFilBufPos st' = 1)
  /\ (candidate (turn 5%nat)
      /\ entry (turn 5%nat) = bkFilPos (turn 5%nat) + bkFilBufPos (turn 5%nat)
      /\ 2 <= repeatsFound (turn 5%nat)
      /\ exists st',
           forBody book size W optSt (turn 5%nat) = inl st'
           /\ offsets_of (bkCd st') = [1]
           /\ repeatsFound st' = 2
           /\ bkFilPos st' = 2 /\ bkFilBufPos st' = 1
           /\ bkFilBuffer st' = bytes "ya")
  /\ (candidate (turn 6%nat)
      /\ entry (turn 6%nat) <> bkFilPos (turn 6%nat) + bkFilBufPos (turn 6%nat)
      /\ exists st',
           forBody book size W optSt (turn 6%nat) = inl st'
           /\ offsets_of (bkCd st') = [1; 3]
           /\ repeatsFound st' = 0
           /\ bkFilPos st' = 2 /\ bkFilBufPos st' = 1).
Proof.
  cbv beta zeta.
  assert (Hdup : allowDuplicates (withBookBuffer 2 defaultOptions) = false)
    by reflexivity.
  assert (B : book_ok (bytes "xaya")
                      (map_bkFilSize (withBookBuffer 2 defaultOptions) (bytes "xaya"))
                      (map_bkFilBufSize (withBookBuffer 2 defaultOptions) (bytes "xaya")))
    by (apply map_sizes_book_ok; reflexivity).
  split; [exact Hdup|]. split; [exact B|].
  pose proof (fun st => C5_soft_repeat_policy (bytes "xaya") _ _ _ st Hdup B) as policy.
  cbv zeta in policy.
  split; [|split].
  - lazymatch goal with
    | |- (?Pw /\ ?Pp /\ ?Pf) /\ ?Pe /\ ?Pg /\ _ =>
      assert (Hw : Pw) by (constructor; [exists 0| | | | |intros _]; by_running);
      assert (Hpos : Pp) by (split; by_running);
      assert (Hfound : Pf) by by_running;
      assert (Hentry : Pe) by by_running;
      assert (Hguard : Pg) by by_running
    end.
    destruct (policy _ Hw Hpos Hfound) as (st' & Hrun & _ & Hsame).
    destruct (Hsame Hentry) as (Hcd & _ & _ & Hsoft & _).
    destruct (Hsoft Hguard) as (Hr & Hp & _ & Hb).
    split; [split; [exact Hw | split; [exact Hpos | exact Hfound]]|].
    split; [exact Hentry|]. split; [exact Hguard|].
    exists st'. split; [exact Hrun|].
    split; [rewrite Hcd; by_running|]. split; [rewrite Hr; by_running|].
    split; [rewrite Hp; by_running | rewrite Hb; by_running].
  - lazymatch goal with
    | |- (?Pw /\ ?Pp /\ ?Pf) /\ ?Pe /\ ?Pg /\ _ =>
      assert (Hw : Pw) by (constructor; [exists 0| | | | |intros _]; by_running);
      assert (Hpos : Pp) by (split; by_running);
      assert (Hfound : Pf) by by_running;
      assert (Hentry : Pe) by by_running;
      assert (Hguard : Pg) by by_running
    end.
    destruct (policy _ Hw Hpos Hfound) as (st' & Hrun & _ & Hsame).
    destruct (Hsame Hentry) as (Hcd & _ & _ & _ & Hreload).
    destruct (Hreload Hguard) as (Hr & Hp & Hbuf & Hb).
    split; [split; [exact Hw | split; [exact Hpos | exact Hfound]]|].
    split; [exact Hentry|]. split; [exact Hguard|].
    exists st'. split; [exact Hrun|].
    split; [rewrite Hcd; by_running|]. split; [rewrite Hr; by_running|].
    split; [rewrite Hp; by_running|]. split; [exact Hb|].
    rewrite Hbuf, Hp. by_running.
  - lazymatch goal with
    | |- (?Pw /\ ?Pp /\ ?Pf) /\ ?Pe /\ _ =>
      assert (Hw : Pw) by (constructor; [exists 1| | | | |intros _]; by_running);
      assert (Hpos : Pp) by (split; by_running);
      assert (Hfound : Pf) by by_running;
      assert (Hentry : Pe) by by_running
    end.
    destruct (policy _ Hw Hpos Hfound) as (st' & Hrun & Hfresh & _).
    destruct (Hfresh Hentry) as (Hcd & _ & _ & Hr & Hp & Hb & _).
    split; [split; [exact Hw | split; [exact Hpos | exact Hfound]]|].
    split; [exact Hentry|].
    exists st'. split; [exact Hrun|].
    split; [rewrite Hcd; by_running|]. split; [exact Hr|].
    split; [rewrite Hp; by_running | rewrite Hb; by_running].
Defined.

(** C6 (no immediate repeat).  With duplicates disallowed, two offsets
    written for the same byte value with no offset for that value between
    them are different.  This holds of every book and window, so also when
    the window holds two occurrences of the value or more, and without
    exception: the encoder never writes the digest entry again. *)
Theorem C6_no_immediate_repeat ram optSt book original fuel :
  allowDuplicates optSt = false ->
  map_orgFilBufSize optSt original < 2 ^ 32 ->
  forall l1 b o1 l2 o2 l3,
    combine original
            (offsets_of (bkCd (outcome_state (runEncode ram optSt book original fuel))))
    = l1 ++ (b, o1) :: l2 ++ (b, o2) :: l3 ->
    ~ In b (map fst l2) ->
    o1 <> o2.
Proof.
  intros Hdup Hcc l1 b o1 l2 o2 l3 Hpairs Hbetween.
  destruct (runEncode_post ram optSt book original fuel (or_introl Hcc))
    as (log & Hlog & _).
  rewrite (logged_combine _ _ _ _ _ _ _ Hlog) in Hpairs.
  apply (no_repeat_consecutive log l1 b o1 l2 o2 l3); try assumption.
  apply (l_norepeat _ _ _ _ _ _ _ Hlog Hdup).
Qed.

Lemma C6_no_immediate_repeat_witness :
  let original := bytes "aa" in
  let code := bkCd (outcome_state
                      (runEncode sample_ram defaultOptions (bytes "abcabc") original 8)) in
  allowDuplicates defaultOptions = false
  /\ map_orgFilBufSize defaultOptions original < 2 ^ 32
  /\ combine original (offsets_of code)
     = [] ++ (Byte.x61, 0) :: [] ++ (Byte.x61, 3) :: []
  /\ ~ In Byte.x61 (map fst (@nil (byte * Z)))
  /\ 0 <> 3.
Proof.
  cbv zeta.
  assert (Hchunk : map_orgFilBufSize defaultOptions (bytes "aa") < 2 ^ 32)
    by reflexivity.
  assert (Hpairs : combine (bytes "aa")
                           (offsets_of
                              (bkCd (outcome_state
                                       (runEncode sample_ram defaultOptions
                                                  (bytes "abcabc") (bytes "aa") 8))))
                   = [] ++ (Byte.x61, 0) :: [] ++ (Byte.x61, 3) :: [])
    by by_running.
  assert (Hbetween : ~ In Byte.x61 (map fst (@nil (byte * Z)))) by (intros []).
  split; [reflexivity|]. split; [exact Hchunk|]. split; [exact Hpairs|].
  split; [exact Hbetween|].
  exact (C6_no_immediate_repeat sample_ram defaultOptions (bytes "abcabc") (bytes "aa") 8
                                eq_refl Hchunk _ _ _ _ _ _ Hpairs Hbetween).
Defined.

(** C7, at a failing input.  In the book "abcd" read through a window of two
    bytes, the only "c" is the first byte of the second window.  The reload
    leaves the cursor of the buffer on its second byte, "c" is never
    compared, and the session fails for want of entropy with nothing
    written. *)
Theorem C7_reload_skips_window_head :
  let book := bytes "abcd" in
  let optSt := withBookBuffer 2 defaultOptions in
  nth_error book 2 = Some Byte.x63
  /\ map_bkFilBufSize optSt book = 2
  /\ map_bkFilSize optSt book = 4
  /\ (exists st, runEncode sample_ram optSt book (bytes "c") 4
                 = Failed InsufficientEntropy st
                 /\ bkCd st = [])
  /\ forall fuel st, runEncode sample_ram optSt book (bytes "c") fuel <> Done st.
Proof.
  cbv zeta. repeat split.
  - eexists. split; vm_compute; reflexivity.
  - apply (runEncode_Failed_never_Done _ _ _ _ 4 InsufficientEntropy
             (outcome_state (runEncode sample_ram (withBookBuffer 2 defaultOptions)
                                       (bytes "abcd") (bytes "c") 4))).
    vm_compute. reflexivity.
Qed.

(** C8 (truncated book code).  With buffers [main] can run the loop with, a
    book code made of whole offsets followed by one to three more bytes is
    extracted without an error: the session returns, the trailing bytes
    count for nothing, and the extracted file holds one byte for each whole
    offset, [length / 4] of them rounded down. *)
Theorem C8_partial_unit_dropped ram optSt book whole partial :
  extract_sizes_ok ram optSt book ->
  (length whole mod 4 = 0)%nat ->
  (0 < length partial < 4)%nat ->
  exists N, forall fuel, (N <= fuel)%nat ->
    exists st,
      runDecode ram optSt book (whole ++ partial) fuel = Done st
      /\ extrFil st = map (extracted_byte book) (offsets_of whole)
      /\ Z.of_nat (length (extrFil st)) = Z.of_nat (length (whole ++ partial)) / 4.
Proof.
  intros Hok Hwhole Hpartial.
  destruct (runDecode_total ram optSt book (whole ++ partial) Hok) as (N & HN).
  exists N. intros fuel Hfuel. destruct (HN fuel Hfuel) as (st & Hrun & Hout).
  exists st. split; [exact Hrun|].
  assert (Hn : length whole = (4 * (length whole / 4))%nat).
  { pose proof (Nat.div_mod_eq (length whole) 4). lia. }
  split.
  - rewrite Hout. f_equal. apply (offsets_of_partial _ _ _ Hn). lia.
  - rewrite Hout, length_map. apply offsets_of_length.
Qed.

Lemma C8_partial_unit_dropped_witness :
  let book := bytes "abc" in
  let whole := offset_bytes 2 ++ offset_bytes 0 in
  let partial := [Byte.x01; Byte.x00] in
  extract_sizes_ok sample_ram defaultOptions book
  /\ (length whole mod 4 = 0)%nat
  /\ (0 < length partial < 4)%nat
  /\ exists N, forall fuel, (N <= fuel)%nat ->
       exists st,
         runDecode sample_ram defaultOptions book (whole ++ partial) fuel = Done st
         /\ extrFil st = map (extracted_byte book) (offsets_of whole)
         /\ Z.of_nat (length (extrFil st)) = Z.of_nat (length (whole ++ partial)) / 4.
Proof.
  cbv zeta.
  assert (Hsizes : extract_sizes_ok sample_ram defaultOptions (bytes "abc"))
    by (vm_compute; repeat split; congruence).
  assert (Hwhole : (length (offset_bytes 2 ++ offset_bytes 0) mod 4 = 0)%nat)
    by reflexivity.
  assert (Hpartial : (0 < length [Byte.x01; Byte.x00] < 4)%nat) by (cbn; lia).
  split; [exact Hsizes|]. split; [exact Hwhole|]. split; [exact Hpartial|].
  exact (C8_partial_unit_dropped _ _ _ _ _ Hsizes Hwhole Hpartial).
Defined.



(** C10 (offset past the end of the book).  With buffers [main] can run the
    loop with, an offset at or past the end of the book does not stop the
    extraction: the session returns with one byte for each whole offset of
    the book code, and the byte for such an offset is [0xFF], [EOF] cut down
    to a byte. *)
Theorem C10_out_of_range_offset ram optSt book bookCode :
  extract_sizes_ok ram optSt book ->
  exists N, forall fuel, (N <= fuel)%nat ->
    exists st,
      runDecode ram optSt book bookCode fuel = Done st
      /\ length (extrFil st) = length (offsets_of bookCode)
      /\ forall i o,
           nth_error (offsets_of bookCode) i = Some o ->
           Z.of_nat (length book) <= o ->
           nth_error (extrFil st) i = Some Byte.xff.
Proof.
  intros Hok.
  destruct (runDecode_total ram optSt book bookCode Hok) as (N & HN).
  exists N. intros fuel Hfuel. destruct (HN fuel Hfuel) as (st & Hrun & Hout).
  exists st. split; [exact Hrun|]. rewrite Hout. split; [apply length_map|].
  intros i o Hi Ho. rewrite nth_error_map, Hi. cbn [option_map].
  now rewrite extracted_byte_past.
Qed.

Lemma C10_out_of_range_offset_witness :
  let book := bytes "abc" in
  let bookCode := offset_bytes 1 ++ offset_bytes 7 ++ offset_bytes 2 in
  extract_sizes_ok sample_ram defaultOptions book
  /\ offsets_of bookCode = [1; 7; 2]
  /\ exists N, forall fuel, (N <= fuel)%nat ->
       exists st,
         runDecode sample_ram defaultOptions book bookCode fuel = Done st
         /\ length (extrFil st) = length (offsets_of bookCode)
         /\ forall i o,
              nth_error (offsets_of bookCode) i = Some o ->
              Z.of_nat (length book) <= o ->
              nth_error (extrFil st) i = Some Byte.xff.
Proof.
  cbv zeta.
  assert (Hsizes : extract_sizes_ok sample_ram defaultOptions (bytes "abc"))
    by (vm_compute; repeat split; congruence).
  split; [exact Hsizes|]. split; [reflexivity|].
  exact (C10_out_of_range_offset _ _ _ _ Hsizes).
Defined.

(** * The cursor of the book and the offsets it can reach *)

Section CursorSteps.

Variable book : list byte.
Variable bkFilSize : Z.
Variable bkFilBufSize : Z.
Variable original : list byte.
Variable optSt : optionsStruct.

Hypothesis B : book_ok book bkFilSize bkFilBufSize.

Local Abbreviation cursor_ok := (cursor_ok book bkFilSize bkFilBufSize optSt).
Local Abbreviation scannable := (scannable bkFilSize bkFilBufSize optSt).
Local Abbreviation reload := (refillBuffer book bkFilSize bkFilBufSize optSt).
Local Abbreviation body := (forBody book bkFilSize bkFilBufSize optSt).
Local Abbreviation chunk_run := (mapChunk book bkFilSize bkFilBufSize optSt).
Local Abbreviation session_run := (mapChunks book bkFilSize bkFilBufSize original optSt).
Local Abbreviation cursor_post := (cursor_post book bkFilSize bkFilBufSize optSt).

(** After a reload and the increment of the loop the cursor is at index 1
    of a whole window. *)
Lemma refillBuffer_cursor_ok b st st' :
  cursor_ok st -> reload b st = inl st' -> cursor_ok (next_bkFilBufPos st').
Proof.
  intros [[[k Hk] Hlo Hhi Hs Hwb Hwc] Hp Hh Hr Hc].
  destruct B as (HW & [k' Hk'] & Hone & Hfit & H32).
  unfold refillBuffer.
  cbn [bkFilPos set_bkFilBufPos set_bkFilPos offsetDigest bkFil].
  assert (H1 : to_u32 1 = 1) by reflexivity.
  destruct (_ || _) eqn:Ewrap.
  - destruct (_ =? -1); [discriminate|].
    destruct (freadWErrCheck book 0 bkFilBufSize) as [buf|] eqn:Er; [|discriminate].
    intros [= <-]. apply freadWErrCheck_Some in Er as [-> _].
    constructor; cbn; rewrite ?H1; try lia; try assumption.
    constructor; cbn; rewrite ?H1; try lia; try reflexivity. exists 0. lia.
  - destruct (freadWErrCheck book (bkFil st) bkFilBufSize) as [buf|] eqn:Er;
      [|discriminate].
    intros [= <-]. apply freadWErrCheck_Some in Er as [-> _].
    apply orb_false_iff in Ewrap as [Ewrap Ereset].
    apply Z.leb_gt in Ewrap.
    rewrite to_size_small in Ewrap by lia.
    rewrite to_u32_small in * by lia.
    assert (k + 2 <= k') by nia.
    assert (H1' : to_u32 1 = 1) by reflexivity.
    constructor; cbn; rewrite ?H1'; try lia; try assumption.
    + constructor; cbn; rewrite ?H1'; try lia; try nia.
      * exists (k + 1). lia.
      * now rewrite Hs.
    + rewrite Ereset. discriminate.
Qed.

(** An offset accepted is one the cursor can stand on. *)
Lemma accept_cursor_ok bkFilByte st :
  cursor_ok st -> bkFilBufPos st < bkFilBufSize ->
  cursor_ok (accept bkFilByte (to_u32 (bkFilBufPos st + bkFilPos st)) st).
Proof.
  intros [Hw Hp Hh Hr (os & Hos & Hall)] Hbuf.
  pose proof Hw as [[k Hk] Hlo Hhi Hs Hwb Hwc].
  destruct B as (HW & [k' Hk'] & Hone & Hfit & H32).
  rewrite to_u32_small by lia.
  constructor; cbn [accept bkFilPos bkFilBufPos bkCd]; try assumption.
  - destruct Hw. constructor; assumption.
  - exists (os ++ [bkFilBufPos st + bkFilPos st]). split.
    + rewrite Hos, flat_map_app. cbn [flat_map]. now rewrite app_nil_r.
    + apply Forall_app. split; [assumption|]. constructor; [|constructor].
      split; [lia|].
      destruct (Z.eq_dec (bkFilPos st) 0) as [E0|E0]; [left; lia|].
      right. destruct Hh as [Hh|Hh]; [contradiction|]. split.
      * rewrite Hk, Z.mod_add by lia. rewrite Z.mod_small; lia.
      * destruct (resetAtEndOfBuf optSt); [|reflexivity].
        now specialize (Hr eq_refl).
Qed.

(** A turn of the innermost loop that does not accept leaves the cursor one
    step further, or at index 1. *)
Lemma forBody_cursor_ok st st' :
  cursor_ok st -> bkFilBufPos st < bkFilBufSize ->
  body st = inl st' -> cursor_ok st'.
Proof.
  intros Hc Hbuf. unfold forBody.
  pose proof Hc as [Hw Hp Hh Hr Hcode].
  pose proof Hw as [Hm Hlo Hhi Hs Hwb Hwc].
  destruct B as (HW & _ & Hone & Hfit & H32).
  assert (Hnext : forall p,
             0 <= p < bkFilBufSize -> (2 <= bkFilBufSize -> p + 1 < bkFilBufSize) ->
             forall r, cursor_ok
                         (next_bkFilBufPos (set_repeatsFound r (set_bkFilBufPos p st)))).
  { intros p Hp0 Hp1 r.
    assert (Hu : to_u32 (p + 1) = p + 1) by (apply to_u32_small; lia).
    constructor; cbn; rewrite ?Hu; try lia; try assumption.
    constructor; cbn; rewrite ?Hu; assumption. }
  assert (Hsame : forall s, next_bkFilBufPos
                              (set_repeatsFound (repeatsFound s)
                                                (set_bkFilBufPos (bkFilBufPos s) s))
                            = next_bkFilBufPos s) by reflexivity.
  rewrite to_size_small by lia.
  destruct (Byte.eqb _ _).
  - destruct (negb _ && _).
    + destruct (2 <=? repeatsFound st).
      * destruct (reload _ st) as [st1|[e st1]] eqn:Er; [|discriminate].
        intros [= <-]. exact (refillBuffer_cursor_ok _ _ _ Hc Er).
      * destruct (bkFilBufPos st =? bkFilBufSize - 1) eqn:Elast; intros [= <-].
        -- apply (Hnext 0); lia.
        -- apply Z.eqb_neq in Elast. apply (Hnext (bkFilBufPos st)); lia.
    + intros [= <-]. now apply accept_cursor_ok.
  - destruct (bkFilBufPos st =? bkFilBufSize - 1) eqn:Elast.
    + destruct (reload _ st) as [st1|[e st1]] eqn:Er; [|discriminate].
      intros [= <-]. exact (refillBuffer_cursor_ok _ _ _ Hc Er).
    + intros [= <-]. apply Z.eqb_neq in Elast. rewrite <- Hsame.
      apply (Hnext (bkFilBufPos st)); lia.
Qed.

(** A turn that fails has written nothing. *)
Lemma forBody_Failed_bkCd st e st' : body st = inr (e, st') -> bkCd st' = bkCd st.
Proof.
  unfold forBody, refillBuffer.
  repeat match goal with
         | |- context [if ?c then _ else _] => destruct c
         | |- context [match freadWErrCheck ?f ?p ?n with _ => _ end] =>
           destruct (freadWErrCheck f p n)
         end;
    intros [= <- <-]; reflexivity.
Qed.

Lemma mapChunk_cursor_ok fuel cc : forall st,
  cursor_ok st -> cursor_post (chunk_run fuel cc st).
Proof.
  induction fuel as [|fuel IH]; intros st Hc; cbn [mapChunk]; [exact Hc|].
  destruct (orgFilBufPos st <? cc); [|exact Hc].
  destruct (bkFilPos st <? bkFilSize); [|now apply IH].
  destruct (bkFilBufPos st <? bkFilBufSize) eqn:Ebuf; [|now apply IH].
  apply Z.ltb_lt in Ebuf.
  destruct (body st) as [st'|[e st']] eqn:Ef.
  - apply IH. now apply (forBody_cursor_ok st).
  - exists st. split; [exact Hc|]. now apply (forBody_Failed_bkCd st e).
Qed.

Lemma set_orgFil_cursor_ok pos buf st :
  cursor_ok st -> cursor_ok (set_orgFil pos buf st).
Proof.
  intros [[? ? ? ? ? ?] ? ? ? ?]. constructor; cbn; try assumption.
  constructor; assumption.
Qed.

Lemma mapChunks_cursor_ok fuel : forall R cc st,
  cursor_ok st -> cursor_post (session_run fuel R cc st).
Proof.
  induction fuel as [|fuel IH]; intros R cc st Hc; cbn [mapChunks]; [exact Hc|].
  destruct (R =? 0); [exact Hc|].
  destruct (freadWErrCheck original (orgFil st) _) as [buf|]; [|now exists st].
  pose proof (mapChunk_cursor_ok fuel (if R <? cc then R else cc)
                (set_orgFil (orgFil st + (if R <? cc then R else cc)) buf st)
                (set_orgFil_cursor_ok _ _ _ Hc)) as Hpost.
  destruct (chunk_run fuel _ _) as [st1|e st1|st1]; [|exact Hpost|exact Hpost].
  now apply IH.
Qed.

End CursorSteps.

Lemma cursor_ok_start book bkFilSize bkFilBufSize optSt :
  book_ok book bkFilSize bkFilBufSize ->
  cursor_ok book bkFilSize bkFilBufSize optSt
            (set_bkFil (0 + bkFilBufSize) (fread book 0 bkFilBufSize) initialMapState).
Proof.
  intros (HW & _ & Hone & _).
  constructor; cbn; try lia; try reflexivity.
  - constructor; cbn; try lia; try reflexivity. exists 0. lia.
  - exists []. split; [reflexivity|constructor].
Qed.

Lemma cursor_post_code book bkFilSize bkFilBufSize optSt r :
  cursor_post book bkFilSize bkFilBufSize optSt r ->
  exists os,
    bkCd (outcome_state r) = flat_map offset_bytes os
    /\ Forall (scannable bkFilSize bkFilBufSize optSt) os.
Proof.
  destruct r as [st|e st|st]; cbn [cursor_post outcome_state].
  - apply c_code.
  - intros (st0 & Hc & ->). apply (c_code _ _ _ _ _ Hc).
  - apply c_code.
Qed.

(** Every offset of the book code of a session, however it stops, is one
    the cursor can stand on. *)
Lemma runEncode_scannable ram optSt book original fuel :
  Z.of_nat (length book) < 2 ^ 32 ->
  Forall (scannable (map_bkFilSize optSt book) (map_bkFilBufSize optSt book) optSt)
         (offsets_of (bkCd (outcome_state (runEncode ram optSt book original fuel)))).
Proof.
  intros H32.
  destruct (Z.lt_ge_cases 0 (map_bkFilBufSize optSt book)) as [HW|HW];
    [|rewrite runEncode_no_window by assumption; constructor].
  pose proof (map_sizes_book_ok optSt book HW H32) as B.
  assert (Hpost : cursor_post book (map_bkFilSize optSt book)
                              (map_bkFilBufSize optSt book) optSt
                              (runEncode ram optSt book original fuel)).
  { assert (Hnone : forall e,
               cursor_post book (map_bkFilSize optSt book)
                           (map_bkFilBufSize optSt book) optSt
                           (Failed e initialMapState)).
    { intros e. exists (set_bkFil (0 + map_bkFilBufSize optSt book)
                                  (fread book 0 (map_bkFilBufSize optSt book))
                                  initialMapState).
      split; [now apply cursor_ok_start | reflexivity]. }
    unfold runEncode, mapOffsets.
    destruct (ram <? _); [apply Hnone|].
    destruct (_ =? 0); [apply Hnone|].
    cbn [bkFil initialMapState].
    destruct (freadWErrCheck book 0 _) as [buf|] eqn:Er; [|apply Hnone].
    apply freadWErrCheck_Some in Er as [-> _].
    apply mapChunks_cursor_ok; [exact B | now apply cursor_ok_start]. }
  destruct (cursor_post_code _ _ _ _ _ Hpost) as (os & -> & Hall).
  rewrite offsets_of_flat_map; [exact Hall|].
  eapply Forall_impl; [|exact Hall].
  intros o [Ho _]. destruct B as (_ & _ & _ & Hfit & _). lia.
Qed.

Lemma runEncode_nil ram optSt book fuel :
  0 < map_bkFilBufSize optSt book ->
  map_orgFilBufSize optSt [] + map_bkFilBufSize optSt book <= ram ->
  exists st, runEncode ram optSt book [] (S fuel) = Done st /\ bkCd st = [].
Proof.
  intros HW Hram. unfold runEncode, mapOffsets.
  destruct (ram <? _) eqn:Em; [apply Z.ltb_lt in Em; lia|].
  destruct (_ =? 0) eqn:E0; [apply Z.eqb_eq in E0; lia|].
  cbn [bkFil initialMapState].
  rewrite freadWErrCheck_full
    by (pose proof (map_bkFilBufSize_le optSt book); lia).
  cbn. eexists. split; reflexivity.
Qed.

(** * Further properties of the sessions *)

(** X1 (reset-after-buffer keeps to the first window).  With [-r] every
    reload goes back to the start of the book, so whatever way a session
    over a book below [2^32] bytes stops, every offset of the book code it
    wrote lies inside the first window of the book. *)
Theorem reset_offsets_in_first_window ram optSt book original fuel :
  Z.of_nat (length book) < 2 ^ 32 ->
  resetAtEndOfBuf optSt = true ->
  Forall (fun o => 0 <= o < map_bkFilBufSize optSt book)
         (offsets_of (bkCd (outcome_state (runEncode ram optSt book original fuel)))).
Proof.
  intros H32 Hreset.
  eapply Forall_impl; [|exact (runEncode_scannable ram optSt book original fuel H32)].
  intros o [Ho [Hfirst | [_ Hno]]]; [lia|congruence].
Qed.

Lemma reset_offsets_in_first_window_witness :
  let book := bytes "abcabc" in
  let original := bytes "cab" in
  let optSt := withBookBuffer 3 (withReset defaultOptions) in
  Z.of_nat (length book) < 2 ^ 32
  /\ resetAtEndOfBuf optSt = true
  /\ Forall (fun o => 0 <= o < map_bkFilBufSize optSt book)
            (offsets_of (bkCd (outcome_state
                                 (runEncode sample_ram optSt book original 20)))).
Proof.
  cbv zeta.
  assert (Hbook : Z.of_nat (length (bytes "abcabc")) < 2 ^ 32) by reflexivity.
  assert (Hreset : resetAtEndOfBuf (withBookBuffer 3 (withReset defaultOptions)) = true)
    by reflexivity.
  split; [exact Hbook|]. split; [exact Hreset|].
  exact (reset_offsets_in_first_window _ _ _ _ _ Hbook Hreset).
Defined.

(** X2 (the first byte of a later window is never used).  Whatever way a
    session over a book below [2^32] bytes stops, no offset of the book code
    it wrote is the start of a window other than the first: after every
    reload the scan resumes at index 1 of the buffer. *)
Theorem window_heads_never_written ram optSt book original fuel :
  Z.of_nat (length book) < 2 ^ 32 ->
  Forall (fun o => 0 <= o < map_bkFilSize optSt book
                   /\ (map_bkFilBufSize optSt book <= o ->
                       o mod map_bkFilBufSize optSt book <> 0))
         (offsets_of (bkCd (outcome_state (runEncode ram optSt book original fuel)))).
Proof.
  intros H32.
  eapply Forall_impl; [|exact (runEncode_scannable ram optSt book original fuel H32)].
  intros o [Ho [Hfirst | [Hno _]]]; (split; [exact Ho|]); [lia|auto].
Qed.

Lemma window_heads_never_written_witness :
  let book := bytes "abcabc" in
  let original := bytes "cab" in
  let optSt := withBookBuffer 3 defaultOptions in
  Z.of_nat (length book) < 2 ^ 32
  /\ Forall (fun o => 0 <= o < map_bkFilSize optSt book
                      /\ (map_bkFilBufSize optSt book <= o ->
                          o mod map_bkFilBufSize optSt book <> 0))
            (offsets_of (bkCd (outcome_state
                                 (runEncode sample_ram optSt book original 20)))).
Proof.
  cbv zeta.
  assert (Hbook : Z.of_nat (length (bytes "abcabc")) < 2 ^ 32) by reflexivity.
  split; [exact Hbook|].
  exact (window_heads_never_written _ _ _ _ _ Hbook).
Defined.

(** X3 (what a session that returns has shown of the book).  When a session
    over a book below [2^32] bytes returns, every byte of the original file
    occurs in the book at an offset the scan can stop at: inside the part of
    the book cut to whole windows, not at the start of a window other than
    the first, and inside the first window under [-r]. *)
Theorem returned_session_bytes_scannable ram optSt book original fuel st :
  Z.of_nat (length book) < 2 ^ 32 ->
  runEncode ram optSt book original fuel = Done st ->
  forall b, In b original ->
    exists o,
      nth_error book (Z.to_nat o) = Some b
      /\ 0 <= o < map_bkFilSize optSt book
      /\ (o < map_bkFilBufSize optSt book
          \/ (o mod map_bkFilBufSize optSt book <> 0
              /\ resetAtEndOfBuf optSt = false)).
Proof.
  intros H32 Hd b Hb.
  destruct (runEncode_post ram optSt book original fuel
              (or_intror (ex_intro _ st Hd))) as (log & Hlog & Hall & _).
  pose proof (runEncode_scannable ram optSt book original fuel H32) as Hscan.
  rewrite Hd in Hlog, Hall, Hscan. cbn [outcome_state] in Hlog, Hscan.
  specialize (Hall st eq_refl).
  pose proof (map_sizes_book_ok optSt book
                (runEncode_Done_window _ _ _ _ _ _ Hd) H32) as B.
  pose proof (l_book _ _ _ _ _ _ _ Hlog B) as Hentries.
  rewrite (logged_offsets _ _ _ _ _ _ _ Hlog) in Hscan.
  rewrite <- Hall in Hb. apply in_map_iff in Hb as ([b' o] & Hfst & Hin).
  cbn [fst] in Hfst. subst b'.
  rewrite Forall_forall in Hentries, Hscan.
  destruct (Hentries (b, o) (proj2 (in_rev _ _) Hin)) as [_ Hn].
  destruct (Hscan o) as [Ho Hhead].
  { apply in_map_iff. now exists (b, o). }
  exists o. cbn [fst snd] in Hn. auto.
Qed.

Lemma returned_session_bytes_scannable_witness :
  let book := bytes "abcabc" in
  let original := bytes "aa" in
  let st := outcome_state (runEncode sample_ram defaultOptions book original 8) in
  Z.of_nat (length book) < 2 ^ 32
  /\ runEncode sample_ram defaultOptions book original 8 = Done st
  /\ forall b, In b original ->
       exists o,
         nth_error book (Z.to_nat o) = Some b
         /\ 0 <= o < map_bkFilSize defaultOptions book
         /\ (o < map_bkFilBufSize defaultOptions book
             \/ (o mod map_bkFilBufSize defaultOptions book <> 0
                 /\ resetAtEndOfBuf defaultOptions = false)).
Proof.
  cbv zeta.
  assert (Hbook : Z.of_nat (length (bytes "abcabc")) < 2 ^ 32) by reflexivity.
  assert (Hdone : runEncode sample_ram defaultOptions (bytes "abcabc") (bytes "aa") 8
                  = Done (outcome_state
                            (runEncode sample_ram defaultOptions
                                       (bytes "abcabc") (bytes "aa") 8)))
    by by_running.
  split; [exact Hbook|]. split; [exact Hdone|].
  exact (returned_session_bytes_scannable _ _ _ _ _ _ Hbook Hdone).
Defined.

(** X4 (an empty original file).  With a book file that is not empty and
    memory for its buffer, a session on an empty original file returns at
    once, whatever the options, and the book code it leaves is empty. *)
Theorem empty_original_returns ram optSt book fuel :
  0 < map_bkFilBufSize optSt book ->
  map_orgFilBufSize optSt [] + map_bkFilBufSize optSt book <= ram ->
  exists st, runEncode ram optSt book [] (S fuel) = Done st /\ bkCd st = [].
Proof. apply runEncode_nil. Qed.

Lemma empty_original_returns_witness :
  let book := bytes "abc" in
  0 < map_bkFilBufSize defaultOptions book
  /\ map_orgFilBufSize defaultOptions [] + map_bkFilBufSize defaultOptions book
     <= sample_ram
  /\ exists st, runEncode sample_ram defaultOptions book [] 1 = Done st
                /\ bkCd st = [].
Proof.
  cbv zeta.
  assert (HW : 0 < map_bkFilBufSize defaultOptions (bytes "abc")) by reflexivity.
  assert (Hram : map_orgFilBufSize defaultOptions []
                 + map_bkFilBufSize defaultOptions (bytes "abc") <= sample_ram)
    by by_running.
  split; [exact HW|]. split; [exact Hram|].
  exact (empty_original_returns sample_ram defaultOptions (bytes "abc") 0 HW Hram).
Defined.

(** X5 (an empty book file).  With an empty book file, or with
    [-s book_file_buffer=0], the buffer of the book is empty and a session
    that passes the memory check stops on the division of line 860 before
    anything is read or written, whatever the original file. *)
Theorem empty_book_divides_by_zero ram optSt book original fuel :
  book = [] \/ bkFilBufSizeGiven optSt = Some 0 ->
  match bkFilBufSizeGiven optSt with Some n => 0 <= n | None => True end ->
  map_orgFilBufSize optSt original <= ram ->
  runEncode ram optSt book original fuel = Failed DivisionByZero initialMapState.
Proof.
  intros Hcase Hreq Hram.
  assert (HW : map_bkFilBufSize optSt book = 0).
  { unfold map_bkFilBufSize. destruct Hcase as [-> | ->].
    - cbn [length Z.of_nat]. destruct (bkFilBufSizeGiven optSt) as [n|].
      + destruct (0 <? n) eqn:E; [reflexivity|]. apply Z.ltb_ge in E. lia.
      + reflexivity.
    - destruct (_ <? 0) eqn:E; [|reflexivity]. apply Z.ltb_lt in E. lia. }
  unfold runEncode. rewrite HW.
  destruct (ram <? _) eqn:Em; [apply Z.ltb_lt in Em; lia|]. reflexivity.
Qed.

Lemma empty_book_divides_by_zero_witness :
  let original := bytes "abc" in
  (@nil byte = [] \/ bkFilBufSizeGiven defaultOptions = Some 0)
  /\ match bkFilBufSizeGiven defaultOptions with Some n => 0 <= n | None => True end
  /\ map_orgFilBufSize defaultOptions original <= sample_ram
  /\ runEncode sample_ram defaultOptions [] original 5
     = Failed DivisionByZero initialMapState.
Proof.
  cbv zeta.
  assert (Hcase : @nil byte = [] \/ bkFilBufSizeGiven defaultOptions = Some 0)
    by (left; reflexivity).
  assert (Hreq : match bkFilBufSizeGiven defaultOptions with
                 | Some n => 0 <= n | None => True end) by exact I.
  assert (Hram : map_orgFilBufSize defaultOptions (bytes "abc") <= sample_ram)
    by by_running.
  split; [exact Hcase|]. split; [exact Hreq|]. split; [exact Hram|].
  exact (empty_book_divides_by_zero sample_ram defaultOptions [] (bytes "abc") 5
                                    Hcase Hreq Hram).
Defined.

(** * Further properties of an extraction *)

Section Overrun.

Variable book : list byte.
Variable bookCode : list byte.
Variable extrFilBufSize : Z.

(** A chunk with more offsets than the buffer of the extracted file has
    bytes: the [for] loop fills the buffer and goes on. *)
Lemma extractChunk_overrun chunk (room : nat) : forall todo fuel pos buf,
  extrFilBufSize = Z.of_nat room ->
  Z.of_nat room < Z.of_nat (length chunk) / sizeof_byteOffset ->
  Z.of_nat room < 2 ^ 32 ->
  (pos + todo = room)%nat -> (todo < fuel)%nat ->
  exists buf',
    extractChunk book extrFilBufSize fuel chunk (Z.of_nat pos) buf
    = Failed BufferOverrun buf'.
Proof.
  induction todo as [|todo IH]; intros fuel pos buf HE Hu H32 Hpos Hfuel;
    (destruct fuel as [|fuel]; [lia|]); cbn [extractChunk].
  - destruct (Z.of_nat pos <? _) eqn:E; [|apply Z.ltb_ge in E; lia].
    destruct (Z.of_nat pos <? extrFilBufSize) eqn:E'; [apply Z.ltb_lt in E'; lia|].
    now exists buf.
  - destruct (Z.of_nat pos <? _) eqn:E; [|apply Z.ltb_ge in E; lia].
    destruct (Z.of_nat pos <? extrFilBufSize) eqn:E'; [|apply Z.ltb_ge in E'; lia].
    rewrite to_u32_small by lia.
    replace (Z.of_nat pos + 1) with (Z.of_nat (S pos)) by lia.
    apply IH; try assumption; lia.
Qed.

(** With a chunk size of 0 every pass of the [while (1)] loop reads
    nothing, and nothing is never less than the chunk size. *)
Lemma extractLoop_empty_chunk fuel : forall st,
  exists s, extractLoop book bookCode 0 extrFilBufSize fuel st = Timeout s.
Proof.
  induction fuel as [|fuel IH]; intros st; cbn [extractLoop]; [now exists st|].
  assert (Hr : fread bookCode (bkCdRead st) 0 = []) by reflexivity.
  assert (Hc : forall f buf,
             extractChunk book extrFilBufSize (S f) [] 0 buf = Done buf)
    by reflexivity.
  rewrite Hr. destruct fuel as [|fuel]; [now eexists|].
  rewrite Hc. cbn [length Z.of_nat]. change (0 <? 0) with false. cbv iota.
  apply IH.
Qed.

End Overrun.

Lemma fread_start_length file n :
  0 <= n -> Z.of_nat (length (fread file 0 n)) = Z.min n (Z.of_nat (length file)).
Proof. intros Hn. unfold fread. cbn [Z.to_nat skipn]. rewrite length_firstn. lia. Qed.

Lemma offsets_of_nonneg code : Forall (fun o => 0 <= o) (offsets_of code).
Proof.
  remember (length code) as n eqn:Hn. revert code Hn.
  induction n as [n IH] using lt_wf_ind. intros code Hn.
  destruct code as [|b0 [|b1 [|b2 [|b3 rest]]]]; cbn [offsets_of];
    try (constructor; fail).
  constructor.
  - apply (le_combine_bound [b0; b1; b2; b3]).
  - apply (IH (length rest)); [subst n; cbn; lia | reflexivity].
Qed.

(** X22 (round trip of a session that returns).  When a session over a
    book below [2^32] bytes returns, extracting the book code it wrote
    against the same book, with buffers [main] can run the loop with,
    returns the original file, whatever the window, the chunks and the
    policies of the two sessions. *)
Theorem round_trip_of_encoded ram optSt book original fuel st ram' optSt' :
  Z.of_nat (length book) < 2 ^ 32 ->
  runEncode ram optSt book original fuel = Done st ->
  extract_sizes_ok ram' optSt' book ->
  exists N, forall fuel', (N <= fuel')%nat ->
    exists st',
      runDecode ram' optSt' book (bkCd st) fuel' = Done st'
      /\ extrFil st' = original.
Proof.
  intros H32 Hd Hok.
  destruct (runEncode_post ram optSt book original fuel
              (or_intror (ex_intro _ st Hd))) as (log & Hlog & Hall & _).
  rewrite Hd in Hlog, Hall. cbn [outcome_state] in Hlog.
  specialize (Hall st eq_refl).
  pose proof (map_sizes_book_ok optSt book
                (runEncode_Done_window _ _ _ _ _ _ Hd) H32) as B.
  pose proof (l_book _ _ _ _ _ _ _ Hlog B) as Hentries.
  destruct (runDecode_total ram' optSt' book (bkCd st) Hok) as (N & HN).
  exists N. intros fuel' Hfuel. destruct (HN fuel' Hfuel) as (st' & Hrun & Hout).
  exists st'. split; [exact Hrun|].
  rewrite Hout, (logged_offsets _ _ _ _ _ _ _ Hlog), <- Hall, map_map.
  apply map_ext_in. intros [b o] Hin.
  apply in_rev in Hin. rewrite Forall_forall in Hentries.
  destruct (Hentries _ Hin) as [Hr Hn]. cbn [fst snd] in *.
  apply extracted_byte_in; [lia|exact Hn].
Qed.

Lemma round_trip_of_encoded_witness :
  let book := bytes "abcabc" in
  let original := bytes "aa" in
  let st := outcome_state (runEncode sample_ram defaultOptions book original 8) in
  Z.of_nat (length book) < 2 ^ 32
  /\ runEncode sample_ram defaultOptions book original 8 = Done st
  /\ extract_sizes_ok sample_ram defaultOptions book
  /\ exists N, forall fuel', (N <= fuel')%nat ->
       exists st',
         runDecode sample_ram defaultOptions book (bkCd st) fuel' = Done st'
         /\ extrFil st' = original.
Proof.
  cbv zeta.
  assert (Hbook : Z.of_nat (length (bytes "abcabc")) < 2 ^ 32) by reflexivity.
  assert (Hdone : runEncode sample_ram defaultOptions (bytes "abcabc") (bytes "aa") 8
                  = Done (outcome_state
                            (runEncode sample_ram defaultOptions
                                       (bytes "abcabc") (bytes "aa") 8)))
    by by_running.
  assert (Hsizes : extract_sizes_ok sample_ram defaultOptions (bytes "abcabc"))
    by (vm_compute; repeat split; congruence).
  split; [exact Hbook|]. split; [exact Hdone|]. split; [exact Hsizes|].
  exact (round_trip_of_encoded _ _ _ _ _ _ _ _ Hbook Hdone Hsizes).
Defined.

(** X6 (extraction with the default buffers).  With the book code in a file
    and no buffer size given, an extraction against a book that is not empty
    and below [2^32] bytes returns for every book code, given memory for its
    two buffers; the extracted file has one byte for each whole offset, and
    for an offset inside the book it is the byte of the book there. *)
Theorem decode_with_default_buffers ram optSt book bookCode :
  readFromStdin optSt = false ->
  bkCdBufSizeGiven optSt = None -> extrFilBufSizeGiven optSt = None ->
  0 < Z.of_nat (length book) < 2 ^ 32 ->
  4 * Z.min DEFAULT_BUFFER_SIZE (Z.of_nat (length book)) + DEFAULT_BUFFER_SIZE <= ram ->
  exists N, forall fuel, (N <= fuel)%nat ->
    exists st,
      runDecode ram optSt book bookCode fuel = Done st
      /\ Z.of_nat (length (extrFil st)) = Z.of_nat (length bookCode) / 4
      /\ forall i o,
           nth_error (offsets_of bookCode) i = Some o ->
           o < Z.of_nat (length book) ->
           nth_error (extrFil st) i = nth_error book (Z.to_nat o).
Proof.
  intros Hfile Hcode Hextr Hbook Hram.
  assert (Hok : extract_sizes_ok ram optSt book).
  { apply extract_sizes_ok_from_file; try assumption;
      unfold extract_extrFilBufSize; rewrite ?Hcode, ?Hextr;
      unfold DEFAULT_BUFFER_SIZE in *; lia. }
  destruct (runDecode_total ram optSt book bookCode Hok) as (N & HN).
  exists N. intros fuel Hfuel. destruct (HN fuel Hfuel) as (st & Hrun & Hout).
  exists st. split; [exact Hrun|]. rewrite Hout. split.
  - rewrite length_map. apply offsets_of_length.
  - intros i o Hi Ho. rewrite nth_error_map, Hi. cbn [option_map].
    assert (H0 : 0 <= o).
    { apply nth_error_In in Hi.
      pose proof (offsets_of_nonneg bookCode) as Hall.
      rewrite Forall_forall in Hall. now apply Hall. }
    destruct (nth_error book (Z.to_nat o)) as [b|] eqn:En.
    + f_equal. now apply extracted_byte_in.
    + apply nth_error_None in En. lia.
Qed.

Lemma decode_with_default_buffers_witness :
  let book := bytes "abc" in
  let bookCode := offset_bytes 2 ++ offset_bytes 0 in
  readFromStdin defaultOptions = false
  /\ bkCdBufSizeGiven defaultOptions = None
  /\ extrFilBufSizeGiven defaultOptions = None
  /\ 0 < Z.of_nat (length book) < 2 ^ 32
  /\ 4 * Z.min DEFAULT_BUFFER_SIZE (Z.of_nat (length book)) + DEFAULT_BUFFER_SIZE
     <= sample_ram
  /\ exists N, forall fuel, (N <= fuel)%nat ->
       exists st,
         runDecode sample_ram defaultOptions book bookCode fuel = Done st
         /\ Z.of_nat (length (extrFil st)) = Z.of_nat (length bookCode) / 4
         /\ forall i o,
              nth_error (offsets_of bookCode) i = Some o ->
              o < Z.of_nat (length book) ->
              nth_error (extrFil st) i = nth_error book (Z.to_nat o).
Proof.
  cbv zeta.
  assert (Hbook : 0 < Z.of_nat (length (bytes "abc")) < 2 ^ 32)
    by (split; reflexivity).
  assert (Hram : 4 * Z.min DEFAULT_BUFFER_SIZE (Z.of_nat (length (bytes "abc")))
                 + DEFAULT_BUFFER_SIZE <= sample_ram) by by_running.
  split; [reflexivity|]. split; [reflexivity|]. split; [reflexivity|].
  split; [exact Hbook|]. split; [exact Hram|].
  exact (decode_with_default_buffers sample_ram defaultOptions (bytes "abc")
           (offset_bytes 2 ++ offset_bytes 0) eq_refl eq_refl eq_refl Hbook Hram).
Defined.

(** X7 (a chunk size of zero).  When the chunk size of the book code comes
    out as 0, as it does with an empty book file (the size compared with the
    request is the one of the book file) and with [-s book_code_buffer=n]
    for [n] below 4, an extraction that passes the memory check never
    returns: every [fread] asks for nothing and obtains nothing, which is
    not less than the chunk size. *)
Theorem decode_empty_chunk_never_returns ram optSt book bookCode :
  extract_bkCdBufSize optSt book = 0 ->
  extract_extrFilBufSize optSt <= ram ->
  diverges (runDecode ram optSt book bookCode).
Proof.
  intros HB Hram fuel. unfold runDecode, extractBytes. rewrite HB.
  destruct (ram <? _) eqn:Em; [apply Z.ltb_lt in Em; lia|].
  apply extractLoop_empty_chunk.
Qed.

Lemma decode_empty_chunk_never_returns_witness :
  let bookCode := offset_bytes 0 in
  extract_bkCdBufSize defaultOptions [] = 0
  /\ extract_extrFilBufSize defaultOptions <= sample_ram
  /\ diverges (runDecode sample_ram defaultOptions [] bookCode).
Proof.
  cbv zeta.
  assert (HB : extract_bkCdBufSize defaultOptions [] = 0) by reflexivity.
  assert (Hram : extract_extrFilBufSize defaultOptions <= sample_ram) by by_running.
  split; [exact HB|]. split; [exact Hram|].
  exact (decode_empty_chunk_never_returns sample_ram defaultOptions []
                                          (offset_bytes 0) HB Hram).
Defined.

(** X8 (a chunk the buffer of the extracted file cannot hold).  The loop of
    lines 369-380 stores one byte for each offset of the chunk and never
    looks at the size of the buffer it stores into: when the first chunk
    read holds more offsets than the buffer has bytes, the store goes past
    the end of the buffer before anything is written to the extracted
    file. *)
Theorem decode_chunk_overruns_buffer ram optSt book bookCode :
  let bkCdBufSize := extract_bkCdBufSize optSt book in
  let extrFilBufSize := extract_extrFilBufSize optSt in
  bkCdBufSize + extrFilBufSize <= ram ->
  0 <= extrFilBufSize < 2 ^ 32 ->
  extrFilBufSize < Z.min bkCdBufSize (Z.of_nat (length bookCode)) / 4 ->
  exists fuel st,
    runDecode ram optSt book bookCode fuel = Failed BufferOverrun st
    /\ extrFil st = [].
Proof.
  intros B E Hram HE Hmore. unfold runDecode, extractBytes. fold B E.
  destruct (ram <? _) eqn:Em; [apply Z.ltb_lt in Em; lia|].
  assert (HB : 0 <= B).
  { destruct (Z.lt_ge_cases B 0) as [Hneg|]; [|assumption].
    rewrite Z.min_l in Hmore by lia.
    pose proof (Z.div_lt_upper_bound B 4 0 ltac:(lia) ltac:(lia)). lia. }
  destruct (extractChunk_overrun book E (fread bookCode 0 B) (Z.to_nat E)
              (Z.to_nat E) (S (Z.to_nat E)) 0 (fun _ => Byte.x00))
    as (buf' & Hrun); try lia.
  { rewrite fread_start_length by assumption. unfold sizeof_byteOffset. lia. }
  exists (S (S (Z.to_nat E))). eexists.
  cbn [extractLoop initialExtractState bkCdRead extrFilBuffer extrFil].
  change (Z.of_nat 0) with 0 in Hrun. rewrite Hrun. split; reflexivity.
Qed.

Lemma decode_chunk_overruns_buffer_witness :
  let book := bytes "abc" in
  let optSt := withExtractedBuffer 1 defaultOptions in
  let bookCode := offset_bytes 0 ++ offset_bytes 1 in
  extract_bkCdBufSize optSt book + extract_extrFilBufSize optSt <= sample_ram
  /\ 0 <= extract_extrFilBufSize optSt < 2 ^ 32
  /\ extract_extrFilBufSize optSt
     < Z.min (extract_bkCdBufSize optSt book) (Z.of_nat (length bookCode)) / 4
  /\ exists fuel st,
       runDecode sample_ram optSt book bookCode fuel = Failed BufferOverrun st
       /\ extrFil st = [].
Proof.
  cbv zeta.
  assert (Hram : extract_bkCdBufSize (withExtractedBuffer 1 defaultOptions) (bytes "abc")
                 + extract_extrFilBufSize (withExtractedBuffer 1 defaultOptions)
                 <= sample_ram) by by_running.
  assert (HE : 0 <= extract_extrFilBufSize (withExtractedBuffer 1 defaultOptions)
               < 2 ^ 32) by (split; by_running).
  assert (Hmore : extract_extrFilBufSize (withExtractedBuffer 1 defaultOptions)
                  < Z.min (extract_bkCdBufSize (withExtractedBuffer 1 defaultOptions)
                                               (bytes "abc"))
                          (Z.of_nat (length (offset_bytes 0 ++ offset_bytes 1))) / 4)
    by by_running.
  split; [exact Hram|]. split; [exact HE|]. split; [exact Hmore|].
  exact (decode_chunk_overruns_buffer sample_ram (withExtractedBuffer 1 defaultOptions)
           (bytes "abc") (offset_bytes 0 ++ offset_bytes 1) Hram HE Hmore).
Defined.

(** * The unit of a buffer size *)

Lemma isalpha_not_isdigit c : isalpha c = true -> isdigit c = false.
Proof.
  unfold isalpha, isdigit. cbv zeta. intros H.
  apply orb_true_iff in H.
  apply andb_false_iff.
  destruct H as [H|H]; apply andb_true_iff in H as [H1 H2];
    apply Z.leb_le in H1; apply Z.leb_le in H2;
    right; apply Z.leb_gt; lia.
Qed.

(** The loop stops at the first letter, whatever stands before it. *)
Lemma getBufSizeMultiple_loop_letter rest c : forall pre done valString todo,
  (length pre < todo)%nat ->
  Forall (fun x => isalpha x = false) pre -> isalpha c = true ->
  exists valString',
    getBufSizeMultiple_loop todo (done ++ pre ++ c :: rest)
                            (Z.of_nat (length done)) valString
    = Some (Z.of_nat (length done + length pre) + 1, valString')
    /\ valString' (Z.of_nat (length done + length pre)) = c.
Proof.
  induction pre as [|x pre IH]; intros done valString todo Htodo Hpre Hc;
    (destruct todo as [|todo]; [cbn in Htodo; lia|]);
    cbn [getBufSizeMultiple_loop]; rewrite Nat2Z.id;
    rewrite nth_error_app2, Nat.sub_diag by lia; cbn [app nth_error].
  - rewrite (isalpha_not_isdigit c Hc), Hc. rewrite Nat.add_0_r.
    eexists. split; [reflexivity|]. unfold buffer_store. now rewrite Z.eqb_refl.
  - inversion Hpre as [|? ? Hx Hpre']; subst. rewrite Hx.
    assert (Hnext : Z.of_nat (length done) + 1 = Z.of_nat (length (done ++ [x])))
      by (rewrite length_app; cbn; lia).
    assert (Hval : done ++ x :: pre ++ c :: rest = (done ++ [x]) ++ pre ++ c :: rest)
      by (now rewrite <- app_assoc).
    assert (Hlen : (length done + length (x :: pre) = length (done ++ [x]) + length pre)%nat)
      by (rewrite length_app; cbn; lia).
    rewrite Hnext, Hval, Hlen. cbn in Htodo.
    destruct (isdigit x); apply IH; try assumption; lia.
Qed.

(** X9 (the unit of a buffer size).  [getBufSizeMultiple] takes the unit
    from the first letter among the first 13 characters at [value]: 1024
    for [k] or [K], 1024 * 1024 for [m] or [M], 1 for any other letter.
    Whatever is not a letter before it is passed over, digits or not, the
    terminator of the value included. *)
Theorem getBufSizeMultiple_first_letter pre c rest :
  (length pre < MAX_DIGITS)%nat ->
  Forall (fun x => isalpha x = false) pre -> isalpha c = true ->
  getBufSizeMultiple (pre ++ c :: rest)
  = Some (if Byte.eqb c "m" || Byte.eqb c "M" then 1024 * 1024
          else if Byte.eqb c "k" || Byte.eqb c "K" then 1024
          else 1).
Proof.
  intros Hlen Hpre Hc. unfold getBufSizeMultiple.
  destruct (getBufSizeMultiple_loop_letter rest c pre [] (fun _ => Byte.x00)
              MAX_DIGITS Hlen Hpre Hc) as (valString' & Hrun & Hlast).
  cbn [app length Nat.add Z.of_nat] in Hrun, Hlast. rewrite Hrun. cbv zeta.
  replace (Z.of_nat (length pre) + 1 - 1) with (Z.of_nat (length pre)) by lia.
  rewrite Hlast.
  destruct (Byte.eqb c "m" || Byte.eqb c "M");
    destruct (Byte.eqb c "k" || Byte.eqb c "K");
    destruct (Byte.eqb c "b" || Byte.eqb c "B"); reflexivity.
Qed.

Lemma getBufSizeMultiple_first_letter_witness :
  let pre := bytes "512" ++ [Byte.x00] in
  let c := Byte.x6d in
  let rest := bytes "ap" in
  (length pre < MAX_DIGITS)%nat
  /\ Forall (fun x => isalpha x = false) pre
  /\ isalpha c = true
  /\ getBufSizeMultiple (pre ++ c :: rest)
     = Some (if Byte.eqb c "m" || Byte.eqb c "M" then 1024 * 1024
             else if Byte.eqb c "k" || Byte.eqb c "K" then 1024
             else 1).
Proof.
  cbv zeta.
  assert (Hlen : (length (bytes "512" ++ [Byte.x00]) < MAX_DIGITS)%nat)
    by (vm_compute; lia).
  assert (Hpre : Forall (fun x => isalpha x = false) (bytes "512" ++ [Byte.x00]))
    by (repeat constructor).
  assert (Hc : isalpha Byte.x6d = true) by reflexivity.
  split; [exact Hlen|]. split; [exact Hpre|]. split; [exact Hc|].
  exact (getBufSizeMultiple_first_letter (bytes "512" ++ [Byte.x00]) Byte.x6d (bytes "ap")
                                         Hlen Hpre Hc).
Defined.

(** Without a letter the loop runs its 13 turns and copies no letter. *)
Lemma getBufSizeMultiple_loop_no_letter rest : forall pre done valString,
  Forall (fun x => isalpha x = false) pre ->
  (forall i, isalpha (valString i) = false) ->
  exists valString',
    getBufSizeMultiple_loop (length pre) (done ++ pre ++ rest)
                            (Z.of_nat (length done)) valString
    = Some (Z.of_nat (length done + length pre), valString')
    /\ forall i, isalpha (valString' i) = false.
Proof.
  induction pre as [|x pre IH]; intros done valString Hpre Hvs;
    cbn [length getBufSizeMultiple_loop].
  - rewrite Nat.add_0_r. now exists valString.
  - rewrite Nat2Z.id, nth_error_app2, Nat.sub_diag by lia. cbn [app nth_error].
    inversion Hpre as [|? ? Hx Hpre']; subst. rewrite Hx.
    assert (Hnext : Z.of_nat (length done) + 1 = Z.of_nat (length (done ++ [x])))
      by (rewrite length_app; cbn; lia).
    assert (Hval : done ++ x :: pre ++ rest = (done ++ [x]) ++ pre ++ rest)
      by (now rewrite <- app_assoc).
    assert (Hlen : (length done + S (length pre) = length (done ++ [x]) + length pre)%nat)
      by (rewrite length_app; cbn; lia).
    rewrite Hnext, Hval, Hlen.
    destruct (isdigit x); apply IH; try assumption.
    intros i. unfold buffer_store. destruct (i =? _); [exact Hx | apply Hvs].
Qed.

(** X10 (no unit within 13 characters).  When none of the first 13
    characters at [value] is a letter the unit is 1: a unit that follows 13
    digits or more is not seen. *)
Theorem getBufSizeMultiple_no_letter pre rest :
  length pre = MAX_DIGITS ->
  Forall (fun x => isalpha x = false) pre ->
  getBufSizeMultiple (pre ++ rest) = Some 1.
Proof.
  intros Hlen Hpre. unfold getBufSizeMultiple.
  destruct (getBufSizeMultiple_loop_no_letter rest pre [] (fun _ => Byte.x00) Hpre)
    as (valString' & Hrun & Hlast); [reflexivity|].
  cbn [app length Nat.add Z.of_nat] in Hrun. rewrite Hlen in Hrun.
  rewrite Hrun. cbv zeta.
  assert (Hno : forall i (l : byte),
             isalpha l = true -> Byte.eqb (valString' i) l = false).
  { intros i l Hl. destruct (Byte.eqb _ l) eqn:E; [|reflexivity].
    apply byte_eqb_true in E. rewrite <- E, Hlast in Hl. discriminate. }
  rewrite !Hno by reflexivity. reflexivity.
Qed.

Lemma getBufSizeMultiple_no_letter_witness :
  let pre := bytes "1234567890123" in
  let rest := bytes "k" in
  length pre = MAX_DIGITS
  /\ Forall (fun x => isalpha x = false) pre
  /\ getBufSizeMultiple (pre ++ rest) = Some 1.
Proof.
  cbv zeta.
  assert (Hlen : length (bytes "1234567890123") = MAX_DIGITS) by reflexivity.
  assert (Hpre : Forall (fun x => isalpha x = false) (bytes "1234567890123"))
    by (repeat constructor).
  split; [exact Hlen|]. split; [exact Hpre|].
  exact (getBufSizeMultiple_no_letter (bytes "1234567890123") (bytes "k") Hlen Hpre).
Defined.

(** * The chunks of the original file do not matter *)

Lemma same_book_refl s : same_book s s.
Proof. constructor; reflexivity. Qed.

Lemma same_book_sym s t : same_book s t -> same_book t s.
Proof. intros [? ? ? ? ? ? ?]. constructor; congruence. Qed.

Lemma same_book_trans s t u : same_book s t -> same_book t u -> same_book s u.
Proof. intros [? ? ? ? ? ? ?] [? ? ? ? ? ? ?]. constructor; congruence. Qed.

Lemma same_book_set_orgFil pos buf s : same_book (set_orgFil pos buf s) s.
Proof. constructor; reflexivity. Qed.

Lemma same_outcome_sym r r' : same_outcome r r' -> same_outcome r' r.
Proof.
  destruct r, r'; cbn; try contradiction; try apply same_book_sym.
  intros [-> H]. split; [reflexivity | now apply same_book_sym].
Qed.

Lemma same_outcome_trans r1 r2 r3 :
  same_outcome r1 r2 -> same_outcome r2 r3 -> same_outcome r1 r3.
Proof.
  destruct r1, r2, r3; cbn; try contradiction; try apply same_book_trans.
  intros [-> H] [-> H']. split; [reflexivity | now apply (same_book_trans _ s0)].
Qed.

Lemma skipn_nth_cons {A} (l : list A) : forall n d,
  (n < length l)%nat -> skipn n l = nth n l d :: skipn (S n) l.
Proof.
  induction l as [|x l IH]; intros n d Hn; [cbn in Hn; lia|].
  destruct n as [|n]; [reflexivity|]. cbn [skipn nth]. apply IH. cbn in Hn. lia.
Qed.

Section ByBytes.

Variable book : list byte.
Variable bkFilSize : Z.
Variable bkFilBufSize : Z.
Variable optSt : optionsStruct.

Local Abbreviation body := (forBody book bkFilSize bkFilBufSize optSt).
Local Abbreviation chunk_run := (mapChunk book bkFilSize bkFilBufSize optSt).
Local Abbreviation bytes_run := (mapBytes book bkFilSize bkFilBufSize optSt).

(** One turn of the innermost loop reads the original file through the
    byte being mapped and nothing else. *)
Lemma forBody_same_book s t :
  same_book s t ->
  nth (Z.to_nat (orgFilBufPos s)) (orgFilBuffer s) Byte.x00
  = nth (Z.to_nat (orgFilBufPos t)) (orgFilBuffer t) Byte.x00 ->
  match body s, body t with
  | inl s', inl t' =>
    same_book s' t'
    /\ orgFilBuffer s' = orgFilBuffer s /\ orgFilBuffer t' = orgFilBuffer t
    /\ ((orgFilBufPos s' = orgFilBufPos s /\ orgFilBufPos t' = orgFilBufPos t)
        \/ (orgFilBufPos s' = to_u32 (orgFilBufPos s + 1)
            /\ orgFilBufPos t' = to_u32 (orgFilBufPos t + 1)))
  | inr (e, s'), inr (e', t') => e = e' /\ same_book s' t'
  | _, _ => False
  end.
Proof.
  intros [H1 H2 H3 H4 H5 H6 H7] Hb.
  destruct s, t. cbn in H1, H2, H3, H4, H5, H6, H7, Hb. subst.
  unfold forBody, refillBuffer.
  cbn [bkFilPos bkFilBufPos bkFilBuffer orgFilBufPos orgFilBuffer repeatsFound
       set_bkFilBufPos set_bkFilPos offsetDigest bkFil].
  rewrite <- Hb.
  repeat match goal with
         | |- context [if ?c then _ else _] => destruct c
         | |- context [match freadWErrCheck ?f ?p ?n with _ => _ end] =>
           destruct (freadWErrCheck f p n)
         end;
    repeat split; cbn; auto; try congruence.
Qed.

(** A chunk is mapped as its bytes are. *)
Lemma mapChunk_mapBytes fuel cc : forall s t,
  same_book s t -> 0 <= orgFilBufPos s ->
  cc = Z.of_nat (length (orgFilBuffer s)) -> cc < 2 ^ 32 ->
  same_outcome (chunk_run fuel cc s)
               (bytes_run fuel (skipn (Z.to_nat (orgFilBufPos s)) (orgFilBuffer s)) t).
Proof.
  induction fuel as [|fuel IH]; intros s t Hst Hpos Hcc H32;
    cbn [mapChunk mapBytes]; [exact Hst|].
  destruct (orgFilBufPos s <? cc) eqn:Epos.
  - apply Z.ltb_lt in Epos.
    rewrite (skipn_nth_cons (orgFilBuffer s) (Z.to_nat (orgFilBufPos s)) Byte.x00)
      by lia.
    rewrite <- (sb_bkFilPos _ _ Hst), <- (sb_bkFilBufPos _ _ Hst).
    set (b := nth (Z.to_nat (orgFilBufPos s)) (orgFilBuffer s) Byte.x00).
    assert (Hsame : forall t,
               bytes_run fuel (skipn (Z.to_nat (orgFilBufPos s)) (orgFilBuffer s)) t
               = bytes_run fuel
                   (b :: skipn (S (Z.to_nat (orgFilBufPos s))) (orgFilBuffer s)) t)
      by (intros t0; now rewrite (skipn_nth_cons (orgFilBuffer s) _ Byte.x00) by lia).
    destruct (bkFilPos s <? bkFilSize); [|rewrite <- Hsame; now apply IH].
    destruct (bkFilBufPos s <? bkFilBufSize); [|rewrite <- Hsame; now apply IH].
    pose proof (forBody_same_book s (set_orgFil 0 [b] t)
                  (same_book_trans _ _ _ Hst
                     (same_book_sym _ _ (same_book_set_orgFil 0 [b] t)))
                  eq_refl) as Hstep.
    destruct (body s) as [s'|[e s']], (body (set_orgFil 0 [b] t)) as [t'|[e' t']];
      try contradiction; [|exact Hstep].
    destruct Hstep as (Hst' & Hbuf & _ & [[Hs Ht] | [Hs Ht]]);
      cbn [set_orgFil orgFilBufPos] in Ht; rewrite Ht.
    + change (0 =? 0) with true. cbv iota.
      specialize (IH s' t' Hst'). rewrite Hs, Hbuf in IH.
      rewrite <- Hsame. apply IH; assumption.
    + change (to_u32 (0 + 1) =? 0) with false. cbv iota.
      specialize (IH s' t' Hst'). rewrite Hs, Hbuf in IH.
      rewrite to_u32_small in IH by lia.
      replace (Z.to_nat (orgFilBufPos s + 1)) with (S (Z.to_nat (orgFilBufPos s)))
        in IH by lia.
      apply IH; [lia | assumption | assumption].
  - apply Z.ltb_ge in Epos. rewrite skipn_all2 by lia. exact Hst.
Qed.

(** More fuel does not change the way a run over the bytes stops. *)
Lemma mapBytes_mono n : forall m bs t r,
  bytes_run n bs t = r -> (forall s, r <> Timeout s) -> (n <= m)%nat ->
  bytes_run m bs t = r.
Proof.
  induction n as [|n IH]; intros m bs t r Hr Hnt Hle; cbn [mapBytes] in Hr.
  - subst r. now destruct (Hnt t).
  - destruct m as [|m]; [lia|]. cbn [mapBytes].
    destruct bs as [|b rest]; [exact Hr|].
    destruct (bkFilPos t <? bkFilSize); [|apply IH; [assumption|assumption|lia]].
    destruct (bkFilBufPos t <? bkFilBufSize); [|apply IH; [assumption|assumption|lia]].
    destruct (body _) as [t'|[e t']]; [|exact Hr].
    destruct (orgFilBufPos t' =? 0); apply IH; try assumption; lia.
Qed.

(** A run that fails on the first bytes of a list fails on the list. *)
Lemma mapBytes_app_Failed n ys : forall xs t e t1,
  bytes_run n xs t = Failed e t1 -> bytes_run n (xs ++ ys) t = Failed e t1.
Proof.
  induction n as [|n IH]; intros xs t e t1; cbn [mapBytes]; [discriminate|].
  destruct xs as [|b rest]; [discriminate|]. cbn [app].
  destruct (bkFilPos t <? bkFilSize); [|apply (IH (b :: rest))].
  destruct (bkFilBufPos t <? bkFilBufSize); [|apply (IH (b :: rest))].
  destruct (body _) as [t'|[e' t']]; [|auto].
  destruct (orgFilBufPos t' =? 0); [apply (IH (b :: rest)) | apply IH].
Qed.

(** A run that returns on the first bytes of a list took a number of turns
    over them, after which the run on the list stands at the bytes that
    follow. *)
Lemma mapBytes_app_Done n : forall xs t t1,
  bytes_run n xs t = Done t1 ->
  exists k, forall g ys, bytes_run (k + g) (xs ++ ys) t = bytes_run g ys t1.
Proof.
  induction n as [|n IH]; intros xs t t1; cbn [mapBytes]; [discriminate|].
  assert (Hstutter : forall xs',
             bytes_run n xs' t = Done t1 ->
             (forall g ys, bytes_run (S g) (xs' ++ ys) t = bytes_run g (xs' ++ ys) t) ->
             exists k, forall g ys, bytes_run (k + g) (xs' ++ ys) t = bytes_run g ys t1).
  { intros xs' Hd Hs. destruct (IH _ _ _ Hd) as (k & Hk).
    exists (S k). intros g ys. cbn [Nat.add]. rewrite Hs. apply Hk. }
  destruct xs as [|b rest].
  - intros [= <-]. now exists 0%nat.
  - destruct (bkFilPos t <? bkFilSize) eqn:E1.
    + destruct (bkFilBufPos t <? bkFilBufSize) eqn:E2.
      * destruct (body _) as [t'|[e' t']] eqn:Ef; [|discriminate].
        destruct (orgFilBufPos t' =? 0) eqn:E0; intros Hd;
          destruct (IH _ _ _ Hd) as (k & Hk); exists (S k); intros g ys;
          cbn [Nat.add app mapBytes]; rewrite E1, E2, Ef, E0; apply Hk.
      * intros Hd. apply (Hstutter _ Hd). intros g ys.
        cbn [app mapBytes]. now rewrite E1, E2.
    + intros Hd. apply (Hstutter _ Hd). intros g ys.
      cbn [app mapBytes]. now rewrite E1.
Qed.

(** A run on a list that stops went through its first bytes. *)
Lemma mapBytes_app_inv n ys : forall xs t r,
  bytes_run n (xs ++ ys) t = r -> (forall s, r <> Timeout s) ->
  (exists t1, bytes_run n xs t = Done t1 /\ bytes_run n ys t1 = r)
  \/ (exists e t1, bytes_run n xs t = Failed e t1 /\ r = Failed e t1).
Proof.
  induction n as [|n IH]; intros xs t r Hr Hnt.
  - cbn in Hr. subst r. now destruct (Hnt t).
  - assert (Hlift : forall xs' t',
               bytes_run n (xs' ++ ys) t' = r ->
               (exists t1, bytes_run n xs' t' = Done t1 /\ bytes_run (S n) ys t1 = r)
               \/ (exists e t1, bytes_run n xs' t' = Failed e t1 /\ r = Failed e t1)).
    { intros xs' t' Hr'. destruct (IH _ _ _ Hr' Hnt) as [(t1 & Hd & Hy) | Hf];
        [left | right; exact Hf].
      exists t1. split; [exact Hd|].
      apply (mapBytes_mono n); [exact Hy | exact Hnt | lia]. }
    destruct xs as [|b rest]; [left; exists t; split; [reflexivity | exact Hr]|].
    cbn [app mapBytes] in Hr |- *.
    destruct (bkFilPos t <? bkFilSize); [|apply (Hlift (b :: rest)), Hr].
    destruct (bkFilBufPos t <? bkFilBufSize); [|apply (Hlift (b :: rest)), Hr].
    destruct (body _) as [t'|[e' t']].
    + destruct (orgFilBufPos t' =? 0); [apply (Hlift (b :: rest)), Hr | apply Hlift, Hr].
    + right. exists e', t'. split; [reflexivity | now symmetry].
Qed.

End ByBytes.

Lemma fread_app_skipn file pos n :
  0 <= pos -> 0 <= n ->
  fread file pos n ++ skipn (Z.to_nat (pos + n)) file = skipn (Z.to_nat pos) file.
Proof.
  intros Hpos Hn. unfold fread.
  replace (Z.to_nat (pos + n)) with (Z.to_nat n + Z.to_nat pos)%nat by lia.
  rewrite <- skipn_skipn. apply firstn_skipn.
Qed.

Lemma same_outcome_not_Timeout r r' :
  same_outcome r r' -> (forall x, r' <> Timeout x) -> forall x, r <> Timeout x.
Proof.
  intros H Hnt x ->. destruct r'; cbn in H; try contradiction. now apply (Hnt s).
Qed.

Section BySession.

Variable book : list byte.
Variable bkFilSize : Z.
Variable bkFilBufSize : Z.
Variable original : list byte.
Variable optSt : optionsStruct.

Local Abbreviation chunk_run := (mapChunk book bkFilSize bkFilBufSize optSt).
Local Abbreviation session_run := (mapChunks book bkFilSize bkFilBufSize original optSt).
Local Abbreviation bytes_run := (mapBytes book bkFilSize bkFilBufSize optSt).

(** What the loop over the chunks does to the book and the book code is
    what the run over the bytes left of the original file does. *)
Lemma mapChunks_to_mapBytes fuel : forall R ccmax s t r,
  same_book s t -> 0 <= orgFil s ->
  R = Z.of_nat (length original) - orgFil s -> 0 <= R ->
  0 <= ccmax < 2 ^ 32 ->
  session_run fuel R ccmax s = r -> (forall x, r <> Timeout x) ->
  exists fuel',
    same_outcome r (bytes_run fuel' (skipn (Z.to_nat (orgFil s)) original) t).
Proof.
  induction fuel as [|fuel IH]; intros R ccmax s t r Hst Hpos HR HR0 Hmax Hr Hnt;
    cbn [mapChunks] in Hr.
  - subst r. now destruct (Hnt s).
  - destruct (R =? 0) eqn:ER.
    + apply Z.eqb_eq in ER. subst r. exists 1%nat.
      rewrite skipn_all2 by lia. exact Hst.
    + apply Z.eqb_neq in ER.
      set (cc' := if R <? ccmax then R else ccmax) in *.
      assert (Hcc' : 0 <= cc' <= R /\ cc' < 2 ^ 32)
        by (unfold cc'; destruct (R <? ccmax) eqn:E;
            [apply Z.ltb_lt in E | apply Z.ltb_ge in E]; lia).
      rewrite freadWErrCheck_full in Hr by lia.
      set (buf := fread original (orgFil s) cc') in *.
      assert (Hlen : Z.of_nat (length buf) = cc') by (apply fread_length; lia).
      pose proof (mapChunk_mapBytes book bkFilSize bkFilBufSize optSt fuel cc'
                    (set_orgFil (orgFil s + cc') buf s) t
                    (same_book_trans _ _ _ (same_book_set_orgFil _ _ s) Hst))
        as HA.
      cbn [set_orgFil orgFilBufPos orgFilBuffer Z.to_nat skipn] in HA.
      specialize (HA ltac:(lia) ltac:(lia) ltac:(lia)).
      assert (Hsplit : buf ++ skipn (Z.to_nat (orgFil s + cc')) original
                       = skipn (Z.to_nat (orgFil s)) original)
        by (apply fread_app_skipn; lia).
      destruct (chunk_run fuel cc' _) as [s1|e s1|s1] eqn:Em.
      * destruct (bytes_run fuel buf t) as [t1|e t1|t1] eqn:Eb; try contradiction.
        assert (Hfil : orgFil s1 = orgFil s + cc')
          by (rewrite (mapChunk_orgFil _ _ _ _ _ _ _ _ Em); reflexivity).
        destruct (IH (R - cc') cc' s1 t1 r HA ltac:(lia) ltac:(lia) ltac:(lia)
                     ltac:(lia) Hr Hnt) as (f2 & Hf2).
        destruct (mapBytes_app_Done _ _ _ _ _ _ _ _ Eb) as (k & Hk).
        exists (k + f2)%nat. rewrite <- Hsplit, Hk, <- Hfil. exact Hf2.
      * destruct (bytes_run fuel buf t) as [t1|e' t1|t1] eqn:Eb; try contradiction.
        subst r. exists fuel. rewrite <- Hsplit.
        rewrite (mapBytes_app_Failed _ _ _ _ _ _ _ _ _ _ Eb). exact HA.
      * subst r. now destruct (Hnt s1).
Qed.

(** And the other way round, with chunks that are not empty. *)
Lemma mapBytes_to_mapChunks (n : nat) : forall s t R ccmax fuel r,
  same_book s t -> 0 <= orgFil s ->
  R = Z.of_nat (length original) - orgFil s -> 0 <= R -> (Z.to_nat R <= n)%nat ->
  0 < ccmax < 2 ^ 32 ->
  bytes_run fuel (skipn (Z.to_nat (orgFil s)) original) t = r ->
  (forall x, r <> Timeout x) ->
  exists fuel', same_outcome (session_run fuel' R ccmax s) r.
Proof.
  induction n as [|n IH]; intros s t R ccmax fuel r Hst Hpos HR HR0 Hn Hmax Hr Hnt.
  - assert (E0 : R = 0) by lia.
    exists 1%nat. cbn [mapChunks]. rewrite E0. cbn [Z.eqb].
    rewrite skipn_all2 in Hr by lia.
    destruct fuel as [|fuel]; cbn in Hr; subst r; [now destruct (Hnt t) | exact Hst].
  - destruct (Z.eq_dec R 0) as [E0|E0].
    { exists 1%nat. cbn [mapChunks]. rewrite E0. cbn [Z.eqb].
      rewrite skipn_all2 in Hr by lia.
      destruct fuel as [|fuel]; cbn in Hr; subst r; [now destruct (Hnt t) | exact Hst]. }
    set (cc' := if R <? ccmax then R else ccmax).
    assert (Hcc' : 0 < cc' <= R /\ cc' < 2 ^ 32)
      by (unfold cc'; destruct (R <? ccmax) eqn:E;
          [apply Z.ltb_lt in E | apply Z.ltb_ge in E]; lia).
    set (buf := fread original (orgFil s) cc').
    assert (Hlen : Z.of_nat (length buf) = cc') by (apply fread_length; lia).
    pose proof (mapChunk_mapBytes book bkFilSize bkFilBufSize optSt fuel cc'
                  (set_orgFil (orgFil s + cc') buf s) t
                  (same_book_trans _ _ _ (same_book_set_orgFil _ _ s) Hst))
      as HA.
    cbn [set_orgFil orgFilBufPos orgFilBuffer Z.to_nat skipn] in HA.
    specialize (HA ltac:(lia) ltac:(lia) ltac:(lia)).
    assert (Hsplit : buf ++ skipn (Z.to_nat (orgFil s + cc')) original
                     = skipn (Z.to_nat (orgFil s)) original)
      by (apply fread_app_skipn; lia).
    assert (Hstep : forall f,
               session_run (S f) R ccmax s
               = match chunk_run f cc' (set_orgFil (orgFil s + cc') buf s) with
                 | Done s1 => session_run f (R - cc') cc' s1
                 | r0 => r0
                 end).
    { intros f. cbn [mapChunks]. apply Z.eqb_neq in E0. rewrite E0. fold cc'.
      rewrite freadWErrCheck_full by lia. reflexivity. }
    rewrite <- Hsplit in Hr.
    destruct (mapBytes_app_inv _ _ _ _ _ _ _ _ _ Hr Hnt)
      as [(t1 & Hd & Hy) | (e & t1 & Hf & ->)]; rewrite ?Hd, ?Hf in HA.
    + destruct (chunk_run fuel cc' _) as [s1|e s1|s1] eqn:Em; try contradiction.
      assert (Hfil : orgFil s1 = orgFil s + cc')
        by (rewrite (mapChunk_orgFil _ _ _ _ _ _ _ _ Em); reflexivity).
      rewrite <- Hfil in Hy.
      destruct (IH s1 t1 (R - cc') cc' fuel r HA ltac:(lia) ltac:(lia) ltac:(lia)
                   ltac:(lia) ltac:(lia) Hy Hnt) as (f2 & Hf2).
      exists (S (fuel + f2)). rewrite Hstep.
      rewrite (mapChunk_mono _ _ _ _ fuel (fuel + f2) _ _ _ Em)
        by (try discriminate; lia).
      rewrite (mapChunks_mono _ _ _ _ _ f2 (fuel + f2) _ _ _ _ eq_refl); [exact Hf2| |lia].
      exact (same_outcome_not_Timeout _ _ Hf2 Hnt).
    + destruct (chunk_run fuel cc' _) as [s1|e' s1|s1] eqn:Em; try contradiction.
      exists (S fuel). rewrite Hstep, Em. exact HA.
Qed.

End BySession.

(** The options reach the loops through [-d] and [-r] only. *)
Lemma forBody_options book bkFilSize bkFilBufSize optSt optSt' st :
  allowDuplicates optSt' = allowDuplicates optSt ->
  resetAtEndOfBuf optSt' = resetAtEndOfBuf optSt ->
  forBody book bkFilSize bkFilBufSize optSt' st
  = forBody book bkFilSize bkFilBufSize optSt st.
Proof. intros Hd Hr. unfold forBody, refillBuffer. now rewrite Hd, Hr. Qed.

Lemma mapBytes_options book bkFilSize bkFilBufSize optSt optSt' :
  allowDuplicates optSt' = allowDuplicates optSt ->
  resetAtEndOfBuf optSt' = resetAtEndOfBuf optSt ->
  forall fuel bs st,
    mapBytes book bkFilSize bkFilBufSize optSt' fuel bs st
    = mapBytes book bkFilSize bkFilBufSize optSt fuel bs st.
Proof.
  intros Hd Hr. induction fuel as [|fuel IH]; intros bs st; cbn [mapBytes];
    [reflexivity|].
  destruct bs as [|b rest]; [reflexivity|].
  rewrite (forBody_options _ _ _ optSt optSt') by assumption.
  destruct (bkFilPos st <? bkFilSize); [|apply IH].
  destruct (bkFilBufPos st <? bkFilBufSize); [|apply IH].
  destruct (forBody _ _ _ optSt _) as [st'|[e st']]; [|reflexivity].
  destruct (orgFilBufPos st' =? 0); apply IH.
Qed.

Lemma runEncode_unfold ram optSt book original fuel :
  0 < map_bkFilBufSize optSt book ->
  map_orgFilBufSize optSt original + map_bkFilBufSize optSt book <= ram ->
  runEncode ram optSt book original fuel
  = mapChunks book (map_bkFilSize optSt book) (map_bkFilBufSize optSt book)
              original optSt fuel (Z.of_nat (length original))
              (map_orgFilBufSize optSt original) (primed optSt book).
Proof.
  intros HW Hram. unfold runEncode, mapOffsets, primed.
  destruct (ram <? _) eqn:Em; [apply Z.ltb_lt in Em; lia|].
  destruct (_ =? 0) eqn:E0; [apply Z.eqb_eq in E0; lia|].
  cbn [bkFil initialMapState].
  now rewrite freadWErrCheck_full
    by (pose proof (map_bkFilBufSize_le optSt book); lia).
Qed.

(** A session that stops in [mapOffsets] passed the two checks of [main]
    before it. *)
Lemma runEncode_entered ram optSt book original fuel st :
  runEncode ram optSt book original fuel = Done st
  \/ runEncode ram optSt book original fuel = Failed InsufficientEntropy st ->
  0 < map_bkFilBufSize optSt book
  /\ map_orgFilBufSize optSt original + map_bkFilBufSize optSt book <= ram.
Proof.
  unfold runEncode, mapOffsets.
  destruct (ram <? _) eqn:Em; [intros [|]; discriminate|].
  destruct (_ =? 0) eqn:E0; [intros [|]; discriminate|].
  cbn [bkFil initialMapState]. unfold freadWErrCheck.
  destruct (_ =? map_bkFilBufSize optSt book) eqn:E; [|intros [|]; discriminate].
  intros _. apply Z.ltb_ge in Em. apply Z.eqb_neq in E0. apply Z.eqb_eq in E. lia.
Qed.

(** With an empty buffer for a file that is not empty the loop over the
    chunks reads nothing, maps nothing and never sees the file end. *)
Lemma mapChunks_empty_chunk book bkFilSize bkFilBufSize original optSt fuel :
  forall R st, 0 < R ->
    exists s, mapChunks book bkFilSize bkFilBufSize original optSt fuel R 0 st
              = Timeout s.
Proof.
  induction fuel as [|fuel IH]; intros R st HR; cbn [mapChunks]; [now exists st|].
  destruct (R =? 0) eqn:E0; [apply Z.eqb_eq in E0; lia|].
  destruct (R <? 0) eqn:E1; [apply Z.ltb_lt in E1; lia|].
  assert (Hr : freadWErrCheck original (orgFil st) 0 = Some []) by reflexivity.
  rewrite Hr. destruct fuel as [|fuel]; [now eexists|].
  cbn [mapChunk set_orgFil orgFilBufPos]. change (0 <? 0) with false. cbv iota.
  apply IH. lia.
Qed.

(** A session that returns on a file that is not empty went through chunks
    that were not empty and that its cursor could count. *)
Lemma runEncode_Done_chunk ram optSt book original fuel st :
  runEncode ram optSt book original fuel = Done st -> original <> [] ->
  0 < map_orgFilBufSize optSt original < 2 ^ 32.
Proof.
  intros Hd Hne.
  destruct (runEncode_entered _ _ _ _ _ _ (or_introl Hd)) as [HW Hram].
  rewrite runEncode_unfold in Hd by assumption.
  pose proof (map_orgFilBufSize_le optSt original) as Hle.
  assert (Hlen : 0 < Z.of_nat (length original))
    by (destruct original; [contradiction | cbn; lia]).
  set (cc := map_orgFilBufSize optSt original) in *.
  destruct fuel as [|fuel]; [discriminate|]. cbn [mapChunks] in Hd.
  destruct (_ =? 0) eqn:E0; [apply Z.eqb_eq in E0; lia|].
  destruct (_ <? cc) eqn:E1; [apply Z.ltb_lt in E1; lia|].
  destruct (freadWErrCheck original _ cc) as [buf|] eqn:Er; [|discriminate].
  apply freadWErrCheck_Some in Er as [_ Hbuf].
  destruct (mapChunk _ _ _ _ fuel cc _) as [s1|e s1|s1] eqn:Em; try discriminate.
  pose proof (mapChunk_Done_cursor _ _ _ _ _ _ _ _ Em) as H32. cbn in H32.
  split; [|lia].
  destruct (Z.eq_dec cc 0) as [Ez|]; [|lia].
  rewrite Ez in Hd.
  destruct (mapChunks_empty_chunk book (map_bkFilSize optSt book)
              (map_bkFilBufSize optSt book) original optSt fuel
              (Z.of_nat (length original) - 0) s1 ltac:(lia)) as (s & Hs).
  rewrite Hs in Hd. discriminate.
Qed.

(** A session and the run over the bytes of its original file stop the
    same way. *)
Lemma runEncode_to_mapBytes ram optSt book original fuel r :
  0 < map_bkFilBufSize optSt book ->
  map_orgFilBufSize optSt original + map_bkFilBufSize optSt book <= ram ->
  0 <= map_orgFilBufSize optSt original < 2 ^ 32 ->
  runEncode ram optSt book original fuel = r -> (forall x, r <> Timeout x) ->
  exists fuel',
    same_outcome r (mapBytes book (map_bkFilSize optSt book)
                             (map_bkFilBufSize optSt book) optSt fuel' original
                             (primed optSt book)).
Proof.
  intros HW Hram Hcc Hr Hnt. rewrite runEncode_unfold in Hr by assumption.
  apply (mapChunks_to_mapBytes _ _ _ _ _ _ _ _ _ (primed optSt book) _
           (same_book_refl _)) in Hr; try assumption; cbn; lia.
Qed.

Lemma mapBytes_to_runEncode ram optSt book original fuel r :
  0 < map_bkFilBufSize optSt book ->
  map_orgFilBufSize optSt original + map_bkFilBufSize optSt book <= ram ->
  0 < map_orgFilBufSize optSt original < 2 ^ 32 ->
  mapBytes book (map_bkFilSize optSt book) (map_bkFilBufSize optSt book) optSt
           fuel original (primed optSt book) = r ->
  (forall x, r <> Timeout x) ->
  exists fuel', same_outcome (runEncode ram optSt book original fuel') r.
Proof.
  intros HW Hram Hcc Hr Hnt.
  destruct (mapBytes_to_mapChunks book (map_bkFilSize optSt book)
              (map_bkFilBufSize optSt book) original optSt
              (length original) (primed optSt book) (primed optSt book)
              (Z.of_nat (length original)) (map_orgFilBufSize optSt original)
              fuel r (same_book_refl _))
    as (fuel' & Hf); try assumption; cbn; try lia.
  exists fuel'. now rewrite runEncode_unfold by assumption.
Qed.

Lemma map_sizes_same_window optSt optSt' book :
  bkFilBufSizeGiven optSt' = bkFilBufSizeGiven optSt ->
  map_bkFilBufSize optSt' book = map_bkFilBufSize optSt book
  /\ map_bkFilSize optSt' book = map_bkFilSize optSt book
  /\ primed optSt' book = primed optSt book.
Proof.
  intros H. unfold primed, map_bkFilSize, map_bkFilBufSize. now rewrite H.
Qed.

(** Two sessions that differ in the size of the buffer of the original file
    stop the same way, with the same book code. *)
Lemma runEncode_any_chunk ram optSt book original fuel r ram' optSt' :
  allowDuplicates optSt' = allowDuplicates optSt ->
  resetAtEndOfBuf optSt' = resetAtEndOfBuf optSt ->
  bkFilBufSizeGiven optSt' = bkFilBufSizeGiven optSt ->
  0 < map_bkFilBufSize optSt book ->
  map_orgFilBufSize optSt original + map_bkFilBufSize optSt book <= ram ->
  0 <= map_orgFilBufSize optSt original < 2 ^ 32 ->
  0 < map_orgFilBufSize optSt' original < 2 ^ 32 ->
  map_orgFilBufSize optSt' original + map_bkFilBufSize optSt' book <= ram' ->
  runEncode ram optSt book original fuel = r -> (forall x, r <> Timeout x) ->
  exists fuel', same_outcome (runEncode ram' optSt' book original fuel') r.
Proof.
  intros Hd Hr Hw HW Hram Hcc Hcc' Hram' Hrun Hnt.
  destruct (map_sizes_same_window optSt optSt' book Hw) as (EW & ES & EP).
  destruct (runEncode_to_mapBytes ram optSt book original fuel r HW Hram Hcc Hrun Hnt)
    as (f1 & Hf1).
  rewrite <- EW, <- ES, <- EP in Hf1.
  rewrite <- (mapBytes_options _ _ _ optSt optSt' Hd Hr) in Hf1.
  destruct (mapBytes_to_runEncode ram' optSt' book original f1 _
              ltac:(lia) Hram' Hcc' eq_refl) as (fuel' & Hf').
  - apply (same_outcome_not_Timeout _ _ (same_outcome_sym _ _ Hf1) Hnt).
  - exists fuel'. apply (same_outcome_trans _ _ _ Hf'). now apply same_outcome_sym.
Qed.

(** X11 (the buffer of the original file does not change the book code).
    When a session returns, so does the session on the same files with any
    other size for the buffer of the original file, given the memory, and
    it writes the same book code: the chunks the original file is read in
    leave no trace. *)
Theorem chunk_size_leaves_no_trace ram optSt book original fuel st ram' optSt' :
  allowDuplicates optSt' = allowDuplicates optSt ->
  resetAtEndOfBuf optSt' = resetAtEndOfBuf optSt ->
  bkFilBufSizeGiven optSt' = bkFilBufSizeGiven optSt ->
  runEncode ram optSt book original fuel = Done st ->
  0 < map_orgFilBufSize optSt' original < 2 ^ 32 ->
  map_orgFilBufSize optSt' original + map_bkFilBufSize optSt' book <= ram' ->
  exists fuel' st',
    runEncode ram' optSt' book original fuel' = Done st' /\ bkCd st' = bkCd st.
Proof.
  intros Hd Hr Hw Hrun Hcc' Hram'.
  destruct (runEncode_entered _ _ _ _ _ _ (or_introl Hrun)) as [HW Hram].
  assert (Hne : original <> []).
  { intros ->. pose proof (map_orgFilBufSize_le optSt' []). cbn in *. lia. }
  pose proof (runEncode_Done_chunk _ _ _ _ _ _ Hrun Hne) as Hcc.
  destruct (runEncode_any_chunk ram optSt book original fuel (Done st) ram' optSt'
              Hd Hr Hw HW Hram ltac:(lia) Hcc' Hram' Hrun ltac:(discriminate))
    as (fuel' & Hf).
  exists fuel'. destruct (runEncode ram' optSt' book original fuel') as [st'| |];
    cbn in Hf; try contradiction.
  exists st'. split; [reflexivity | apply (sb_bkCd _ _ Hf)].
Qed.

Lemma chunk_size_leaves_no_trace_witness :
  let book := bytes "abcabc" in
  let original := bytes "cabb" in
  let optSt := defaultOptions in
  let optSt' := withOriginalBuffer 3 defaultOptions in
  let st := outcome_state (runEncode sample_ram optSt book original 20) in
  allowDuplicates optSt' = allowDuplicates optSt
  /\ resetAtEndOfBuf optSt' = resetAtEndOfBuf optSt
  /\ bkFilBufSizeGiven optSt' = bkFilBufSizeGiven optSt
  /\ runEncode sample_ram optSt book original 20 = Done st
  /\ 0 < map_orgFilBufSize optSt' original < 2 ^ 32
  /\ map_orgFilBufSize optSt' original + map_bkFilBufSize optSt' book <= sample_ram
  /\ exists fuel' st',
       runEncode sample_ram optSt' book original fuel' = Done st'
       /\ bkCd st' = bkCd st.
Proof.
  cbv zeta.
  assert (Hdone : runEncode sample_ram defaultOptions (bytes "abcabc") (bytes "cabb") 20
                  = Done (outcome_state
                            (runEncode sample_ram defaultOptions
                                       (bytes "abcabc") (bytes "cabb") 20)))
    by by_running.
  assert (Hcc : 0 < map_orgFilBufSize (withOriginalBuffer 3 defaultOptions)
                                      (bytes "cabb") < 2 ^ 32)
    by (split; reflexivity).
  assert (Hram : map_orgFilBufSize (withOriginalBuffer 3 defaultOptions) (bytes "cabb")
                 + map_bkFilBufSize (withOriginalBuffer 3 defaultOptions) (bytes "abcabc")
                 <= sample_ram) by by_running.
  split; [reflexivity|]. split; [reflexivity|]. split; [reflexivity|].
  split; [exact Hdone|]. split; [exact Hcc|]. split; [exact Hram|].
  exact (chunk_size_leaves_no_trace sample_ram defaultOptions (bytes "abcabc")
           (bytes "cabb") 20 _ sample_ram (withOriginalBuffer 3 defaultOptions)
           eq_refl eq_refl eq_refl Hdone Hcc Hram).
Defined.

(** X12 (nor the way a session fails).  When a session stops for want of
    entropy, the session on the same files with any other size for the
    buffer of the original file stops with the same error, after the same
    book code. *)
Theorem chunk_size_keeps_failure ram optSt book original fuel st ram' optSt' :
  allowDuplicates optSt' = allowDuplicates optSt ->
  resetAtEndOfBuf optSt' = resetAtEndOfBuf optSt ->
  bkFilBufSizeGiven optSt' = bkFilBufSizeGiven optSt ->
  runEncode ram optSt book original fuel = Failed InsufficientEntropy st ->
  0 <= map_orgFilBufSize optSt original < 2 ^ 32 ->
  0 < map_orgFilBufSize optSt' original < 2 ^ 32 ->
  map_orgFilBufSize optSt' original + map_bkFilBufSize optSt' book <= ram' ->
  exists fuel' st',
    runEncode ram' optSt' book original fuel' = Failed InsufficientEntropy st'
    /\ bkCd st' = bkCd st.
Proof.
  intros Hd Hr Hw Hrun Hcc Hcc' Hram'.
  destruct (runEncode_entered _ _ _ _ _ _ (or_intror Hrun)) as [HW Hram].
  destruct (runEncode_any_chunk ram optSt book original fuel _ ram' optSt'
              Hd Hr Hw HW Hram Hcc Hcc' Hram' Hrun ltac:(discriminate))
    as (fuel' & Hf).
  exists fuel'. destruct (runEncode ram' optSt' book original fuel') as [|e st'|];
    cbn in Hf; try contradiction.
  destruct Hf as [-> Hf]. exists st'. split; [reflexivity | apply (sb_bkCd _ _ Hf)].
Qed.

Lemma chunk_size_keeps_failure_witness :
  let book := bytes "abcabc" in
  let original := bytes "cabd" in
  let optSt := defaultOptions in
  let optSt' := withOriginalBuffer 3 defaultOptions in
  let st := outcome_state (runEncode sample_ram optSt book original 20) in
  allowDuplicates optSt' = allowDuplicates optSt
  /\ resetAtEndOfBuf optSt' = resetAtEndOfBuf optSt
  /\ bkFilBufSizeGiven optSt' = bkFilBufSizeGiven optSt
  /\ runEncode sample_ram optSt book original 20 = Failed InsufficientEntropy st
  /\ 0 <= map_orgFilBufSize optSt original < 2 ^ 32
  /\ 0 < map_orgFilBufSize optSt' original < 2 ^ 32
  /\ map_orgFilBufSize optSt' original + map_bkFilBufSize optSt' book <= sample_ram
  /\ exists fuel' st',
       runEncode sample_ram optSt' book original fuel'
       = Failed InsufficientEntropy st'
       /\ bkCd st' = bkCd st.
Proof.
  cbv zeta.
  assert (Hfail : runEncode sample_ram defaultOptions (bytes "abcabc") (bytes "cabd") 20
                  = Failed InsufficientEntropy
                      (outcome_state
                         (runEncode sample_ram defaultOptions
                                    (bytes "abcabc") (bytes "cabd") 20)))
    by by_running.
  assert (Hcc : 0 <= map_orgFilBufSize defaultOptions (bytes "cabd") < 2 ^ 32)
    by (split; by_running).
  assert (Hcc' : 0 < map_orgFilBufSize (withOriginalBuffer 3 defaultOptions)
                                       (bytes "cabd") < 2 ^ 32)
    by (split; reflexivity).
  assert (Hram : map_orgFilBufSize (withOriginalBuffer 3 defaultOptions) (bytes "cabd")
                 + map_bkFilBufSize (withOriginalBuffer 3 defaultOptions) (bytes "abcabc")
                 <= sample_ram) by by_running.
  split; [reflexivity|]. split; [reflexivity|]. split; [reflexivity|].
  split; [exact Hfail|]. split; [exact Hcc|]. split; [exact Hcc'|]. split; [exact Hram|].
  exact (chunk_size_keeps_failure sample_ram defaultOptions (bytes "abcabc")
           (bytes "cabd") 20 _ sample_ram (withOriginalBuffer 3 defaultOptions)
           eq_refl eq_refl eq_refl Hfail Hcc Hcc' Hram).
Defined.

(** X13 (an empty buffer for the original file).  With
    [-s original_file_buffer=0] and an original file that is not empty, a
    session that gets as far as [mapOffsets] never returns and writes
    nothing: each turn of the loop over the chunks reads no byte and takes
    none off the bytes that remain. *)
Theorem empty_original_buffer_never_returns ram optSt book original :
  orgFilBufSizeGiven optSt = Some 0 -> original <> [] ->
  0 < map_bkFilBufSize optSt book <= ram ->
  diverges (runEncode ram optSt book original).
Proof.
  intros Hzero Hne HW fuel.
  assert (Hcc : map_orgFilBufSize optSt original = 0).
  { unfold map_orgFilBufSize. rewrite Hzero.
    destruct (_ <? 0) eqn:E; [apply Z.ltb_lt in E; lia | reflexivity]. }
  rewrite runEncode_unfold by lia. rewrite Hcc.
  apply mapChunks_empty_chunk.
  destruct original; [contradiction | cbn; lia].
Qed.

Lemma empty_original_buffer_never_returns_witness :
  let book := bytes "abc" in
  let original := bytes "a" in
  let optSt := withOriginalBuffer 0 defaultOptions in
  orgFilBufSizeGiven optSt = Some 0
  /\ original <> []
  /\ 0 < map_bkFilBufSize optSt book <= sample_ram
  /\ diverges (runEncode sample_ram optSt book original).
Proof.
  cbv zeta.
  assert (Hne : bytes "a" <> []) by discriminate.
  assert (HW : 0 < map_bkFilBufSize (withOriginalBuffer 0 defaultOptions) (bytes "abc")
               <= sample_ram) by (split; by_running).
  split; [reflexivity|]. split; [exact Hne|]. split; [exact HW|].
  exact (empty_original_buffer_never_returns sample_ram
           (withOriginalBuffer 0 defaultOptions) (bytes "abc") (bytes "a")
           eq_refl Hne HW).
Defined.

(** * The book code of the first bytes of a file *)

(** A turn of the innermost loop either leaves the book code and the cursor
    of the original file buffer alone, or writes one offset and steps the
    cursor. *)
Lemma forBody_code book bkFilSize bkFilBufSize optSt st st' :
  forBody book bkFilSize bkFilBufSize optSt st = inl st' ->
  (orgFilBufPos st' = orgFilBufPos st /\ bkCd st' = bkCd st)
  \/ (orgFilBufPos st' = to_u32 (orgFilBufPos st + 1)
      /\ exists o, bkCd st' = bkCd st ++ offset_bytes o).
Proof.
  unfold forBody, refillBuffer.
  repeat match goal with
         | |- context [if ?c then _ else _] => destruct c
         | |- context [match freadWErrCheck ?f ?p ?n with _ => _ end] =>
           destruct (freadWErrCheck f p n)
         end;
    intros [= <-]; cbn; eauto.
Qed.

Lemma mapBytes_code_grows book bkFilSize bkFilBufSize optSt fuel : forall bs t t',
  mapBytes book bkFilSize bkFilBufSize optSt fuel bs t = Done t' ->
  exists ext, bkCd t' = bkCd t ++ ext /\ length ext = (4 * length bs)%nat.
Proof.
  induction fuel as [|fuel IH]; intros bs t t'; cbn [mapBytes]; [discriminate|].
  destruct bs as [|b rest].
  - intros [= <-]. exists []. now rewrite app_nil_r.
  - destruct (bkFilPos t <? bkFilSize); [|apply IH].
    destruct (bkFilBufPos t <? bkFilBufSize); [|apply IH].
    destruct (forBody _ _ _ _ _) as [t1|[e t1]] eqn:Ef; [|discriminate].
    apply forBody_code in Ef. cbn [set_orgFil orgFilBufPos bkCd] in Ef.
    destruct (orgFilBufPos t1 =? 0) eqn:E0; intros Hd.
    + apply Z.eqb_eq in E0.
      destruct Ef as [[_ Hc] | [Hp _]]; [|rewrite Hp in E0; discriminate E0].
      rewrite <- Hc. now apply IH.
    + apply Z.eqb_neq in E0.
      destruct Ef as [[Hp _] | [_ [o Hc]]]; [contradiction|].
      destruct (IH _ _ _ Hd) as (ext & Hext & Hlen).
      exists (offset_bytes o ++ ext). rewrite Hext, Hc, <- app_assoc.
      split; [reflexivity|].
      rewrite length_app, offset_bytes_length, Hlen. cbn [length]. lia.
Qed.

Lemma map_orgFilBufSize_prefix optSt prefix suffix :
  map_orgFilBufSize optSt prefix <= map_orgFilBufSize optSt (prefix ++ suffix)
  /\ (0 < map_orgFilBufSize optSt (prefix ++ suffix) -> prefix <> [] ->
      0 < map_orgFilBufSize optSt prefix).
Proof.
  unfold map_orgFilBufSize. rewrite length_app.
  assert (0 < Z.of_nat (length prefix) \/ prefix = [])
    by (destruct prefix; [now right | left; cbn; lia]).
  repeat match goal with
         | |- context [?a <? ?b] =>
           let E := fresh in
           destruct (a <? b) eqn:E; [apply Z.ltb_lt in E | apply Z.ltb_ge in E]
         end; split; try lia; intros; try lia; intuition congruence.
Qed.

(** X14 (the book code of the first bytes).  When a session returns, the
    session on any leading part of the original file, with the same book
    and options, returns too, and its book code is the leading part of the
    same length (four bytes a byte) of the book code of the whole file: the
    offset written for a byte depends on the bytes before it only. *)
Theorem book_code_of_leading_bytes ram optSt book prefix suffix fuel st :
  runEncode ram optSt book (prefix ++ suffix) fuel = Done st ->
  exists fuel' st',
    runEncode ram optSt book prefix fuel' = Done st'
    /\ bkCd st' = firstn (4 * length prefix) (bkCd st).
Proof.
  intros Hrun.
  destruct (runEncode_entered _ _ _ _ _ _ (or_introl Hrun)) as [HW Hram].
  destruct (map_orgFilBufSize_prefix optSt prefix suffix) as [Hle Hpos].
  destruct prefix as [|x prefix].
  { destruct (runEncode_nil ram optSt book 0 HW ltac:(lia)) as (st' & Hd & Hc).
    exists 1%nat, st'. split; [exact Hd|]. now rewrite Hc. }
  set (pre := x :: prefix) in *.
  pose proof (runEncode_Done_chunk _ _ _ _ _ _ Hrun ltac:(discriminate)) as Hcc.
  destruct (runEncode_to_mapBytes ram optSt book _ fuel _ HW Hram ltac:(lia) Hrun
              ltac:(discriminate)) as (f1 & Hf1).
  destruct (mapBytes _ _ _ _ f1 (pre ++ suffix) _) as [t| |] eqn:Eb;
    cbn in Hf1; try contradiction.
  destruct (mapBytes_app_inv _ _ _ _ _ _ _ _ _ Eb ltac:(discriminate))
    as [(t1 & Hd1 & Hd2) | (e & t1 & _ & [=])].
  destruct (mapBytes_to_runEncode ram optSt book pre f1 _ HW ltac:(lia)
              ltac:(split; [apply Hpos; [lia | discriminate] | lia]) Hd1
              ltac:(discriminate)) as (fuel' & Hf').
  exists fuel'. destruct (runEncode ram optSt book pre fuel') as [st'| |];
    cbn in Hf'; try contradiction.
  exists st'. split; [reflexivity|].
  destruct (mapBytes_code_grows _ _ _ _ _ _ _ _ Hd1) as (e1 & He1 & Hl1).
  destruct (mapBytes_code_grows _ _ _ _ _ _ _ _ Hd2) as (e2 & He2 & _).
  rewrite (sb_bkCd _ _ Hf'), (sb_bkCd _ _ Hf1), He2, He1. cbn [primed set_bkFil bkCd initialMapState app].
  rewrite <- Hl1. rewrite firstn_app, Nat.sub_diag, firstn_all. cbn [firstn].
  now rewrite app_nil_r.
Qed.

Lemma book_code_of_leading_bytes_witness :
  let book := bytes "abcabc" in
  let prefix := bytes "ca" in
  let suffix := bytes "bb" in
  let st := outcome_state (runEncode sample_ram defaultOptions book
                                     (prefix ++ suffix) 20) in
  runEncode sample_ram defaultOptions book (prefix ++ suffix) 20 = Done st
  /\ exists fuel' st',
       runEncode sample_ram defaultOptions book prefix fuel' = Done st'
       /\ bkCd st' = firstn (4 * length prefix) (bkCd st).
Proof.
  cbv zeta.
  assert (Hdone : runEncode sample_ram defaultOptions (bytes "abcabc")
                            (bytes "ca" ++ bytes "bb") 20
                  = Done (outcome_state
                            (runEncode sample_ram defaultOptions (bytes "abcabc")
                                       (bytes "ca" ++ bytes "bb") 20)))
    by by_running.
  split; [exact Hdone|].
  exact (book_code_of_leading_bytes sample_ram defaultOptions (bytes "abcabc")
           (bytes "ca") (bytes "bb") 20 _ Hdone).
Defined.

(** * Bytes the book holds in order *)

Section InOrder.

Variable book : list byte.
Variable bkFilSize : Z.
Variable bkFilBufSize : Z.
Variable optSt : optionsStruct.

Hypothesis B : book_ok book bkFilSize bkFilBufSize.

Local Abbreviation cursor_ok := (cursor_ok book bkFilSize bkFilBufSize optSt).
Local Abbreviation scannable := (scannable bkFilSize bkFilBufSize optSt).
Local Abbreviation body := (forBody book bkFilSize bkFilBufSize optSt).
Local Abbreviation bytes_run := (mapBytes book bkFilSize bkFilBufSize optSt).
Local Abbreviation found_in_order := (found_in_order book bkFilSize bkFilBufSize optSt).

(** The byte under the cursor of the book. *)
Lemma cursor_byte t :
  cursor_ok t -> bkFilBufPos t < bkFilBufSize ->
  nth_error book (Z.to_nat (bkFilPos t + bkFilBufPos t))
  = Some (nth (Z.to_nat (bkFilBufPos t)) (bkFilBuffer t) Byte.x00).
Proof.
  intros [[_ Hlo Hhi _ Hwb _] Hp _ _ _] Hbuf.
  destruct B as (_ & _ & _ & Hfit & _).
  rewrite Hwb. apply fread_nth; lia.
Qed.

Lemma cursor_guards t :
  cursor_ok t -> bkFilBufPos t < bkFilBufSize ->
  (bkFilPos t <? bkFilSize) = true /\ (bkFilBufPos t <? bkFilBufSize) = true.
Proof.
  intros [[_ Hlo Hhi _ _ _] Hp _ _ _] Hbuf. destruct B as (HW & _).
  split; apply Z.ltb_lt; lia.
Qed.

(** With duplicates allowed the byte under the cursor is taken when it is
    the byte to map, and the cursor stays. *)
Lemma mapBytes_accept b t :
  allowDuplicates optSt = true ->
  cursor_ok t -> bkFilBufPos t < bkFilBufSize ->
  nth (Z.to_nat (bkFilBufPos t)) (bkFilBuffer t) Byte.x00 = b ->
  exists t',
    (forall g rest, bytes_run (S g) (b :: rest) t = bytes_run g rest t')
    /\ cursor_ok t'
    /\ bkFilPos t' = bkFilPos t /\ bkFilBufPos t' = bkFilBufPos t.
Proof.
  intros Hdup Hc Hbuf Hb.
  destruct (cursor_guards t Hc Hbuf) as [E1 E2].
  assert (Hf : body (set_orgFil 0 [b] t)
               = inl (accept b (to_u32 (bkFilBufPos t + bkFilPos t))
                             (set_orgFil 0 [b] t))).
  { unfold forBody.
    cbn [set_orgFil orgFilBufPos orgFilBuffer bkFilBufPos bkFilBuffer Z.to_nat nth].
    rewrite Hb, byte_eqb_refl, Hdup. reflexivity. }
  exists (accept b (to_u32 (bkFilBufPos t + bkFilPos t)) (set_orgFil 0 [b] t)).
  split; [|split; [|split; reflexivity]].
  - intros g rest. cbn [mapBytes]. rewrite E1, E2, Hf. reflexivity.
  - apply (forBody_cursor_ok book bkFilSize bkFilBufSize optSt B
             (set_orgFil 0 [b] t)); [now apply set_orgFil_cursor_ok | exact Hbuf | exact Hf].
Qed.

(** A byte that is not the one to map moves the cursor on: to the next
    index of the buffer, or at the last index to index 1 of the window that
    follows, when there is one to load. *)
Lemma mapBytes_advance b t :
  cursor_ok t -> bkFilBufPos t < bkFilBufSize ->
  nth (Z.to_nat (bkFilBufPos t)) (bkFilBuffer t) Byte.x00 <> b ->
  (bkFilBufPos t = bkFilBufSize - 1 ->
   resetAtEndOfBuf optSt = false /\ bkFilPos t + bkFilBufSize + 1 < bkFilSize
   /\ 2 <= bkFilBufSize) ->
  exists t',
    (forall g rest, bytes_run (S g) (b :: rest) t = bytes_run g (b :: rest) t')
    /\ cursor_ok t' /\ bkFilBufPos t' < bkFilBufSize
    /\ bkCd t' = bkCd t /\ offsetDigest t' = offsetDigest t
    /\ repeatsFound t' = repeatsFound t
    /\ (if bkFilBufPos t =? bkFilBufSize - 1
        then bkFilPos t' + bkFilBufPos t' = bkFilPos t + bkFilBufPos t + 2
        else bkFilPos t' + bkFilBufPos t' = bkFilPos t + bkFilBufPos t + 1).
Proof.
  intros Hc Hbuf Hb Hlast.
  destruct (cursor_guards t Hc Hbuf) as [E1 E2].
  pose proof Hc as [[[k Hk] Hlo Hhi Hs Hwb _] Hp _ _ _].
  destruct B as (HW & [k' Hk'] & Hone & Hfit & H32).
  assert (Hne : Byte.eqb b (nth (Z.to_nat (bkFilBufPos t)) (bkFilBuffer t) Byte.x00)
                = false) by (apply byte_eqb_neq; congruence).
  assert (Hstep : forall t',
             body (set_orgFil 0 [b] t) = inl t' -> orgFilBufPos t' = 0 ->
             (forall g rest, bytes_run (S g) (b :: rest) t = bytes_run g (b :: rest) t')
             /\ cursor_ok t').
  { intros t' Hf H0. split.
    - intros g rest. cbn [mapBytes]. rewrite E1, E2, Hf, H0. reflexivity.
    - apply (forBody_cursor_ok book bkFilSize bkFilBufSize optSt B
               (set_orgFil 0 [b] t)); [now apply set_orgFil_cursor_ok | exact Hbuf | exact Hf]. }
  destruct (bkFilBufPos t =? bkFilBufSize - 1) eqn:El.
  - apply Z.eqb_eq in El. destruct (Hlast El) as (Hreset & Hroom & H2).
    destruct (Hstep (next_bkFilBufPos
                       (set_bkFil (bkFil t + bkFilBufSize)
                          (fread book (bkFil t) bkFilBufSize)
                          (set_bkFilBufPos 0
                             (set_bkFilPos (bkFilPos t + bkFilBufSize)
                                           (set_orgFil 0 [b] t))))))
      as [Hrun Hc']; [|reflexivity|].
    { unfold forBody, refillBuffer.
      cbn [set_orgFil orgFilBufPos orgFilBuffer bkFilBufPos bkFilBuffer bkFilPos
           bkFil offsetDigest set_bkFilPos set_bkFilBufPos Z.to_nat nth].
      rewrite Hne, Hreset, !to_size_small, to_u32_small by lia.
      replace (bkFilBufPos t =? bkFilBufSize - 1) with true by (symmetry; lia).
      replace (bkFilSize - 1 <=? bkFilPos t + bkFilBufSize) with false
        by (symmetry; apply Z.leb_gt; lia).
      assert (Hk2 : k + 2 <= k') by nia.
      assert (Hfits : bkFilPos t + bkFilBufSize + bkFilBufSize <= bkFilSize) by nia.
      cbn [orb]. rewrite freadWErrCheck_full by lia. reflexivity. }
    eexists. split; [exact Hrun|]. split; [exact Hc'|].
    cbn. change (to_u32 1) with 1. repeat split; lia.
  - apply Z.eqb_neq in El.
    destruct (Hstep (next_bkFilBufPos (set_orgFil 0 [b] t))) as [Hrun Hc'];
      [|reflexivity|].
    { unfold forBody.
      cbn [set_orgFil orgFilBufPos orgFilBuffer bkFilBufPos bkFilBuffer Z.to_nat nth].
      rewrite Hne, to_size_small by lia.
      replace (bkFilBufPos t =? bkFilBufSize - 1) with false by (symmetry; lia).
      reflexivity. }
    eexists. split; [exact Hrun|]. split; [exact Hc'|].
    cbn. rewrite to_u32_small by lia. repeat split; lia.
Qed.

(** With duplicates allowed the scan reaches an offset that holds the byte
    to map and lies ahead of the cursor, unless it stops earlier on another
    one. *)
Lemma mapBytes_find b p :
  allowDuplicates optSt = true ->
  scannable p -> nth_error book (Z.to_nat p) = Some b ->
  forall (m : nat) t,
    cursor_ok t -> bkFilBufPos t < bkFilBufSize ->
    bkFilPos t + bkFilBufPos t <= p ->
    (Z.to_nat (p - (bkFilPos t + bkFilBufPos t)) <= m)%nat ->
    exists k t',
      (forall g rest, bytes_run (k + g) (b :: rest) t = bytes_run g rest t')
      /\ cursor_ok t' /\ bkFilBufPos t' < bkFilBufSize
      /\ bkFilPos t' + bkFilBufPos t' <= p.
Proof.
  intros Hdup [Hrange Hhead] Hb.
  assert (Htake : forall t,
             cursor_ok t -> bkFilBufPos t < bkFilBufSize ->
             bkFilPos t + bkFilBufPos t <= p ->
             nth (Z.to_nat (bkFilBufPos t)) (bkFilBuffer t) Byte.x00 = b ->
             exists k t',
               (forall g rest, bytes_run (k + g) (b :: rest) t = bytes_run g rest t')
               /\ cursor_ok t' /\ bkFilBufPos t' < bkFilBufSize
               /\ bkFilPos t' + bkFilBufPos t' <= p).
  { intros t Hc Hbuf Hle Heq.
    destruct (mapBytes_accept b t Hdup Hc Hbuf Heq) as (t' & Hrun & Hc' & Hpos & Hbp).
    exists 1%nat, t'. split; [exact Hrun|]. rewrite Hpos, Hbp. auto. }
  induction m as [|m IH]; intros t Hc Hbuf Hle Hm;
    pose proof (cursor_byte t Hc Hbuf) as Hcur;
    destruct (Byte.eqb (nth (Z.to_nat (bkFilBufPos t)) (bkFilBuffer t) Byte.x00) b)
      eqn:Eb;
    try (apply byte_eqb_true in Eb; now apply Htake).
  - replace p with (bkFilPos t + bkFilBufPos t) in Hb by lia.
    rewrite Hcur in Hb. injection Hb as Hb. rewrite Hb, byte_eqb_refl in Eb.
    discriminate.
  - assert (Hne : nth (Z.to_nat (bkFilBufPos t)) (bkFilBuffer t) Byte.x00 <> b)
      by (intros Heq; rewrite Heq, byte_eqb_refl in Eb; discriminate).
    assert (Hlt : bkFilPos t + bkFilBufPos t < p).
    { destruct (Z.eq_dec (bkFilPos t + bkFilBufPos t) p) as [E|]; [|lia].
      rewrite E, Hb in Hcur. injection Hcur as Hcur. congruence. }
    pose proof Hc as [[[k Hk] Hlo Hhi _ _ _] Hp0 _ _ _].
    destruct B as (HW & _).
    assert (Hlast : bkFilBufPos t = bkFilBufSize - 1 ->
                    resetAtEndOfBuf optSt = false
                    /\ bkFilPos t + bkFilBufSize + 1 < bkFilSize
                    /\ 2 <= bkFilBufSize).
    { intros El. destruct Hhead as [Hfirst | [Hmod Hreset]]; [nia|].
      split; [exact Hreset|].
      assert (p <> (k + 1) * bkFilBufSize)
        by (intros ->; now rewrite Z.mod_mul in Hmod by lia).
      split; [nia|].
      destruct (Z.eq_dec bkFilBufSize 1) as [E1|]; [|lia].
      rewrite E1, Z.mod_1_r in Hmod. contradiction. }
    destruct (mapBytes_advance b t Hc Hbuf Hne Hlast)
      as (t1 & Hrun & Hc1 & Hbuf1 & _ & _ & _ & Hcursor).
    assert (Hle1 : bkFilPos t1 + bkFilBufPos t1 <= p
                   /\ bkFilPos t + bkFilBufPos t < bkFilPos t1 + bkFilBufPos t1).
    { destruct (bkFilBufPos t =? bkFilBufSize - 1) eqn:El; [|lia].
      apply Z.eqb_eq in El. destruct (Hlast El) as (_ & Hroom & _).
      destruct Hhead as [Hfirst | [Hmod _]]; [nia|].
      assert (p <> (k + 1) * bkFilBufSize)
        by (intros ->; now rewrite Z.mod_mul in Hmod by lia).
      nia. }
    destruct (IH t1 Hc1 Hbuf1 (proj1 Hle1) ltac:(lia))
      as (k1 & t' & Hrun' & Hc' & Hbuf' & Hle').
    exists (S k1), t'. split; [|auto].
    intros g rest. cbn [Nat.add]. rewrite Hrun. apply Hrun'.
Qed.

Lemma found_in_order_from c c' bs ps :
  found_in_order c bs ps -> c' <= c -> found_in_order c' bs ps.
Proof.
  destruct bs, ps; cbn; try exact (fun H _ => H).
  intros (H1 & H2) Hle. split; [lia | exact H2].
Qed.

(** With duplicates allowed, bytes the book holds in order ahead of the
    cursor are all mapped. *)
Lemma mapBytes_in_order :
  allowDuplicates optSt = true ->
  forall bs ps t,
    cursor_ok t -> bkFilBufPos t < bkFilBufSize ->
    found_in_order (bkFilPos t + bkFilBufPos t) bs ps ->
    exists k t', bytes_run k bs t = Done t'.
Proof.
  intros Hdup. induction bs as [|b bs IH]; intros ps t Hc Hbuf Hfound.
  - now exists 1%nat, t.
  - destruct ps as [|p ps]; [contradiction|].
    destruct Hfound as (Hle & Hp & Hb & Hrest).
    destruct (mapBytes_find b p Hdup Hp Hb _ t Hc Hbuf Hle (Nat.le_refl _))
      as (k1 & t1 & Hrun & Hc1 & Hbuf1 & Hle1).
    destruct (IH ps t1 Hc1 Hbuf1 (found_in_order_from _ _ _ _ Hrest Hle1))
      as (k2 & t' & Hd).
    exists (k1 + k2)%nat, t'. now rewrite Hrun.
Qed.

(** The cursor of the book keeps its shape through a run over bytes. *)
Lemma mapBytes_cursor_ok fuel : forall bs t t',
  cursor_ok t -> bytes_run fuel bs t = Done t' -> cursor_ok t'.
Proof.
  induction fuel as [|fuel IH]; intros bs t t' Hc; cbn [mapBytes]; [discriminate|].
  destruct bs as [|b rest]; [now intros [= <-]|].
  destruct (bkFilPos t <? bkFilSize); [|now apply IH].
  destruct (bkFilBufPos t <? bkFilBufSize) eqn:E2; [|now apply IH].
  apply Z.ltb_lt in E2.
  destruct (body _) as [t1|[e t1]] eqn:Ef; [|discriminate].
  assert (Hc1 : cursor_ok t1).
  { apply (forBody_cursor_ok book bkFilSize bkFilBufSize optSt B
             (set_orgFil 0 [b] t)); [now apply set_orgFil_cursor_ok | exact E2 | exact Ef]. }
  destruct (orgFilBufPos t1 =? 0); now apply IH.
Qed.

(** A byte that is not in the book from the cursor on, and was never
    mapped, stops the run at the end of the book, when the window has two
    bytes or more. *)
Lemma mapBytes_not_found b rest :
  2 <= bkFilBufSize ->
  forall (m : nat) t,
    cursor_ok t -> bkFilBufPos t < bkFilBufSize ->
    offsetDigest t b = -1 ->
    (forall o, bkFilPos t + bkFilBufPos t <= o < bkFilSize ->
               nth_error book (Z.to_nat o) <> Some b) ->
    (Z.to_nat (bkFilSize - (bkFilPos t + bkFilBufPos t)) <= m)%nat ->
    exists k t',
      bytes_run k (b :: rest) t = Failed InsufficientEntropy t'
      /\ bkCd t' = bkCd t.
Proof.
  intros H2. induction m as [|m IH]; intros t Hc Hbuf Hdig Habsent Hm;
    pose proof Hc as [[[k Hk] Hlo Hhi _ _ _] Hp0 _ _ _];
    destruct B as (HW & [k' Hk'] & Hone & Hfit & H32); [lia|].
  destruct (cursor_guards t Hc Hbuf) as [E1 E2].
  assert (Hne : nth (Z.to_nat (bkFilBufPos t)) (bkFilBuffer t) Byte.x00 <> b).
  { intros Heq. apply (Habsent (bkFilPos t + bkFilBufPos t)); [lia|].
    now rewrite (cursor_byte t Hc Hbuf), Heq. }
  destruct (Z.eq_dec (bkFilBufPos t) (bkFilBufSize - 1)) as [El|El].
  - destruct ((bkFilSize - 1 <=? bkFilPos t + bkFilBufSize)
              || resetAtEndOfBuf optSt) eqn:Ewrap.
    + exists 1%nat. eexists. cbn [mapBytes]. rewrite E1, E2.
      unfold forBody, refillBuffer.
      cbn [set_orgFil orgFilBufPos orgFilBuffer bkFilBufPos bkFilBuffer bkFilPos
           bkFil offsetDigest set_bkFilPos set_bkFilBufPos Z.to_nat nth].
      rewrite (byte_eqb_neq b _ (not_eq_sym Hne)).
      rewrite !to_size_small, to_u32_small by lia.
      replace (bkFilBufPos t =? bkFilBufSize - 1) with true by (symmetry; lia).
      rewrite Ewrap, Hdig. cbn [Z.eqb]. split; reflexivity.
    + apply orb_false_iff in Ewrap as [Ewrap Ereset]. apply Z.leb_gt in Ewrap.
      assert (Hlast : bkFilBufPos t = bkFilBufSize - 1 ->
                      resetAtEndOfBuf optSt = false
                      /\ bkFilPos t + bkFilBufSize + 1 < bkFilSize
                      /\ 2 <= bkFilBufSize)
        by (intros _; split; [exact Ereset | lia]).
      destruct (mapBytes_advance b t Hc Hbuf Hne Hlast)
        as (t1 & Hrun & Hc1 & Hbuf1 & Hcd & Hd1 & _ & Hcursor).
      replace (bkFilBufPos t =? bkFilBufSize - 1) with true in Hcursor
        by (symmetry; lia).
      destruct (IH t1 Hc1 Hbuf1) as (k1 & t' & Hf & Hcd').
      * now rewrite Hd1.
      * intros o Ho. apply Habsent. lia.
      * lia.
      * exists (S k1), t'. rewrite Hrun, Hcd'. auto.
  - destruct (mapBytes_advance b t Hc Hbuf Hne ltac:(intros E; contradiction))
      as (t1 & Hrun & Hc1 & Hbuf1 & Hcd & Hd1 & _ & Hcursor).
    replace (bkFilBufPos t =? bkFilBufSize - 1) with false in Hcursor
      by (symmetry; lia).
    destruct (IH t1 Hc1 Hbuf1) as (k1 & t' & Hf & Hcd').
    + now rewrite Hd1.
    + intros o Ho. apply Habsent. lia.
    + lia.
    + exists (S k1), t'. rewrite Hrun, Hcd'. auto.
Qed.

End InOrder.

Lemma runEncode_in_order ram optSt book original ps :
  allowDuplicates optSt = true ->
  Z.of_nat (length book) < 2 ^ 32 ->
  0 < map_bkFilBufSize optSt book ->
  0 < map_orgFilBufSize optSt original < 2 ^ 32 ->
  map_orgFilBufSize optSt original + map_bkFilBufSize optSt book <= ram ->
  found_in_order book (map_bkFilSize optSt book) (map_bkFilBufSize optSt book)
                 optSt 0 original ps ->
  exists fuel st, runEncode ram optSt book original fuel = Done st.
Proof.
  intros Hdup H32 HW Hcc Hram Hfound.
  pose proof (map_sizes_book_ok optSt book HW H32) as B.
  destruct (mapBytes_in_order book _ _ optSt B Hdup original ps (primed optSt book))
    as (k & t' & Hd).
  - now apply cursor_ok_start.
  - exact HW.
  - exact Hfound.
  - destruct (mapBytes_to_runEncode ram optSt book original k _ HW Hram Hcc Hd
                ltac:(discriminate)) as (fuel & Hf).
    exists fuel. destruct (runEncode ram optSt book original fuel) as [st| |];
      cbn in Hf; try contradiction.
    now exists st.
Qed.

(** X15 (bytes the book holds in order).  With [-d], a session returns
    whenever the bytes of the original file can be read off the book from
    left to right: each at an offset the scan can stop at (inside the part
    of the book cut to whole windows, not the first byte of a later window,
    inside the first window under [-r]) that is not before the offset of
    the byte that precedes.  The book is below [2^32] bytes and the file
    not empty, read in chunks its cursor can count. *)
Theorem in_order_bytes_are_mapped ram optSt book original ps :
  allowDuplicates optSt = true ->
  Z.of_nat (length book) < 2 ^ 32 ->
  0 < map_bkFilBufSize optSt book ->
  0 < map_orgFilBufSize optSt original < 2 ^ 32 ->
  map_orgFilBufSize optSt original + map_bkFilBufSize optSt book <= ram ->
  found_in_order book (map_bkFilSize optSt book) (map_bkFilBufSize optSt book)
                 optSt 0 original ps ->
  exists fuel st, runEncode ram optSt book original fuel = Done st.
Proof. apply runEncode_in_order. Qed.

Lemma in_order_bytes_are_mapped_witness :
  let book := bytes "abcabc" in
  let original := bytes "abbcb" in
  let optSt := withBookBuffer 3 (withDuplicates defaultOptions) in
  let ps := [0; 1; 1; 2; 4] in
  allowDuplicates optSt = true
  /\ Z.of_nat (length book) < 2 ^ 32
  /\ 0 < map_bkFilBufSize optSt book
  /\ 0 < map_orgFilBufSize optSt original < 2 ^ 32
  /\ map_orgFilBufSize optSt original + map_bkFilBufSize optSt book <= sample_ram
  /\ found_in_order book (map_bkFilSize optSt book) (map_bkFilBufSize optSt book)
                    optSt 0 original ps
  /\ exists fuel st, runEncode sample_ram optSt book original fuel = Done st.
Proof.
  cbv zeta.
  assert (Hbook : Z.of_nat (length (bytes "abcabc")) < 2 ^ 32) by reflexivity.
  assert (HW : 0 < map_bkFilBufSize (withBookBuffer 3 (withDuplicates defaultOptions))
                                    (bytes "abcabc")) by reflexivity.
  assert (Hcc : 0 < map_orgFilBufSize (withBookBuffer 3 (withDuplicates defaultOptions))
                                      (bytes "abbcb") < 2 ^ 32)
    by (split; reflexivity).
  assert (Hram : map_orgFilBufSize (withBookBuffer 3 (withDuplicates defaultOptions))
                                   (bytes "abbcb")
                 + map_bkFilBufSize (withBookBuffer 3 (withDuplicates defaultOptions))
                                    (bytes "abcabc") <= sample_ram) by by_running.
  assert (Hfound : found_in_order (bytes "abcabc")
                     (map_bkFilSize (withBookBuffer 3 (withDuplicates defaultOptions))
                                    (bytes "abcabc"))
                     (map_bkFilBufSize (withBookBuffer 3 (withDuplicates defaultOptions))
                                       (bytes "abcabc"))
                     (withBookBuffer 3 (withDuplicates defaultOptions)) 0
                     (bytes "abbcb") [0; 1; 1; 2; 4]).
  { vm_compute.
    repeat split;
      first [ congruence
            | left; reflexivity
            | right; split; [discriminate | reflexivity] ]. }
  split; [reflexivity|]. split; [exact Hbook|]. split; [exact HW|].
  split; [exact Hcc|]. split; [exact Hram|]. split; [exact Hfound|].
  exact (in_order_bytes_are_mapped sample_ram
           (withBookBuffer 3 (withDuplicates defaultOptions)) (bytes "abcabc")
           (bytes "abbcb") [0; 1; 1; 2; 4] eq_refl Hbook HW Hcc Hram Hfound).
Defined.

(** * A byte left behind the cursor *)

(** A turn of the innermost loop changes the digest entry of the byte being
    mapped only. *)
Lemma forBody_digest book bkFilSize bkFilBufSize optSt st st' b :
  forBody book bkFilSize bkFilBufSize optSt st = inl st' ->
  nth (Z.to_nat (orgFilBufPos st)) (orgFilBuffer st) Byte.x00 <> b ->
  offsetDigest st' b = offsetDigest st b.
Proof.
  intros Hf Hne. revert Hf. unfold forBody.
  assert (Hreload : forall x s',
             match refillBuffer book bkFilSize bkFilBufSize optSt x st with
             | inl s1 => inl (next_bkFilBufPos s1)
             | inr f => inr f
             end = inl s' -> offsetDigest s' b = offsetDigest st b).
  { intros x s'. unfold refillBuffer.
    repeat match goal with
           | |- context [if ?c then _ else _] => destruct c
           | |- context [match freadWErrCheck ?f ?p ?n with _ => _ end] =>
             destruct (freadWErrCheck f p n)
           end;
      intros [= <-]; reflexivity. }
  destruct (Byte.eqb _ _) eqn:Eb.
  - apply byte_eqb_true in Eb. destruct (negb _ && _).
    + destruct (2 <=? repeatsFound st); [apply Hreload|].
      destruct (_ =? _); intros [= <-]; reflexivity.
    + intros [= <-]. cbn [accept offsetDigest]. unfold digest_store.
      rewrite <- Eb. now rewrite byte_eqb_neq by congruence.
  - destruct (_ =? _); [apply Hreload|]. intros [= <-]. reflexivity.
Qed.

Lemma mapBytes_digest book bkFilSize bkFilBufSize optSt b fuel : forall bs t t',
  mapBytes book bkFilSize bkFilBufSize optSt fuel bs t = Done t' ->
  ~ In b bs -> offsetDigest t' b = offsetDigest t b.
Proof.
  induction fuel as [|fuel IH]; intros bs t t'; cbn [mapBytes]; [discriminate|].
  destruct bs as [|x rest]; [now intros [= <-]|].
  destruct (bkFilPos t <? bkFilSize); [|apply IH].
  destruct (bkFilBufPos t <? bkFilBufSize); [|apply IH].
  destruct (forBody _ _ _ _ _) as [t1|[e t1]] eqn:Ef; [|discriminate].
  intros Hd Hnot.
  assert (Hstep : offsetDigest t1 b = offsetDigest t b).
  { apply (forBody_digest _ _ _ _ _ _ _ Ef). cbn. intros ->. apply Hnot. now left. }
  rewrite <- Hstep.
  destruct (orgFilBufPos t1 =? 0); apply (IH _ _ _ Hd); [exact Hnot|].
  intros Hin. apply Hnot. now right.
Qed.

Lemma map_orgFilBufSize_nonneg optSt prefix suffix :
  0 < map_orgFilBufSize optSt (prefix ++ suffix) ->
  0 <= map_orgFilBufSize optSt prefix.
Proof.
  unfold map_orgFilBufSize. rewrite length_app.
  repeat match goal with
         | |- context [?a <? ?b] =>
           let E := fresh in
           destruct (a <? b) eqn:E; [apply Z.ltb_lt in E | apply Z.ltb_ge in E]
         end; lia.
Qed.

(** X16 (the error is about the cursor, not the book).  When the bytes
    mapped so far do not have the byte [b] among them, and the book does
    not hold [b] from the place the scan has reached to the end of its used
    part, the session stops for want of entropy on [b], with the book code
    of the bytes before it, whether the book holds [b] behind the cursor or
    not.  The window has two bytes or more; the place the scan has reached
    is read off the state the session on the bytes before [b] returns
    in. *)
Theorem byte_behind_cursor_not_found ram optSt book prefix b suffix fuel st :
  Z.of_nat (length book) < 2 ^ 32 ->
  2 <= map_bkFilBufSize optSt book ->
  runEncode ram optSt book prefix fuel = Done st ->
  ~ In b prefix ->
  (forall o, bkFilPos st + bkFilBufPos st <= o < map_bkFilSize optSt book ->
             nth_error book (Z.to_nat o) <> Some b) ->
  0 < map_orgFilBufSize optSt (prefix ++ b :: suffix) < 2 ^ 32 ->
  map_orgFilBufSize optSt (prefix ++ b :: suffix) + map_bkFilBufSize optSt book
  <= ram ->
  exists fuel' st',
    runEncode ram optSt book (prefix ++ b :: suffix) fuel'
    = Failed InsufficientEntropy st'
    /\ bkCd st' = bkCd st.
Proof.
  intros H32 H2 Hrun Hnot Habsent Hcc Hram.
  destruct (runEncode_entered _ _ _ _ _ _ (or_introl Hrun)) as [HW Hramp].
  pose proof (map_sizes_book_ok optSt book HW H32) as B.
  destruct (map_orgFilBufSize_prefix optSt prefix (b :: suffix)) as [Hle _].
  pose proof (map_orgFilBufSize_nonneg optSt prefix (b :: suffix) ltac:(lia)) as H0.
  destruct (runEncode_to_mapBytes ram optSt book prefix fuel _ HW Hramp ltac:(lia)
              Hrun ltac:(discriminate)) as (f1 & Hf1).
  destruct (mapBytes _ _ _ _ f1 prefix _) as [t1| |] eqn:Eb;
    cbn in Hf1; try contradiction.
  pose proof (mapBytes_cursor_ok book _ _ optSt B f1 _ _ _
                (cursor_ok_start book _ _ optSt B) Eb) as Hc1.
  pose proof (w_cursor _ _ _ _ (c_window _ _ _ _ _ Hc1) H2) as Hbuf1.
  pose proof (mapBytes_digest _ _ _ _ b _ _ _ _ Eb Hnot) as Hdig.
  cbn [primed set_bkFil offsetDigest initialMapState] in Hdig.
  rewrite (sb_bkFilPos _ _ Hf1), (sb_bkFilBufPos _ _ Hf1) in Habsent.
  destruct (mapBytes_not_found book _ _ optSt B b suffix H2 _ t1 Hc1 Hbuf1 Hdig
              Habsent (Nat.le_refl _)) as (k & t' & Hfail & Hcd).
  destruct (mapBytes_app_Done _ _ _ _ _ _ _ _ Eb) as (k0 & Hk0).
  specialize (Hk0 k (b :: suffix)). rewrite Hfail in Hk0.
  destruct (mapBytes_to_runEncode ram optSt book _ _ _ HW Hram Hcc Hk0
              ltac:(discriminate)) as (fuel' & Hf').
  exists fuel'.
  destruct (runEncode ram optSt book (prefix ++ b :: suffix) fuel') as [|e st'|];
    cbn in Hf'; try contradiction.
  destruct Hf' as [-> Hf']. exists st'. split; [reflexivity|].
  now rewrite (sb_bkCd _ _ Hf'), Hcd, (sb_bkCd _ _ Hf1).
Qed.

Lemma byte_behind_cursor_not_found_witness :
  let book := bytes "abcd" in
  let prefix := bytes "c" in
  let b := Byte.x61 in
  let suffix := bytes "d" in
  let st := outcome_state (runEncode sample_ram defaultOptions book prefix 8) in
  Z.of_nat (length book) < 2 ^ 32
  /\ 2 <= map_bkFilBufSize defaultOptions book
  /\ runEncode sample_ram defaultOptions book prefix 8 = Done st
  /\ ~ In b prefix
  /\ (forall o, bkFilPos st + bkFilBufPos st <= o < map_bkFilSize defaultOptions book ->
                nth_error book (Z.to_nat o) <> Some b)
  /\ 0 < map_orgFilBufSize defaultOptions (prefix ++ b :: suffix) < 2 ^ 32
  /\ map_orgFilBufSize defaultOptions (prefix ++ b :: suffix)
     + map_bkFilBufSize defaultOptions book <= sample_ram
  /\ In b book
  /\ exists fuel' st',
       runEncode sample_ram defaultOptions book (prefix ++ b :: suffix) fuel'
       = Failed InsufficientEntropy st'
       /\ bkCd st' = bkCd st.
Proof.
  cbv zeta.
  assert (Hbook : Z.of_nat (length (bytes "abcd")) < 2 ^ 32) by reflexivity.
  assert (H2 : 2 <= map_bkFilBufSize defaultOptions (bytes "abcd")) by by_running.
  assert (Hdone : runEncode sample_ram defaultOptions (bytes "abcd") (bytes "c") 8
                  = Done (outcome_state
                            (runEncode sample_ram defaultOptions
                                       (bytes "abcd") (bytes "c") 8)))
    by by_running.
  assert (Hnot : ~ In Byte.x61 (bytes "c"))
    by (intros [H|[]]; discriminate H).
  assert (Habsent : forall o,
             bkFilPos (outcome_state
                         (runEncode sample_ram defaultOptions (bytes "abcd")
                                    (bytes "c") 8))
             + bkFilBufPos (outcome_state
                              (runEncode sample_ram defaultOptions (bytes "abcd")
                                         (bytes "c") 8))
             <= o < map_bkFilSize defaultOptions (bytes "abcd") ->
             nth_error (bytes "abcd") (Z.to_nat o) <> Some Byte.x61).
  { intros o Ho.
    change (2 <= o < 4) in Ho.
    assert (Hcase : o = 2 \/ o = 3) by lia.
    destruct Hcase as [-> | ->]; discriminate. }
  assert (Hcc : 0 < map_orgFilBufSize defaultOptions
                                      (bytes "c" ++ Byte.x61 :: bytes "d") < 2 ^ 32)
    by (split; reflexivity).
  assert (Hram : map_orgFilBufSize defaultOptions (bytes "c" ++ Byte.x61 :: bytes "d")
                 + map_bkFilBufSize defaultOptions (bytes "abcd") <= sample_ram)
    by by_running.
  split; [exact Hbook|]. split; [exact H2|]. split; [exact Hdone|].
  split; [exact Hnot|]. split; [exact Habsent|]. split; [exact Hcc|].
  split; [exact Hram|]. split; [now left|].
  exact (byte_behind_cursor_not_found sample_ram defaultOptions (bytes "abcd")
           (bytes "c") Byte.x61 (bytes "d") 8 _ Hbook H2 Hdone Hnot Habsent Hcc Hram).
Defined.

(** * The command line *)

Section CommandLine.

Variable atol : list byte -> Z.
Variable atoi : list byte -> Z.

Local Abbreviation handle := (Cli.handle atol atoi).
Local Abbreviation options_loop := (Cli.options_loop atol atoi).
Local Abbreviation subopts_loop := (Cli.subopts_loop atol).
Local Abbreviation parseOptions := (Cli.parseOptions atol atoi).

Lemma subopts_loop_flags subopts : forall st st',
  subopts_loop subopts st = Some st' ->
  (forall f, plain_flag f = true -> Cli.optSt st' f = Cli.optSt st f)
  /\ (0 <= Cli.errflg st -> Cli.errflg st <= Cli.errflg st').
Proof.
  induction subopts as [|[index value] rest IH]; intros st st';
    cbn [Cli.subopts_loop].
  - intros [= <-]. split; [reflexivity | lia].
  - destruct (Cli.errflg st =? 0) eqn:E0;
      [apply Z.eqb_eq in E0 | intros [= <-]; split; [reflexivity | lia]].
    assert (Herr : subopts_loop rest (Cli.set_errflg 1 st) = Some st' ->
                   (forall f, plain_flag f = true -> Cli.optSt st' f = Cli.optSt st f)
                   /\ (0 <= Cli.errflg st -> Cli.errflg st <= Cli.errflg st')).
    { intros H. destruct (IH _ _ H) as [Hf He]. cbn in He. split; [exact Hf | lia]. }
    assert (Hsize : forall z v f,
               plain_flag f = false ->
               subopts_loop rest (Cli.set_size z v (Cli.set_flag f st)) = Some st' ->
               (forall g, plain_flag g = true -> Cli.optSt st' g = Cli.optSt st g)
               /\ (0 <= Cli.errflg st -> Cli.errflg st <= Cli.errflg st')).
    { intros z v f Hf H. destruct (IH _ _ H) as [Hg He]. cbn in He.
      split; [|exact He]. intros g Hgp. rewrite (Hg g Hgp). cbn.
      destruct (Cli.flag_eq_dec g f) as [->|]; [congruence | reflexivity]. }
    destruct index as [|p|p];
      [|destruct p as [q|q|]; [destruct q as [?|?|] | destruct q as [?|?|] |]|];
      destruct value as [v|]; try exact Herr;
      (destruct (getBufSizeMultiple v); [|discriminate]); now apply Hsize.
Qed.

(** What one option does to the flags of the mode and of the policies, and
    to the count of errors. *)
Lemma handle_flags r st st' :
  handle r st = inl st' ->
  Cli.optSt st' Cli.mapOffsets
  = (match r with Cli.opt_m => true | _ => Cli.optSt st Cli.mapOffsets end)
  /\ Cli.optSt st' Cli.extractBytes
     = (match r with Cli.opt_e => true | _ => Cli.optSt st Cli.extractBytes end)
  /\ Cli.optSt st' Cli.allowDuplicates
     = (match r with Cli.opt_d => true | _ => Cli.optSt st Cli.allowDuplicates end)
  /\ Cli.optSt st' Cli.resetAtEndOfBuf
     = (match r with Cli.opt_r => true | _ => Cli.optSt st Cli.resetAtEndOfBuf end)
  /\ (0 <= Cli.errflg st -> Cli.errflg st <= Cli.errflg st').
Proof.
  destruct r; cbn [Cli.handle];
    repeat match goal with
           | |- context [if ?c then _ else _] => destruct c eqn:?
           end;
    try (intros [= <-]; cbn; repeat split; first [reflexivity | assumption | lia]).
  destruct (subopts_loop subopts st) as [st1|] eqn:Es; [|discriminate].
  intros [= <-]. destruct (subopts_loop_flags _ _ _ Es) as [Hf He].
  rewrite !Hf by reflexivity. auto.
Qed.

Lemma options_loop_flags results : forall st st',
  options_loop results st = inl st' ->
  Cli.optSt st' Cli.mapOffsets = existsb is_opt_m results || Cli.optSt st Cli.mapOffsets
  /\ Cli.optSt st' Cli.extractBytes
     = existsb is_opt_e results || Cli.optSt st Cli.extractBytes
  /\ Cli.optSt st' Cli.allowDuplicates
     = existsb is_opt_d results || Cli.optSt st Cli.allowDuplicates
  /\ Cli.optSt st' Cli.resetAtEndOfBuf
     = existsb is_opt_r results || Cli.optSt st Cli.resetAtEndOfBuf
  /\ (0 <= Cli.errflg st -> Cli.errflg st <= Cli.errflg st').
Proof.
  induction results as [|r rest IH]; intros st st'; cbn [Cli.options_loop existsb].
  - intros [= <-]. repeat split; lia.
  - destruct (handle r st) as [st1|stop] eqn:Eh; [|discriminate].
    intros Hl. destruct (IH _ _ Hl) as (Hm & He & Hd & Hr & Herr).
    destruct (handle_flags _ _ _ Eh) as (Hm1 & He1 & Hd1 & Hr1 & Herr1).
    rewrite Hm, He, Hd, Hr, Hm1, He1, Hd1, Hr1.
    repeat split; try (destruct r; cbn; try reflexivity; now rewrite ?orb_true_r).
    lia.
Qed.

Lemma count_fields failed st :
  Cli.optSt (Cli.count failed st) = Cli.optSt st
  /\ Cli.names (Cli.count failed st) = Cli.names st
  /\ Cli.sizes (Cli.count failed st) = Cli.sizes st
  /\ Cli.errflg (Cli.count failed st)
     = Cli.errflg st + (if failed then 1 else 0).
Proof. destruct failed; cbn; repeat split; lia. Qed.

(** The six tests leave the flags alone, and pass only when nothing was
    counted before them and none of them fires. *)
Lemma checks_passed st :
  0 <= Cli.errflg st -> Cli.errflg (Cli.checks st) = 0 ->
  Cli.optSt (Cli.checks st) = Cli.optSt st
  /\ Cli.errflg st = 0
  /\ Cli.optSt st Cli.mapOffsets = negb (Cli.optSt st Cli.extractBytes)
  /\ (Cli.optSt st Cli.mapOffsets = true -> Cli.optSt st Cli.orgFilGiven = true)
  /\ (Cli.optSt st Cli.extractBytes = true -> Cli.optSt st Cli.bkCdGiven = true)
  /\ Cli.optSt st Cli.bkFilGiven = true
  /\ Cli.optSt st Cli.outputFileGiven = true.
Proof.
  unfold Cli.checks. cbv zeta. intros H0.
  repeat match goal with
         | |- context [Cli.optSt (Cli.count ?b ?s)] =>
           rewrite (proj1 (count_fields b s))
         | |- context [Cli.errflg (Cli.count ?b ?s)] =>
           rewrite (proj2 (proj2 (proj2 (count_fields b s))))
         end.
  destruct (Cli.optSt st Cli.mapOffsets), (Cli.optSt st Cli.extractBytes),
    (Cli.optSt st Cli.orgFilGiven), (Cli.optSt st Cli.bkCdGiven),
    (Cli.optSt st Cli.bkFilGiven), (Cli.optSt st Cli.outputFileGiven);
    cbn; intros He; repeat split; auto; try lia; try discriminate.
Qed.

(** The loop over the options stops early for [-h] or for a read past a
    value, never with a command line to run. *)
Lemma options_loop_stop results : forall st stop,
  options_loop results st = inr stop ->
  stop = Cli.Exit Cli.EXIT_SUCCESS \/ stop = Cli.ReadPastValue.
Proof.
  induction results as [|r rest IH]; intros st stop; cbn [Cli.options_loop];
    [discriminate|].
  destruct (handle r st) as [st1|stop1] eqn:Eh; [apply IH|].
  intros [= <-]. revert Eh. destruct r; cbn [Cli.handle];
    repeat match goal with
           | |- context [if ?c then _ else _] => destruct c
           | |- context [match subopts_loop ?l ?s with _ => _ end] =>
             destruct (subopts_loop l s)
           end;
    intros [= <-]; auto.
Qed.

Lemma parseOptions_Parsed results st :
  parseOptions results = Cli.Parsed st ->
  exists st0,
    options_loop results Cli.initial = inl st0
    /\ Cli.optSt st = Cli.optSt st0
    /\ Cli.sizes st = Cli.sizes st0
    /\ Cli.optSt st0 Cli.mapOffsets = negb (Cli.optSt st0 Cli.extractBytes)
    /\ (Cli.optSt st0 Cli.mapOffsets = true -> Cli.optSt st0 Cli.orgFilGiven = true)
    /\ (Cli.optSt st0 Cli.extractBytes = true -> Cli.optSt st0 Cli.bkCdGiven = true)
    /\ Cli.optSt st0 Cli.bkFilGiven = true
    /\ Cli.optSt st0 Cli.outputFileGiven = true
    /\ Cli.errflg st0 = 0.
Proof.
  unfold Cli.parseOptions.
  destruct (options_loop results Cli.initial) as [st0|stop] eqn:El;
    [|intros ->; destruct (options_loop_stop _ _ _ El); discriminate].
  destruct (_ =? 0) eqn:E0; [|discriminate]. intros [= <-].
  apply Z.eqb_eq in E0.
  destruct (options_loop_flags _ _ _ El) as (_ & _ & _ & _ & Herr).
  destruct (checks_passed st0 (Herr (Z.le_refl 0)) E0)
    as (Hf & He & Hm & Ho & Hc & Hb & Hout).
  exists st0. repeat split; try assumption.
  unfold Cli.checks. cbv zeta.
  repeat match goal with
         | |- context [Cli.sizes (Cli.count ?b ?s)] =>
           rewrite (proj1 (proj2 (proj2 (count_fields b s))))
         end.
  reflexivity.
Qed.

(** Where the flag of the output comes from. *)
Lemma handle_output r st st' :
  handle r st = inl st' -> Cli.optSt st' Cli.outputFileGiven = true ->
  Cli.optSt st Cli.outputFileGiven = true
  \/ (exists optarg,
         r = Cli.opt_f optarg /\ Cli.looks_like_option optarg = false
         /\ Cli.optSt st Cli.mapOffsets || Cli.optSt st Cli.extractBytes = true)
  \/ (r = Cli.opt_p /\ Cli.optSt st Cli.mapOffsets = true).
Proof.
  destruct r; cbn [Cli.handle]; try (intros [= <-]; cbn; auto; fail);
    try (destruct (Cli.looks_like_option optarg) eqn:El;
         [intros [= <-]; cbn; auto; fail|]);
    try (intros [= <-]; cbn; auto; fail).
  - destruct (Cli.optSt st Cli.mapOffsets) eqn:Em;
      [intros [= <-] _; right; left; exists optarg; auto|].
    destruct (Cli.optSt st Cli.extractBytes) eqn:Ee;
      [intros [= <-] _; right; left; exists optarg; auto | intros [= <-]; auto].
  - destruct (subopts_loop subopts st) as [st1|] eqn:Es; [|discriminate].
    intros [= <-]. destruct (subopts_loop_flags _ _ _ Es) as [Hf _].
    rewrite Hf by reflexivity. auto.
  - destruct (Cli.optSt st Cli.mapOffsets) eqn:Em;
      [intros [= <-] _; right; right; auto|].
    destruct (Cli.optSt st Cli.extractBytes); intros [= <-]; cbn; auto.
Qed.

Lemma options_loop_output results : forall st st',
  options_loop results st = inl st' -> Cli.optSt st' Cli.outputFileGiven = true ->
  Cli.optSt st Cli.outputFileGiven = true
  \/ exists before r after,
       results = before ++ r :: after
       /\ ((exists optarg,
              r = Cli.opt_f optarg /\ Cli.looks_like_option optarg = false
              /\ (existsb is_opt_m before || Cli.optSt st Cli.mapOffsets)
                 || (existsb is_opt_e before || Cli.optSt st Cli.extractBytes)
                 = true)
           \/ (r = Cli.opt_p
               /\ existsb is_opt_m before || Cli.optSt st Cli.mapOffsets = true)).
Proof.
  induction results as [|r0 rest IH]; intros st st'; cbn [Cli.options_loop].
  - intros [= <-] H. now left.
  - destruct (handle r0 st) as [st1|stop] eqn:Eh; [|discriminate].
    intros Hl Hout.
    destruct (handle_flags _ _ _ Eh) as (Hm1 & He1 & _).
    destruct (IH _ _ Hl Hout) as [H1 | (before & r & after & -> & Hr)].
    + destruct (handle_output _ _ _ Eh H1) as [H0 | [(a & -> & Ha & Hmode) | [-> Hmode]]];
        [now left | right | right].
      * exists [], (Cli.opt_f a), rest. split; [reflexivity|]. left.
        exists a. cbn [existsb orb]. auto.
      * exists [], Cli.opt_p, rest. split; [reflexivity|]. right. cbn. auto.
    + right. exists (r0 :: before), r, after. split; [reflexivity|].
      rewrite Hm1, He1 in Hr. cbn [existsb].
      destruct Hr as [(a & -> & Ha & Hmode) | [-> Hmode]]; [left | right].
      * exists a. split; [reflexivity|]. split; [exact Ha|].
        destruct r0; cbn [is_opt_m is_opt_e orb] in *;
          rewrite ?orb_true_r in *; cbn [orb]; try assumption; try reflexivity.
      * split; [reflexivity|].
        destruct r0; cbn [is_opt_m orb] in *;
          rewrite ?orb_true_r in *; cbn [orb]; try assumption; try reflexivity.
Qed.


(** After [-h] nothing is looked at. *)
Lemma options_loop_help after : forall before st,
  (forall optarg subopts, ~ In (Cli.opt_s optarg subopts) before) ->
  options_loop (before ++ Cli.opt_h :: after) st = inr (Cli.Exit Cli.EXIT_SUCCESS).
Proof.
  induction before as [|r before IH]; intros st Hno; cbn [app Cli.options_loop];
    [reflexivity|].
  assert (Hrest : forall optarg subopts, ~ In (Cli.opt_s optarg subopts) before)
    by (intros a l Hin; apply (Hno a l); now right).
  destruct r; cbn [Cli.handle];
    repeat match goal with
           | |- context [if ?c then _ else _] => destruct c
           end;
    try (apply IH; exact Hrest); try reflexivity.
  all: exfalso; eapply Hno; left; reflexivity.
Qed.

(** X17 (one mode, and the policies asked for).  When [parseOptions]
    returns, exactly one of [-m] and [-e] was among the options, the flag
    of that mode is the one set, and the session allows duplicates exactly
    when [-d] was given and resets after each buffer exactly when [-r]
    was. *)
Theorem parsed_options_reflect_command_line results st :
  parseOptions results = Cli.Parsed st ->
  Cli.optSt st Cli.mapOffsets = existsb is_opt_m results
  /\ Cli.optSt st Cli.extractBytes = existsb is_opt_e results
  /\ existsb is_opt_m results = negb (existsb is_opt_e results)
  /\ allowDuplicates (options_of st) = existsb is_opt_d results
  /\ resetAtEndOfBuf (options_of st) = existsb is_opt_r results.
Proof.
  intros Hp.
  destruct (parseOptions_Parsed _ _ Hp) as (st0 & Hl & Hf & _ & Hmode & _).
  destruct (options_loop_flags _ _ _ Hl) as (Hm & He & Hd & Hr & _).
  cbn [Cli.initial Cli.optSt] in Hm, He, Hd, Hr. rewrite !orb_false_r in *.
  cbn [options_of allowDuplicates resetAtEndOfBuf]. rewrite Hf.
  rewrite <- Hm, <- He, <- Hd, <- Hr. auto.
Qed.

(** X18 (the output is named after the mode).  [-f] stores the name of the
    output, and [-p] asks for the standard output, only when the mode has
    been set by an option before them.  So when [parseOptions] returns, the
    options hold an [-f] with a name, after an [-m] or an [-e], or a [-p]
    after an [-m]: an [-f] or a [-p] given before the mode is passed over
    in silence, and the whole command line is refused for want of an
    output if nothing else names one. *)
Theorem output_option_follows_mode results st :
  parseOptions results = Cli.Parsed st ->
  exists before r after,
    results = before ++ r :: after
    /\ ((exists optarg,
           r = Cli.opt_f optarg /\ Cli.looks_like_option optarg = false
           /\ existsb is_opt_m before || existsb is_opt_e before = true)
        \/ (r = Cli.opt_p /\ existsb is_opt_m before = true)).
Proof.
  intros Hp.
  destruct (parseOptions_Parsed _ _ Hp) as (st0 & Hl & _ & _ & _ & _ & _ & _ & Hout & _).
  destruct (options_loop_output _ _ _ Hl Hout) as [H | (before & r & after & Hs & Hr)];
    [discriminate|].
  exists before, r, after. split; [exact Hs|].
  cbn [Cli.initial Cli.optSt] in Hr. rewrite !orb_false_r in Hr. exact Hr.
Qed.


(** X20 (help wins).  With [-h] among the options, and no [-s] before it,
    the process exits with [EXIT_SUCCESS] whatever the other options are,
    those counted as errors before it included. *)
Theorem help_exits_with_success before after :
  (forall optarg subopts, ~ In (Cli.opt_s optarg subopts) before) ->
  parseOptions (before ++ Cli.opt_h :: after) = Cli.Exit Cli.EXIT_SUCCESS.
Proof.
  intros Hno. unfold Cli.parseOptions. now rewrite options_loop_help.
Qed.

End CommandLine.

Lemma parsed_options_reflect_command_line_witness :
  let atol := fun _ : list byte => 0 in
  let atoi := fun _ : list byte => 0 in
  let results := [Cli.opt_m; Cli.opt_d; Cli.opt_b (bytes "book");
                  Cli.opt_o (bytes "original"); Cli.opt_f (bytes "code")] in
  let st := match Cli.parseOptions atol atoi results with
            | Cli.Parsed st => st
            | _ => Cli.initial
            end in
  Cli.parseOptions atol atoi results = Cli.Parsed st
  /\ Cli.optSt st Cli.mapOffsets = existsb is_opt_m results
  /\ Cli.optSt st Cli.extractBytes = existsb is_opt_e results
  /\ existsb is_opt_m results = negb (existsb is_opt_e results)
  /\ allowDuplicates (options_of st) = existsb is_opt_d results
  /\ resetAtEndOfBuf (options_of st) = existsb is_opt_r results.
Proof.
  cbv zeta.
  assert (Hp : Cli.parseOptions (fun _ => 0) (fun _ => 0)
                 [Cli.opt_m; Cli.opt_d; Cli.opt_b (bytes "book");
                  Cli.opt_o (bytes "original"); Cli.opt_f (bytes "code")]
               = Cli.Parsed
                   match Cli.parseOptions (fun _ => 0) (fun _ => 0)
                           [Cli.opt_m; Cli.opt_d; Cli.opt_b (bytes "book");
                            Cli.opt_o (bytes "original"); Cli.opt_f (bytes "code")] with
                   | Cli.Parsed st => st
                   | _ => Cli.initial
                   end) by reflexivity.
  split; [exact Hp|].
  exact (parsed_options_reflect_command_line _ _ _ _ Hp).
Defined.

Lemma output_option_follows_mode_witness :
  let atol := fun _ : list byte => 0 in
  let atoi := fun _ : list byte => 0 in
  let results := [Cli.opt_e; Cli.opt_b (bytes "book"); Cli.opt_p;
                  Cli.opt_f (bytes "original")] in
  let st := match Cli.parseOptions atol atoi results with
            | Cli.Parsed st => st
            | _ => Cli.initial
            end in
  Cli.parseOptions atol atoi results = Cli.Parsed st
  /\ Cli.parseOptions atol atoi
       [Cli.opt_f (bytes "original"); Cli.opt_e; Cli.opt_b (bytes "book"); Cli.opt_p]
     = Cli.Exit Cli.EXIT_FAILURE
  /\ exists before r after,
       results = before ++ r :: after
       /\ ((exists optarg,
              r = Cli.opt_f optarg /\ Cli.looks_like_option optarg = false
              /\ existsb is_opt_m before || existsb is_opt_e before = true)
           \/ (r = Cli.opt_p /\ existsb is_opt_m before = true)).
Proof.
  cbv zeta.
  assert (Hp : Cli.parseOptions (fun _ => 0) (fun _ => 0)
                 [Cli.opt_e; Cli.opt_b (bytes "book"); Cli.opt_p;
                  Cli.opt_f (bytes "original")]
               = Cli.Parsed
                   match Cli.parseOptions (fun _ => 0) (fun _ => 0)
                           [Cli.opt_e; Cli.opt_b (bytes "book"); Cli.opt_p;
                            Cli.opt_f (bytes "original")] with
                   | Cli.Parsed st => st
                   | _ => Cli.initial
                   end) by reflexivity.
  split; [exact Hp|]. split; [reflexivity|].
  exact (output_option_follows_mode _ _ _ _ Hp).
Defined.


Lemma help_exits_with_success_witness :
  let atol := fun _ : list byte => 0 in
  let atoi := fun _ : list byte => 0 in
  let before := [Cli.opt_b (bytes "-m"); Cli.opt_unknown] in
  let after := [Cli.opt_e] in
  (forall optarg subopts, ~ In (Cli.opt_s optarg subopts) before)
  /\ Cli.parseOptions atol atoi (before ++ Cli.opt_h :: after)
     = Cli.Exit Cli.EXIT_SUCCESS.
Proof.
  cbv zeta.
  assert (Hno : forall optarg subopts,
             ~ In (Cli.opt_s optarg subopts)
                  [Cli.opt_b (bytes "-m"); Cli.opt_unknown])
    by (intros a l [H|[H|[]]]; discriminate H).
  split; [exact Hno|].
  exact (help_exits_with_success (fun _ => 0) (fun _ => 0) _ [Cli.opt_e] Hno).
Defined.

(** * Bytes the book holds at offsets that go up *)

Section StrictOrder.

Variable book : list byte.
Variable bkFilSize : Z.
Variable bkFilBufSize : Z.
Variable optSt : optionsStruct.

Hypothesis B : book_ok book bkFilSize bkFilBufSize.

Local Abbreviation cursor_ok := (cursor_ok book bkFilSize bkFilBufSize optSt).
Local Abbreviation scannable := (scannable bkFilSize bkFilBufSize optSt).
Local Abbreviation body := (forBody book bkFilSize bkFilBufSize optSt).
Local Abbreviation bytes_run := (mapBytes book bkFilSize bkFilBufSize optSt).
Local Abbreviation reaches := (reaches book bkFilSize bkFilBufSize optSt).
Local Abbreviation maps := (maps book bkFilSize bkFilBufSize optSt).
Local Abbreviation digest_below := (digest_below bkFilSize bkFilBufSize optSt).

Lemma reaches_refl b t : reaches b t t.
Proof. now exists 0%nat. Qed.

Lemma reaches_trans b t1 t2 t3 : reaches b t1 t2 -> reaches b t2 t3 -> reaches b t1 t3.
Proof.
  intros [k1 H1] [k2 H2]. exists (k1 + k2)%nat. intros g rest.
  now rewrite <- Nat.add_assoc, H1, H2.
Qed.

Lemma reaches_maps b t1 t2 t3 : reaches b t1 t2 -> maps b t2 t3 -> maps b t1 t3.
Proof.
  intros [k1 H1] [k2 H2]. exists (k1 + k2)%nat. intros g rest.
  now rewrite <- Nat.add_assoc, H1, H2.
Qed.

(** The cursor stands on an offset the scan can stop at. *)
Lemma cursor_scannable t :
  cursor_ok t -> bkFilBufPos t < bkFilBufSize ->
  scannable (bkFilPos t + bkFilBufPos t).
Proof.
  intros [[[k Hk] Hlo Hhi _ _ _] Hp Hh Hr _] Hbuf.
  destruct B as (HW & _). split; [lia|].
  destruct (Z.eq_dec (bkFilPos t) 0) as [E0|E0]; [left; lia|].
  right. destruct Hh as [Hh|Hh]; [contradiction|]. split.
  - rewrite Hk, Z.add_comm, Z.mod_add by lia. rewrite Z.mod_small; lia.
  - destruct (resetAtEndOfBuf optSt); [|reflexivity]. now specialize (Hr eq_refl).
Qed.

(** One turn of the innermost loop, seen from the run over the bytes. *)
Lemma turn_same b t t' :
  cursor_ok t -> bkFilBufPos t < bkFilBufSize ->
  body (set_orgFil 0 [b] t) = inl t' -> orgFilBufPos t' = 0 ->
  reaches b t t' /\ cursor_ok t'.
Proof.
  intros Hc Hbuf Hf H0.
  destruct (cursor_guards book _ _ optSt B t Hc Hbuf) as [E1 E2]. split.
  - exists 1%nat. intros g rest. cbn [Nat.add mapBytes]. now rewrite E1, E2, Hf, H0.
  - apply (forBody_cursor_ok book bkFilSize bkFilBufSize optSt B
             (set_orgFil 0 [b] t)); [now apply set_orgFil_cursor_ok | exact Hbuf | exact Hf].
Qed.

Lemma turn_next b t t' :
  cursor_ok t -> bkFilBufPos t < bkFilBufSize ->
  body (set_orgFil 0 [b] t) = inl t' -> orgFilBufPos t' = 1 ->
  maps b t t' /\ cursor_ok t'.
Proof.
  intros Hc Hbuf Hf H1.
  destruct (cursor_guards book _ _ optSt B t Hc Hbuf) as [E1 E2]. split.
  - exists 1%nat. intros g rest. cbn [Nat.add mapBytes]. now rewrite E1, E2, Hf, H1.
  - apply (forBody_cursor_ok book bkFilSize bkFilBufSize optSt B
             (set_orgFil 0 [b] t)); [now apply set_orgFil_cursor_ok | exact Hbuf | exact Hf].
Qed.

(** The byte under the cursor is the byte to map and its offset is not the
    one the digest holds for it: it is taken. *)
Lemma turn_take b t :
  cursor_ok t -> bkFilBufPos t < bkFilBufSize ->
  nth (Z.to_nat (bkFilBufPos t)) (bkFilBuffer t) Byte.x00 = b ->
  allowDuplicates optSt = true
  \/ to_u32 (offsetDigest t b) <> bkFilPos t + bkFilBufPos t ->
  exists t',
    maps b t t' /\ cursor_ok t'
    /\ bkFilPos t' = bkFilPos t /\ bkFilBufPos t' = bkFilBufPos t
    /\ repeatsFound t' = 0
    /\ offsetDigest t'
       = digest_store (offsetDigest t) b (to_i32 (bkFilPos t + bkFilBufPos t)).
Proof.
  intros Hc Hbuf Hb Hfresh.
  pose proof Hc as [[_ Hlo Hhi _ _ _] Hp _ _ _].
  destruct B as (HW & _ & _ & Hfit & H32).
  assert (Hoff : to_u32 (bkFilBufPos t + bkFilPos t) = bkFilPos t + bkFilBufPos t)
    by (rewrite to_u32_small; lia).
  assert (Hf : body (set_orgFil 0 [b] t)
               = inl (accept b (to_u32 (bkFilBufPos t + bkFilPos t))
                             (set_orgFil 0 [b] t))).
  { unfold forBody.
    cbn [set_orgFil orgFilBufPos orgFilBuffer bkFilBufPos bkFilBuffer bkFilPos
         offsetDigest Z.to_nat nth].
    rewrite Hb, byte_eqb_refl, Hoff.
    destruct Hfresh as [-> | Hne]; [reflexivity|].
    replace (to_u32 (offsetDigest t b) =? bkFilPos t + bkFilBufPos t) with false
      by (symmetry; now apply Z.eqb_neq).
    now rewrite andb_false_r. }
  destruct (turn_next b t _ Hc Hbuf Hf eq_refl) as [Hm Hc'].
  eexists. split; [exact Hm|]. split; [exact Hc'|].
  cbn [accept bkFilPos bkFilBufPos repeatsFound offsetDigest set_orgFil].
  rewrite Hoff. auto.
Qed.

(** The byte under the cursor is the byte to map, at the offset the digest
    holds for it, and fewer than two such turns went before: the scan goes
    on, from index 1 when it stood at the end of the buffer. *)
Lemma turn_soft_repeat b t :
  allowDuplicates optSt = false ->
  cursor_ok t -> bkFilBufPos t < bkFilBufSize -> 2 <= bkFilBufSize ->
  nth (Z.to_nat (bkFilBufPos t)) (bkFilBuffer t) Byte.x00 = b ->
  to_u32 (offsetDigest t b) = bkFilPos t + bkFilBufPos t ->
  repeatsFound t < 2 ->
  exists t',
    reaches b t t' /\ cursor_ok t'
    /\ bkFilPos t' = bkFilPos t
    /\ bkFilBufPos t'
       = (if bkFilBufPos t =? bkFilBufSize - 1 then 1 else bkFilBufPos t + 1)
    /\ repeatsFound t' = repeatsFound t + 1
    /\ offsetDigest t' = offsetDigest t.
Proof.
  intros Hdup Hc Hbuf H2 Hb Hdig Hrep.
  pose proof Hc as [[_ Hlo Hhi _ _ _] Hp _ _ _].
  destruct B as (HW & _ & _ & Hfit & H32).
  assert (Hoff : to_u32 (bkFilBufPos t + bkFilPos t) = bkFilPos t + bkFilBufPos t)
    by (rewrite to_u32_small; lia).
  assert (Hf : body (set_orgFil 0 [b] t)
               = inl (next_bkFilBufPos
                        (set_repeatsFound (repeatsFound t + 1)
                           (if bkFilBufPos t =? bkFilBufSize - 1
                            then set_bkFilBufPos 0 (set_orgFil 0 [b] t)
                            else set_orgFil 0 [b] t)))).
  { unfold forBody.
    cbn [set_orgFil orgFilBufPos orgFilBuffer bkFilBufPos bkFilBuffer bkFilPos
         offsetDigest repeatsFound Z.to_nat nth].
    rewrite Hb, byte_eqb_refl, Hoff, Hdup, Hdig, Z.eqb_refl.
    cbn [negb andb].
    replace (2 <=? repeatsFound t) with false by (symmetry; apply Z.leb_gt; lia).
    rewrite to_size_small by lia.
    destruct (bkFilBufPos t =? bkFilBufSize - 1); reflexivity. }
  destruct (turn_same b t _ Hc Hbuf Hf) as [Hr Hc'].
  { destruct (bkFilBufPos t =? bkFilBufSize - 1); reflexivity. }
  eexists. split; [exact Hr|]. split; [exact Hc'|].
  destruct (bkFilBufPos t =? bkFilBufSize - 1) eqn:El; cbn;
    rewrite ?to_u32_small by lia; auto.
Qed.

(** After two such turns the next one loads the window that follows, when
    there is one. *)
Lemma turn_repeat_reload b t :
  allowDuplicates optSt = false ->
  cursor_ok t -> bkFilBufPos t < bkFilBufSize -> 2 <= bkFilBufSize ->
  nth (Z.to_nat (bkFilBufPos t)) (bkFilBuffer t) Byte.x00 = b ->
  to_u32 (offsetDigest t b) = bkFilPos t + bkFilBufPos t ->
  2 <= repeatsFound t ->
  resetAtEndOfBuf optSt = false -> bkFilPos t + bkFilBufSize + 1 < bkFilSize ->
  exists t',
    reaches b t t' /\ cursor_ok t'
    /\ bkFilPos t' = bkFilPos t + bkFilBufSize /\ bkFilBufPos t' = 1
    /\ repeatsFound t' = repeatsFound t
    /\ offsetDigest t' = offsetDigest t.
Proof.
  intros Hdup Hc Hbuf H2 Hb Hdig Hrep Hreset Hroom.
  pose proof Hc as [[[k Hk] Hlo Hhi Hs _ _] Hp _ _ _].
  destruct B as (HW & [k' Hk'] & _ & Hfit & H32).
  assert (Hoff : to_u32 (bkFilBufPos t + bkFilPos t) = bkFilPos t + bkFilBufPos t)
    by (rewrite to_u32_small; lia).
  assert (Hk2 : k + 2 <= k') by nia.
  assert (Hfits : bkFilPos t + bkFilBufSize + bkFilBufSize <= bkFilSize) by nia.
  assert (Hf : body (set_orgFil 0 [b] t)
               = inl (next_bkFilBufPos
                        (set_bkFil (bkFil t + bkFilBufSize)
                           (fread book (bkFil t) bkFilBufSize)
                           (set_bkFilBufPos 0
                              (set_bkFilPos (bkFilPos t + bkFilBufSize)
                                            (set_orgFil 0 [b] t)))))).
  { unfold forBody, refillBuffer.
    cbn [set_orgFil orgFilBufPos orgFilBuffer bkFilBufPos bkFilBuffer bkFilPos
         bkFil offsetDigest repeatsFound set_bkFilPos set_bkFilBufPos Z.to_nat nth].
    rewrite Hb, byte_eqb_refl, Hoff, Hdup, Hdig, Z.eqb_refl, Hreset.
    cbn [negb andb].
    replace (2 <=? repeatsFound t) with true by (symmetry; apply Z.leb_le; lia).
    rewrite to_size_small, to_u32_small by lia.
    replace (bkFilSize - 1 <=? bkFilPos t + bkFilBufSize) with false
      by (symmetry; apply Z.leb_gt; lia).
    cbn [orb]. rewrite freadWErrCheck_full by lia. reflexivity. }
  destruct (turn_same b t _ Hc Hbuf Hf eq_refl) as [Hr Hc'].
  eexists. split; [exact Hr|]. split; [exact Hc'|].
  cbn. change (to_u32 1) with 1. auto.
Qed.

(** An offset the scan can stop at, past the last byte of the window in
    the buffer, lies in a window that follows, past its first byte. *)
Lemma scannable_beyond p t :
  scannable p -> cursor_ok t ->
  bkFilBufPos t = bkFilBufSize - 1 -> bkFilPos t + bkFilBufPos t < p ->
  resetAtEndOfBuf optSt = false
  /\ bkFilPos t + bkFilBufSize + 1 <= p /\ p < bkFilSize
  /\ 2 <= bkFilBufSize.
Proof.
  intros [Hrange Hhead] [[[k Hk] Hlo Hhi _ _ _] Hp0 _ _ _] El Hlt.
  destruct B as (HW & _).
  destruct Hhead as [Hfirst | [Hmod Hreset]]; [nia|].
  assert (p <> (k + 1) * bkFilBufSize)
    by (intros ->; now rewrite Z.mod_mul in Hmod by lia).
  repeat split; try assumption; try nia.
  destruct (Z.eq_dec bkFilBufSize 1) as [E1|]; [|lia].
  rewrite E1, Z.mod_1_r in Hmod. contradiction.
Qed.

(** The scan goes from the cursor up to an offset ahead of it, unless it
    takes the byte on the way, when the offsets in between are not the one
    the digest holds for the byte. *)
Lemma scan_to b z :
  scannable z ->
  forall (m : nat) t,
    cursor_ok t -> bkFilBufPos t < bkFilBufSize ->
    bkFilPos t + bkFilBufPos t <= z ->
    (Z.to_nat (z - (bkFilPos t + bkFilBufPos t)) <= m)%nat ->
    (allowDuplicates optSt = true
     \/ forall x, bkFilPos t + bkFilBufPos t <= x < z ->
                  to_u32 (offsetDigest t b) <> x) ->
    (exists t',
        maps b t t' /\ cursor_ok t' /\ bkFilBufPos t' < bkFilBufSize
        /\ bkFilPos t + bkFilBufPos t <= bkFilPos t' + bkFilBufPos t' < z
        /\ repeatsFound t' = 0
        /\ offsetDigest t'
           = digest_store (offsetDigest t) b
                          (to_i32 (bkFilPos t' + bkFilBufPos t')))
    \/ (exists t',
           reaches b t t' /\ cursor_ok t' /\ bkFilBufPos t' < bkFilBufSize
           /\ bkFilPos t' + bkFilBufPos t' = z
           /\ repeatsFound t' = repeatsFound t
           /\ offsetDigest t' = offsetDigest t).
Proof.
  intros Hz. induction m as [|m IH]; intros t Hc Hbuf Hle Hm Hfresh;
    (destruct (Z.eq_dec (bkFilPos t + bkFilBufPos t) z) as [Ez|Ez];
     [right; exists t; split; [apply reaches_refl|]; split; [exact Hc|];
      split; [exact Hbuf|]; split; [exact Ez|]; split; reflexivity|]);
    [exfalso; lia|].
  destruct (Byte.eqb (nth (Z.to_nat (bkFilBufPos t)) (bkFilBuffer t) Byte.x00) b)
    eqn:Eb.
  - apply byte_eqb_true in Eb. left.
    destruct (turn_take b t Hc Hbuf Eb) as (t' & Hm' & Hc' & Hpos & Hbp & Hrep & Hdg).
    { destruct Hfresh as [Hd|Hf]; [now left | right; apply Hf; lia]. }
    exists t'. rewrite Hpos, Hbp. split_conj; auto; lia.
  - assert (Hne : nth (Z.to_nat (bkFilBufPos t)) (bkFilBuffer t) Byte.x00 <> b)
      by (intros Heq; rewrite Heq, byte_eqb_refl in Eb; discriminate).
    assert (Hlast : bkFilBufPos t = bkFilBufSize - 1 ->
                    resetAtEndOfBuf optSt = false
                    /\ bkFilPos t + bkFilBufSize + 1 < bkFilSize
                    /\ 2 <= bkFilBufSize).
    { intros El.
      destruct (scannable_beyond z t Hz Hc El ltac:(lia)) as (? & ? & ? & ?).
      repeat split; auto; lia. }
    destruct (mapBytes_advance book _ _ optSt B b t Hc Hbuf Hne Hlast)
      as (t1 & Hrun & Hc1 & Hbuf1 & _ & Hd1 & Hrep1 & Hcursor).
    assert (Hreach : reaches b t t1) by (exists 1%nat; exact Hrun).
    assert (Hle1 : bkFilPos t + bkFilBufPos t < bkFilPos t1 + bkFilBufPos t1 <= z).
    { destruct (bkFilBufPos t =? bkFilBufSize - 1) eqn:El; [|lia].
      apply Z.eqb_eq in El.
      destruct (scannable_beyond z t Hz Hc El ltac:(lia)) as (? & ? & ? & ?). lia. }
    destruct (IH t1 Hc1 Hbuf1 ltac:(lia) ltac:(lia)) as
        [(t' & Hm' & Hc' & Hbuf' & Hcur' & Hrep' & Hdg')
        |(t' & Hr' & Hc' & Hbuf' & Hcur' & Hrep' & Hdg')].
    + destruct Hfresh as [Hd|Hf]; [now left | right].
      intros x Hx. rewrite Hd1. apply Hf. lia.
    + left. exists t'. rewrite Hd1 in Hdg'.
      split_conj; eauto using reaches_maps; lia.
    + right. exists t'. rewrite Hd1 in Hdg'. rewrite Hrep1 in Hrep'.
      split_conj; eauto using reaches_trans.
Qed.

(** When the digest holds nothing for the byte from the cursor on, the scan
    takes the byte at an offset ahead that holds it, or before. *)
Lemma find_past b p :
  scannable p -> nth_error book (Z.to_nat p) = Some b ->
  forall t,
    cursor_ok t -> bkFilBufPos t < bkFilBufSize ->
    bkFilPos t + bkFilBufPos t <= p ->
    (allowDuplicates optSt = true \/ offsetDigest t b = -1
     \/ to_u32 (offsetDigest t b) < bkFilPos t + bkFilBufPos t) ->
    exists t',
      maps b t t' /\ cursor_ok t' /\ bkFilBufPos t' < bkFilBufSize
      /\ bkFilPos t + bkFilBufPos t <= bkFilPos t' + bkFilBufPos t' <= p
      /\ repeatsFound t' = 0
      /\ offsetDigest t'
         = digest_store (offsetDigest t) b (to_i32 (bkFilPos t' + bkFilBufPos t')).
Proof.
  intros Hp Hb t Hc Hbuf Hle Hfresh.
  pose proof Hp as [Hrange _]. destruct B as (_ & _ & _ & Hfit & H32).
  assert (Hne : allowDuplicates optSt = true
                \/ forall x, bkFilPos t + bkFilBufPos t <= x <= p ->
                             to_u32 (offsetDigest t b) <> x).
  { destruct Hfresh as [Hd | [Hu | Hlt]]; [now left | right | right]; intros x Hx.
    - rewrite Hu. change (to_u32 (-1)) with 4294967295. lia.
    - lia. }
  destruct (scan_to b p Hp _ t Hc Hbuf Hle (Nat.le_refl _)) as
      [(t' & Hm' & Hc' & Hbuf' & Hcur' & Hrep' & Hdg')
      |(t1 & Hr1 & Hc1 & Hbuf1 & Hcur1 & Hrep1 & Hdg1)].
  - destruct Hne as [Hd|Hf]; [now left | right]. intros x Hx. apply Hf. lia.
  - exists t'. split_conj; auto; lia.
  - pose proof (cursor_byte book _ _ optSt B t1 Hc1 Hbuf1) as Hcur.
    rewrite Hcur1, Hb in Hcur. injection Hcur as Hcur.
    destruct (turn_take b t1 Hc1 Hbuf1 (eq_sym Hcur))
      as (t' & Hm' & Hc' & Hpos & Hbp & Hrep & Hdg).
    { destruct Hne as [Hd|Hf]; [now left | right].
      rewrite Hdg1, Hcur1. apply Hf. lia. }
    exists t'. rewrite Hpos, Hbp, Hcur1. rewrite Hcur1, Hdg1 in Hdg.
    split_conj; eauto using reaches_maps; lia.
Qed.

Local Abbreviation cur t := (bkFilPos t + bkFilBufPos t).

Lemma digest_below_take p b t t' :
  digest_below p t -> cursor_ok t' -> bkFilBufPos t' < bkFilBufSize ->
  cur t' <= p ->
  offsetDigest t' = digest_store (offsetDigest t) b (to_i32 (cur t')) ->
  digest_below (p + 1) t'.
Proof.
  intros Hd Hc Hbuf Hle Hdg x. rewrite Hdg. unfold digest_store.
  pose proof (cursor_scannable t' Hc Hbuf) as Hs. pose proof Hs as [Hr _].
  destruct B as (_ & _ & _ & Hfit & H32).
  destruct (Byte.eqb x b).
  - right. rewrite to_u32_to_i32 by lia. split; [exact Hs | lia].
  - destruct (Hd x) as [Hu | [Hsx Hlt]]; [now left | right].
    split; [exact Hsx | lia].
Qed.

(** With duplicates disallowed and the digest below the offset aimed at,
    the scan takes the byte at that offset or before: it goes round the
    window at most twice when the offset the digest holds for the byte
    stands at the end of it, and then on to the window that follows. *)
Lemma find_strict b p :
  allowDuplicates optSt = false ->
  scannable p -> nth_error book (Z.to_nat p) = Some b ->
  forall t,
    cursor_ok t -> bkFilBufPos t < bkFilBufSize -> repeatsFound t = 0 ->
    cur t <= p -> digest_below p t ->
    exists t',
      maps b t t' /\ cursor_ok t' /\ bkFilBufPos t' < bkFilBufSize
      /\ repeatsFound t' = 0 /\ cur t' <= p /\ digest_below (p + 1) t'.
Proof.
  intros Hdup Hp Hb t Hc Hbuf Hrep Hle Hdig.
  destruct B as (HW & _ & _ & Hfit & H32).
  assert (Hdone : forall t',
             maps b t t' -> cursor_ok t' -> bkFilBufPos t' < bkFilBufSize ->
             cur t' <= p -> repeatsFound t' = 0 ->
             offsetDigest t' = digest_store (offsetDigest t) b (to_i32 (cur t')) ->
             exists t'',
               maps b t t'' /\ cursor_ok t'' /\ bkFilBufPos t'' < bkFilBufSize
               /\ repeatsFound t'' = 0 /\ cur t'' <= p /\ digest_below (p + 1) t'').
  { intros t' Hm Hc' Hbuf' Hle' Hrep' Hdg. exists t'. split_conj; auto.
    now apply (digest_below_take p b t). }
  assert (Hpast : forall t1,
             reaches b t t1 -> cursor_ok t1 -> bkFilBufPos t1 < bkFilBufSize ->
             cur t1 <= p -> offsetDigest t1 = offsetDigest t ->
             offsetDigest t b = -1 \/ to_u32 (offsetDigest t b) < cur t1 ->
             exists t'',
               maps b t t'' /\ cursor_ok t'' /\ bkFilBufPos t'' < bkFilBufSize
               /\ repeatsFound t'' = 0 /\ cur t'' <= p /\ digest_below (p + 1) t'').
  { intros t1 Hr1 Hc1 Hbuf1 Hle1 Hd1 Hfresh.
    destruct (find_past b p Hp Hb t1 Hc1 Hbuf1 Hle1)
      as (t' & Hm & Hc' & Hbuf' & Hcur' & Hrep' & Hdg').
    { right. now rewrite Hd1. }
    apply (Hdone t'); eauto using reaches_maps; try lia. now rewrite <- Hd1. }
  destruct (Hdig b) as [Hu | [Hds Hdlt]];
    [apply (Hpast t); auto using reaches_refl|].
  destruct (Z.lt_ge_cases (to_u32 (offsetDigest t b)) (cur t)) as [Hlt | Hge];
    [apply (Hpast t); auto using reaches_refl|].
  set (d := to_u32 (offsetDigest t b)) in *.
  pose proof Hc as [[_ Hlo _ _ _ _] Hp0 _ _ _].
  assert (H2 : 2 <= bkFilBufSize).
  { destruct Hp as [Hr [Hfirst | [Hmod _]]]; [lia|].
    destruct (Z.eq_dec bkFilBufSize 1) as [E1|]; [|lia].
    rewrite E1, Z.mod_1_r in Hmod. contradiction. }
  assert (Hscan : forall t1,
             reaches b t t1 -> cursor_ok t1 -> bkFilBufPos t1 < bkFilBufSize ->
             cur t1 <= d -> offsetDigest t1 = offsetDigest t ->
             (exists t'',
                 maps b t t'' /\ cursor_ok t'' /\ bkFilBufPos t'' < bkFilBufSize
                 /\ repeatsFound t'' = 0 /\ cur t'' <= p
                 /\ digest_below (p + 1) t'')
             \/ (exists t2,
                    reaches b t t2 /\ cursor_ok t2 /\ bkFilBufPos t2 < bkFilBufSize
                    /\ cur t2 = d /\ repeatsFound t2 = repeatsFound t1
                    /\ offsetDigest t2 = offsetDigest t)).
  { intros t1 Hr1 Hc1 Hbuf1 Hle1 Hd1.
    destruct (scan_to b d Hds _ t1 Hc1 Hbuf1 Hle1 (Nat.le_refl _)) as
        [(t' & Hm' & Hc' & Hbuf' & Hcur' & Hrep' & Hdg')
        |(t2 & Hr2 & Hc2 & Hbuf2 & Hcur2 & Hrep2 & Hdg2)].
    - right. intros x Hx. rewrite Hd1. fold d. lia.
    - left. apply (Hdone t'); eauto using reaches_maps; try lia. now rewrite <- Hd1.
    - right. exists t2. split_conj; eauto using reaches_trans. congruence. }
  destruct (Hscan t (reaches_refl b t) Hc Hbuf Hge eq_refl)
    as [Hfin | (t1 & Hr1 & Hc1 & Hbuf1 & Hcur1 & Hrep1 & Hd1)]; [exact Hfin|].
  destruct (Byte.eqb (nth (Z.to_nat (bkFilBufPos t1)) (bkFilBuffer t1) Byte.x00) b)
    eqn:Eb.
  2: { assert (Hne : nth (Z.to_nat (bkFilBufPos t1)) (bkFilBuffer t1) Byte.x00 <> b)
         by (intros Heq; rewrite Heq, byte_eqb_refl in Eb; discriminate).
       assert (Hlast : bkFilBufPos t1 = bkFilBufSize - 1 ->
                       resetAtEndOfBuf optSt = false
                       /\ bkFilPos t1 + bkFilBufSize + 1 < bkFilSize
                       /\ 2 <= bkFilBufSize).
       { intros El.
         destruct (scannable_beyond p t1 Hp Hc1 El ltac:(lia)) as (? & ? & ? & ?).
         split_conj; auto; lia. }
       destruct (mapBytes_advance book _ _ optSt B b t1 Hc1 Hbuf1 Hne Hlast)
         as (t2 & Hrun & Hc2 & Hbuf2 & _ & Hd2 & _ & Hcursor).
       apply (Hpast t2); auto.
       - apply (reaches_trans b t t1 t2 Hr1). exists 1%nat. exact Hrun.
       - destruct (bkFilBufPos t1 =? bkFilBufSize - 1) eqn:El; [|lia].
         apply Z.eqb_eq in El.
         destruct (scannable_beyond p t1 Hp Hc1 El ltac:(lia)) as (? & ? & ? & ?). lia.
       - congruence.
       - right. destruct (bkFilBufPos t1 =? bkFilBufSize - 1); fold d; lia. }
  apply byte_eqb_true in Eb.
  assert (Hsame : forall t3,
             cursor_ok t3 -> bkFilBufPos t3 < bkFilBufSize -> cur t3 = d ->
             nth (Z.to_nat (bkFilBufPos t3)) (bkFilBuffer t3) Byte.x00 = b).
  { intros t3 Hc3 Hbuf3 Hcur3.
    pose proof (cursor_byte book _ _ optSt B t1 Hc1 Hbuf1) as Hb1.
    pose proof (cursor_byte book _ _ optSt B t3 Hc3 Hbuf3) as Hb3.
    rewrite Hcur1, Eb in Hb1. rewrite Hcur3, Hb1 in Hb3. now injection Hb3. }
  destruct (turn_soft_repeat b t1 Hdup Hc1 Hbuf1 H2 Eb)
    as (t2 & Hr2 & Hc2 & Hpos2 & Hbp2 & Hrep2 & Hd2);
    [rewrite Hd1; fold d; lia | lia |].
  destruct (bkFilBufPos t1 =? bkFilBufSize - 1) eqn:El.
  2: { apply Z.eqb_neq in El.
       apply (Hpast t2); eauto using reaches_trans; try lia; congruence. }
  apply Z.eqb_eq in El.
  pose proof Hc1 as [[[k1 Hk1] Hlo1 _ _ _ _] _ _ _ _].
  assert (Hround : forall t3,
             reaches b t t3 -> cursor_ok t3 -> bkFilBufPos t3 = 1 ->
             bkFilPos t3 = bkFilPos t1 -> offsetDigest t3 = offsetDigest t ->
             (exists t'',
                 maps b t t'' /\ cursor_ok t'' /\ bkFilBufPos t'' < bkFilBufSize
                 /\ repeatsFound t'' = 0 /\ cur t'' <= p
                 /\ digest_below (p + 1) t'')
             \/ (exists t4,
                    reaches b t t4 /\ cursor_ok t4
                    /\ bkFilPos t4 = bkFilPos t1
                    /\ bkFilBufPos t4 = bkFilBufSize - 1
                    /\ repeatsFound t4 = repeatsFound t3
                    /\ offsetDigest t4 = offsetDigest t)).
  { intros t3 Hr3 Hc3 Hbp3 Hpos3 Hd3.
    destruct (Hscan t3 Hr3 Hc3 ltac:(lia) ltac:(lia) Hd3)
      as [Hfin | (t4 & Hr4 & Hc4 & Hbuf4 & Hcur4 & Hrep4 & Hd4)];
      [now left | right].
    exists t4. pose proof Hc4 as [[[k4 Hk4] Hlo4 _ _ _ _] Hp4 _ _ _].
    assert (k4 = k1) by nia.
    split_conj; auto; nia. }
  destruct (Hround t2 (reaches_trans b t t1 t2 Hr1 Hr2) Hc2 Hbp2 Hpos2
                   ltac:(congruence))
    as [Hfin | (t3 & Hr3 & Hc3 & Hpos3 & Hbp3 & Hrep3 & Hd3)]; [exact Hfin|].
  destruct (turn_soft_repeat b t3 Hdup Hc3 ltac:(lia) H2
                             (Hsame t3 Hc3 ltac:(lia) ltac:(lia)))
    as (t4 & Hr4 & Hc4 & Hpos4 & Hbp4 & Hrep4 & Hd4);
    [rewrite Hd3; fold d; lia | lia |].
  replace (bkFilBufPos t3 =? bkFilBufSize - 1) with true in Hbp4
    by (symmetry; lia).
  destruct (Hround t4 (reaches_trans b t t3 t4 Hr3 Hr4) Hc4 Hbp4 ltac:(lia)
                   ltac:(congruence))
    as [Hfin | (t5 & Hr5 & Hc5 & Hpos5 & Hbp5 & Hrep5 & Hd5)]; [exact Hfin|].
  destruct (scannable_beyond p t5 Hp Hc5 Hbp5 ltac:(lia))
    as (Hreset & Hroom & Hsize & _).
  destruct (turn_repeat_reload b t5 Hdup Hc5 ltac:(lia) H2
                               (Hsame t5 Hc5 ltac:(lia) ltac:(lia)))
    as (t6 & Hr6 & Hc6 & Hpos6 & Hbp6 & Hrep6 & Hd6);
    [rewrite Hd5; fold d; lia | lia | exact Hreset | lia |].
  apply (Hpast t6); eauto using reaches_trans; try lia; congruence.
Qed.

Lemma digest_below_le lo lo' t : digest_below lo t -> lo <= lo' -> digest_below lo' t.
Proof.
  intros Hd Hle x. destruct (Hd x) as [Hu | [Hs Hlt]]; [now left | right].
  split; [exact Hs | lia].
Qed.

(** With duplicates disallowed, bytes the book holds at offsets that go up,
    ahead of the cursor and of every offset in the digest, are all
    mapped. *)
Lemma mapBytes_in_strict_order :
  allowDuplicates optSt = false ->
  forall bs ps t lo,
    cursor_ok t -> bkFilBufPos t < bkFilBufSize -> repeatsFound t = 0 ->
    cur t <= lo -> digest_below lo t ->
    found_in_strict_order book bkFilSize bkFilBufSize optSt lo bs ps ->
    exists k t', bytes_run k bs t = Done t'.
Proof.
  intros Hdup. induction bs as [|b bs IH]; intros ps t lo Hc Hbuf Hrep Hle Hdig Hfound.
  - now exists 1%nat, t.
  - destruct ps as [|p ps]; [contradiction|].
    destruct Hfound as (Hlo & Hp & Hb & Hrest).
    destruct (find_strict b p Hdup Hp Hb t Hc Hbuf Hrep ltac:(lia)
                          (digest_below_le _ _ _ Hdig Hlo))
      as (t1 & [k1 Hrun] & Hc1 & Hbuf1 & Hrep1 & Hle1 & Hdig1).
    destruct (IH ps t1 (p + 1) Hc1 Hbuf1 Hrep1 ltac:(lia) Hdig1 Hrest)
      as (k2 & t' & Hd).
    exists (k1 + k2)%nat, t'. now rewrite Hrun.
Qed.

End StrictOrder.

Lemma found_in_strict_order_weaken book bkFilSize bkFilBufSize optSt :
  forall bs ps from,
    found_in_strict_order book bkFilSize bkFilBufSize optSt from bs ps ->
    found_in_order book bkFilSize bkFilBufSize optSt from bs ps.
Proof.
  induction bs as [|b bs IH]; intros [|p ps] from; cbn; try tauto.
  intros (H1 & H2 & H3 & H4). split_conj; auto.
  apply (found_in_order_from _ _ _ _ (p + 1)); [now apply IH | lia].
Qed.

(** X21 (bytes the book holds at offsets that go up).  Whatever the
    options, a session returns when the bytes of the original file can be
    read off the book at offsets that go up from each byte to the next, each
    an offset the scan can stop at: inside the part of the book cut to whole
    windows, not the first byte of a later window, inside the first window
    under [-r].  The book is below [2^32] bytes and the file not empty,
    read in chunks its cursor can count. *)
Theorem rising_offsets_are_mapped ram optSt book original ps :
  Z.of_nat (length book) < 2 ^ 32 ->
  0 < map_bkFilBufSize optSt book ->
  0 < map_orgFilBufSize optSt original < 2 ^ 32 ->
  map_orgFilBufSize optSt original + map_bkFilBufSize optSt book <= ram ->
  found_in_strict_order book (map_bkFilSize optSt book) (map_bkFilBufSize optSt book)
                        optSt 0 original ps ->
  exists fuel st, runEncode ram optSt book original fuel = Done st.
Proof.
  intros H32 HW Hcc Hram Hfound.
  destruct (allowDuplicates optSt) eqn:Hdup.
  { apply (runEncode_in_order ram optSt book original ps); try assumption.
    now apply found_in_strict_order_weaken. }
  pose proof (map_sizes_book_ok optSt book HW H32) as B.
  destruct (mapBytes_in_strict_order book _ _ optSt B Hdup original ps
              (primed optSt book) 0) as (k & t' & Hd).
  - now apply cursor_ok_start.
  - exact HW.
  - reflexivity.
  - cbn. lia.
  - intros x. now left.
  - exact Hfound.
  - destruct (mapBytes_to_runEncode ram optSt book original k _ HW Hram Hcc Hd
                ltac:(discriminate)) as (fuel & Hf).
    exists fuel. destruct (runEncode ram optSt book original fuel) as [st| |];
      cbn in Hf; try contradiction.
    now exists st.
Qed.

Lemma rising_offsets_are_mapped_witness :
  let book := bytes "abcabc" in
  let original := bytes "aab" in
  let optSt := defaultOptions in
  let ps := [0; 3; 4] in
  Z.of_nat (length book) < 2 ^ 32
  /\ 0 < map_bkFilBufSize optSt book
  /\ 0 < map_orgFilBufSize optSt original < 2 ^ 32
  /\ map_orgFilBufSize optSt original + map_bkFilBufSize optSt book <= sample_ram
  /\ found_in_strict_order book (map_bkFilSize optSt book)
                           (map_bkFilBufSize optSt book) optSt 0 original ps
  /\ exists fuel st, runEncode sample_ram optSt book original fuel = Done st.
Proof.
  cbv zeta.
  assert (Hbook : Z.of_nat (length (bytes "abcabc")) < 2 ^ 32) by reflexivity.
  assert (HW : 0 < map_bkFilBufSize defaultOptions (bytes "abcabc")) by reflexivity.
  assert (Hcc : 0 < map_orgFilBufSize defaultOptions (bytes "aab") < 2 ^ 32)
    by (split; reflexivity).
  assert (Hram : map_orgFilBufSize defaultOptions (bytes "aab")
                 + map_bkFilBufSize defaultOptions (bytes "abcabc") <= sample_ram)
    by by_running.
  assert (Hfound : found_in_strict_order (bytes "abcabc")
                     (map_bkFilSize defaultOptions (bytes "abcabc"))
                     (map_bkFilBufSize defaultOptions (bytes "abcabc"))
                     defaultOptions 0 (bytes "aab") [0; 3; 4]).
  { vm_compute.
    repeat split;
      first [ congruence
            | left; reflexivity
            | right; split; [discriminate | reflexivity] ]. }
  split; [exact Hbook|]. split; [exact HW|]. split; [exact Hcc|].
  split; [exact Hram|]. split; [exact Hfound|].
  exact (rising_offsets_are_mapped sample_ram defaultOptions (bytes "abcabc")
           (bytes "aab") [0; 3; 4] Hbook HW Hcc Hram Hfound).
Defined.
